(** * rustyleaf: the streaming GeoJSON ingestion pipeline of [GeoJSONLayer]

    A shallow embedding of the methods of [class GeoJSONLayer]
    (src/index.js) that make up the streaming ingestion pipeline:

    - [findCompleteJsonEnd]      the boundary scanner,
    - [processStreamingBuffer]   the dispatch loop over one buffer,
    - [processChunk], [getFeatureCount], [updateStyle],
    - [loadUrlStreaming]         the streaming read loop ([readChunk]),
    - [loadData], [addTo]        deferred attachment,
    - [loadFromUrl]              the dual-path loader ([checkForData] and the
                                 fetch fallback),

    and of the methods around it: [setStyle], [remove], [clear],
    [addFeature], [addFeatures], [loadUrl], [loadFile] and [getBounds].

    JavaScript strings are sequences of UTF-16 code units; they are modelled
    as [list N].  The WASM engine behind [map.wasmMap] is external to the
    repository and enters as an interface ([Engine]).  Asynchronous code
    (promise continuations, timers) is modelled one scheduler turn at a time:
    every callback of the source is a function on an explicit state, and a
    run is a list of turns. *)

From Stdlib Require Import List ZArith NArith QArith Bool Lia String Ascii.
Import ListNotations.

Local Open Scope Z_scope.

(* ================================================================== *)
(** * JavaScript strings *)
(* ================================================================== *)

Module JS.

(** A string is its sequence of UTF-16 code units. *)
Definition jsstring := list N.

(** [lit] writes a string constant.  Inside the argument of [lit] an
    apostrophe stands for the double quote U+0022, so that JSON text can be
    written down directly; every other character is its own code. *)
Definition unit_of_ascii (c : ascii) : N :=
  if Ascii.eqb c "'"%char then 34%N else N_of_ascii c.

Fixpoint lit (s : string) : jsstring :=
  match s with
  | EmptyString => []
  | String c rest => unit_of_ascii c :: lit rest
  end.

(** [s.length] *)
Definition length (s : jsstring) : Z := Z.of_nat (List.length s).

(** Truthiness of a string in a condition: non-empty. *)
Definition truthy (s : jsstring) : bool :=
  match s with [] => false | _ :: _ => true end.

(** Clamping of an index argument into [0, len]. *)
Definition clamp (len x : Z) : Z := Z.max 0 (Z.min x len).

(** [s.substring(a, b)]: both arguments are clamped, and swapped when
    [a > b]. *)
Definition substring (s : jsstring) (a b : Z) : jsstring :=
  let a' := clamp (length s) a in
  let b' := clamp (length s) b in
  let lo := Z.min a' b' in
  let hi := Z.max a' b' in
  firstn (Z.to_nat (hi - lo)) (skipn (Z.to_nat lo) s).

(** [s.substring(a)] *)
Definition substring_from (s : jsstring) (a : Z) : jsstring :=
  substring s a (length s).

(** [s.slice(start)]: a negative [start] counts from the end; note that
    [-0] is [0], so [s.slice(-0)] is all of [s]. *)
Definition slice (s : jsstring) (start : Z) : jsstring :=
  let from := if start <? 0 then Z.max (length s + start) 0
              else Z.min start (length s) in
  skipn (Z.to_nat from) s.

(** White space and line terminators removed by [String.prototype.trim]. *)
Definition is_whitespace (c : N) : bool :=
  ((9 <=? c) && (c <=? 13) || (c =? 32) || (c =? 160) || (c =? 5760)
   || (8192 <=? c) && (c <=? 8202) || (c =? 8232) || (c =? 8233)
   || (c =? 8239) || (c =? 8287) || (c =? 12288) || (c =? 65279))%N.

Fixpoint trim_start (s : jsstring) : jsstring :=
  match s with
  | c :: rest => if is_whitespace c then trim_start rest else s
  | [] => []
  end.

(** [s.trim()] *)
Definition trim (s : jsstring) : jsstring :=
  rev (trim_start (rev (trim_start s))).

(** The string has a character that is not white space. *)
Definition has_non_whitespace (s : jsstring) : bool :=
  existsb (fun c => negb (is_whitespace c)) s.

(** Code units the scanner compares against. *)
Definition backslash : N := 92.
Definition quote : N := 34.
Definition lbrace : N := 123.
Definition rbrace : N := 125.

End JS.

Import JS.

(* ================================================================== *)
(** * The boundary scanner: [findCompleteJsonEnd] *)
(* ================================================================== *)

Module Scanner.

(** The three locals of [findCompleteJsonEnd]. *)
Record locals := mkLocals {
  braceCount : Z;
  inString : bool;
  escape : bool
}.

Definition initial : locals := mkLocals 0 false false.

(** One execution of the body of the [for] loop on [char].  The result is
    the locals after the body and whether [return i] was executed. *)
Definition body (l : locals) (char : N) : locals * bool :=
  if escape l then
    (mkLocals (braceCount l) (inString l) false, false)
  else if (char =? backslash)%N then
    (mkLocals (braceCount l) (inString l) true, false)
  else if (char =? quote)%N then
    (mkLocals (braceCount l) (negb (inString l)) (escape l), false)
  else if inString l then
    (l, false)
  else if (char =? lbrace)%N then
    (mkLocals (braceCount l + 1) (inString l) (escape l), false)
  else if (char =? rbrace)%N then
    let l' := mkLocals (braceCount l - 1) (inString l) (escape l) in
    (l', braceCount l' =? 0)
  else
    (l, false).

(** The [for] loop from index [i] on; [str] is the part of the string not
    read yet.  [Some (i, l)]: [return i] was executed with locals [l];
    [None]: the loop ran to the end of the string. *)
Fixpoint scan (i : nat) (l : locals) (str : jsstring) : option (nat * locals) :=
  match str with
  | [] => None
  | char :: rest =>
      match body l char with
      | (l', true) => Some (i, l')
      | (l', false) => scan (S i) l' rest
      end
  end.

Definition findCompleteJsonEnd (str : jsstring) : Z :=
  match scan 0 initial str with
  | Some (i, _) => Z.of_nat i
  | None => -1
  end.

(** The locals after the body has run on each of the first [n] characters
    of [str], whether or not it returned on the way. *)
Definition locals_after (str : jsstring) (n : nat) : locals :=
  fold_left (fun l char => fst (body l char)) (firstn n str) initial.

(** The body executes [return i] when it reads character [i]. *)
Definition returns_at (str : jsstring) (i : nat) : Prop :=
  exists char, nth_error str i = Some char /\
               snd (body (locals_after str i) char) = true.

(** ** The scanner as the specification words it

    A single forward pass maintaining [depth], [inStr] and [escapeNext];
    the pass itself never stops, and a boundary is a position at which a
    structural closing brace brings [depth] back to zero. *)
Record pass := mkPass { depth : Z; inStr : bool; escapeNext : bool }.

Definition pass_start : pass := mkPass 0 false false.

Definition pass_step (p : pass) (c : N) : pass :=
  if escapeNext p then mkPass (depth p) (inStr p) false
  else if (c =? backslash)%N then mkPass (depth p) (inStr p) true
  else if (c =? quote)%N then mkPass (depth p) (negb (inStr p)) false
  else if inStr p then p
  else if (c =? lbrace)%N then mkPass (depth p + 1) false false
  else if (c =? rbrace)%N then mkPass (depth p - 1) false false
  else p.

(** The locals of the code read as a state of the pass. *)
Definition to_pass (l : locals) : pass :=
  mkPass (braceCount l) (inString l) (escape l).

(** The pass after the first [n] characters of [str]. *)
Definition pass_after (str : jsstring) (n : nat) : pass :=
  fold_left pass_step (firstn n str) pass_start.

(** Position [i] holds a closing brace that is read outside a string and
    not escaped, and after it the depth is zero. *)
Definition closes_at (str : jsstring) (i : nat) : Prop :=
  nth_error str i = Some rbrace /\
  inStr (pass_after str i) = false /\
  escapeNext (pass_after str i) = false /\
  depth (pass_after str (S i)) = 0.

(** [i] is the first such position. *)
Definition first_boundary (str : jsstring) (i : nat) : Prop :=
  closes_at str i /\ forall j, (j < i)%nat -> ~ closes_at str j.

(** ** Where [depth] returns to zero, in the words of the specification

    [depth] is zero after character [i] and was not zero before it. *)
Definition returns_to_zero (str : jsstring) (i : nat) : Prop :=
  depth (pass_after str i) <> 0 /\ depth (pass_after str (S i)) = 0.

(** [i] is the first such position. *)
Definition first_return_to_zero (str : jsstring) (i : nat) : Prop :=
  returns_to_zero str i /\ forall j, (j < i)%nat -> ~ returns_to_zero str j.

(** [depth] never goes below zero: no closing brace without its opening
    one. *)
Definition never_negative (str : jsstring) : Prop :=
  forall j, 0 <= depth (pass_after str j).

(** ** Strings and escapes, read off the text

    The number of backslashes at the head of a text. *)
Fixpoint backslashes (s : jsstring) : nat :=
  match s with
  | c :: rest => if (c =? backslash)%N then S (backslashes rest) else O
  | [] => O
  end.

(** Character [j] follows an unresolved escape character: the backslashes
    right before it are odd in number. *)
Definition escaped_at (str : jsstring) (j : nat) : bool :=
  Nat.odd (backslashes (rev (firstn j str))).

(** The quotes before position [j] that are not escaped. *)
Fixpoint quotes_before (str : jsstring) (j : nat) : nat :=
  match j with
  | O => O
  | S k =>
      quotes_before str k
      + match nth_error str k with
        | Some c =>
            if (c =? quote)%N && negb (escaped_at str k) then 1 else 0
        | None => 0
        end
  end.

(** Position [j] is inside an open quoted string: an odd number of quotes
    that count stand before it. *)
Definition inside_string (str : jsstring) (j : nat) : bool :=
  Nat.odd (quotes_before str j).

End Scanner.

Import Scanner.

(* ================================================================== *)
(** * The host: errors, the WASM engine, JSON, the text decoder *)
(* ================================================================== *)

Module Host.

(** Values that are thrown or passed to [reject]. *)
Inductive Err :=
| HttpError (status : Z)     (* new Error(`HTTP error! status: ${status}`) *)
| TimeoutError               (* new Error('GeoJSON loading timed out after 30 seconds') *)
| TypeError                  (* property access on null *)
| EngineError (code : Z)     (* whatever a method of map.wasmMap throws *)
| SourceError (code : Z).    (* a rejected fetch or reader.read() *)

(** How a call ends: normally with a value, or by throwing. *)
Inductive outcome (A : Type) :=
| Normal (a : A)
| Thrown (e : Err).
Arguments Normal {A} a.
Arguments Thrown {A} e.

(** [styleData] of [updateStyle]. *)
Record style := mkStyle {
  pointColor : jsstring;
  pointSize : Z;
  lineColor : jsstring;
  lineWidth : Z;
  polygonColor : jsstring
}.

Definition url := jsstring.

(** The methods of [map.wasmMap] used by [GeoJSONLayer].  [E] is the
    engine's own state; every method may throw, and the engine state after
    the call is returned in either case. *)
Class Engine (E : Type) := {
  add_geojson_layer : E -> outcome unit * E;
  load_geojson : Z -> jsstring -> E -> outcome unit * E;
  load_geojson_chunk : Z -> jsstring -> bool -> E -> outcome unit * E;
  get_geojson_feature_count : Z -> E -> outcome Z * E;
  set_geojson_style : Z -> style -> E -> outcome unit * E;
  (** the layer index is passed as it is, [undefined] included *)
  load_geojson_from_url : option Z -> url -> E -> outcome unit * E
}.

(** A JavaScript value handed to [loadData] or held in [this.geojson]:
    a string, or anything else.  [Obj] are the values that are not strings
    and that [JSON.stringify] either turns into a string or throws on. *)
Inductive value (Obj : Type) :=
| VString (s : jsstring)
| VObject (o : Obj).
Arguments VString {Obj} s.
Arguments VObject {Obj} o.

Class Json (Obj : Type) := {
  JSON_parse : jsstring -> option (value Obj);   (* None: throws *)
  JSON_stringify : Obj -> option jsstring;       (* None: throws *)
  truthy_obj : Obj -> bool
}.

(** [new TextDecoder()] with [decode(value, { stream: true })]: the decoder
    keeps the bytes of an unfinished sequence in its state [D].
    [round_percentage loaded total] is
    [Math.round((loaded / total) * 100)], a floating-point computation. *)
Class TextDecoder (D : Type) := {
  new_decoder : D;
  decode : D -> list N -> jsstring * D;
  round_percentage : Z -> Z -> Z
}.

End Host.

Import Host.

(* ================================================================== *)
(** * The layer object and the effects of its methods *)
(* ================================================================== *)

Module Layer.

(** There is one map object in the model. *)
Inductive MapRef := theMap.

(** The fields of a [GeoJSONLayer]. *)
Record layer (Obj : Type) := mkLayer {
  geojson : option (value Obj);             (* null: None *)
  options : style;
  map : option MapRef;                      (* null: None *)
  layerIndex : option Z;                    (* undefined: None *)
  dataLoaded : bool;                        (* undefined: false *)
  _pendingGeoJSONText : option jsstring;    (* null: None *)
  _pendingTimer : bool                      (* an interval is armed *)
}.
Arguments mkLayer {Obj}.
Arguments geojson {Obj}.
Arguments options {Obj}.
Arguments map {Obj}.
Arguments layerIndex {Obj}.
Arguments dataLoaded {Obj}.
Arguments _pendingGeoJSONText {Obj}.
Arguments _pendingTimer {Obj}.

(** Messages that [loadFromUrl] attaches to an error report. *)
Inductive message :=
| Failed_to_process_loaded_data
| Fetch_fallback_failed
| Failed_to_load_from_url.

(** What the outside can observe, in the order it happens: calls of the
    engine, calls of the callbacks, the settling of the promise, and the
    warning of [processChunk].  The [console.log] messages are left out. *)
Inductive event :=
| Call_add_geojson_layer
| Call_load_geojson (layerIndex : Z) (text : jsstring)
| Call_load_geojson_chunk (layerIndex : Z) (chunk : jsstring) (isFinal : bool)
| Call_set_geojson_style (layerIndex : Z) (s : style)
| Call_load_geojson_from_url (layerIndex : option Z) (u : url)
| Console_warn (e : Err)
| ProgressCallback (loaded total percentage featureCount : Z)
| CompleteCallback (totalFeatures totalBytes : Z) (loadedBytes : option Z)
| ErrorCallback (e : Err) (m : option message)
| Resolve
| Reject (e : Err).

(** Everything a method can read or change. *)
Record world (E Obj : Type) := mkWorld {
  wasm : E;                                   (* map.wasmMap *)
  _geojsonLayerCount : option Z;              (* map._geojsonLayerCount, None: not a number *)
  rustyleafGeoJSONData : option jsstring;     (* window.rustyleafGeoJSONData *)
  this : layer Obj;
  log : list event
}.
Arguments mkWorld {E Obj}.
Arguments wasm {E Obj}.
Arguments _geojsonLayerCount {E Obj}.
Arguments rustyleafGeoJSONData {E Obj}.
Arguments this {E Obj}.
Arguments log {E Obj}.

Section Methods.

Context {E Obj D : Type} `{Engine E} `{Json Obj} `{TextDecoder D}.

Local Abbreviation world := (world E Obj).
Local Abbreviation layer := (layer Obj).

(** ** Computations: state passing with exceptions *)

Definition M (A : Type) := world -> outcome A * world.

Definition ret {A} (a : A) : M A := fun w => (Normal a, w).

Definition bind {A B} (m : M A) (k : A -> M B) : M B :=
  fun w => match m w with
           | (Normal a, w') => k a w'
           | (Thrown e, w') => (Thrown e, w')
           end.

Definition throw {A} (e : Err) : M A := fun w => (Thrown e, w).

(** [try { m } catch (error) { handler error }] *)
Definition try_catch {A} (m : M A) (handler : Err -> M A) : M A :=
  fun w => match m w with
           | (Normal a, w') => (Normal a, w')
           | (Thrown e, w') => handler e w'
           end.

(** [try { m } finally { fin }], for a [fin] that completes normally
    the outcome of [m] stands. *)
Definition try_finally {A} (m : M A) (fin : M unit) : M A :=
  fun w => match m w with
           | (r, w') =>
               match fin w' with
               | (Normal _, w'') => (r, w'')
               | (Thrown e, w'') => (Thrown e, w'')
               end
           end.

Definition get : M world := fun w => (Normal w, w).

Definition emit (e : event) : M unit :=
  fun w => (Normal tt,
            mkWorld (wasm w) (_geojsonLayerCount w) (rustyleafGeoJSONData w)
                    (this w) (log w ++ [e])).

Definition set_this (l : layer) : M unit :=
  fun w => (Normal tt,
            mkWorld (wasm w) (_geojsonLayerCount w) (rustyleafGeoJSONData w)
                    l (log w)).

Definition set_layerCount (n : option Z) : M unit :=
  fun w => (Normal tt,
            mkWorld (wasm w) n (rustyleafGeoJSONData w) (this w) (log w)).

Definition set_slot (d : option jsstring) : M unit :=
  fun w => (Normal tt,
            mkWorld (wasm w) (_geojsonLayerCount w) d (this w) (log w)).

(** A call of a method of [map.wasmMap]: the call is observed, the engine
    moves on, and the call returns or throws. *)
Definition wasm_call {A} (e : event) (f : E -> outcome A * E) : M A :=
  fun w => match f (wasm w) with
           | (r, en) =>
               (r, mkWorld en (_geojsonLayerCount w) (rustyleafGeoJSONData w)
                           (this w) (log w ++ [e]))
           end.

Notation "x <- m ;; k" := (bind m (fun x => k))
  (at level 61, m at next level, right associativity).
Notation "m ;; k" := (bind m (fun _ => k))
  (at level 61, right associativity).

Definition when (b : bool) (m : M unit) : M unit :=
  if b then m else ret tt.

(** ** Field updates of [this] *)

Definition with_data (l : layer) (g : option (value Obj)) : layer :=
  mkLayer g (options l) (map l) (layerIndex l) true
          (_pendingGeoJSONText l) (_pendingTimer l).

Definition with_pending (l : layer) (p : option jsstring) : layer :=
  mkLayer (geojson l) (options l) (map l) (layerIndex l) (dataLoaded l)
          p (_pendingTimer l).

Definition with_timer (l : layer) (t : bool) : layer :=
  mkLayer (geojson l) (options l) (map l) (layerIndex l) (dataLoaded l)
          (_pendingGeoJSONText l) t.

Definition with_map (l : layer) (m : option MapRef) : layer :=
  mkLayer (geojson l) (options l) m (layerIndex l) (dataLoaded l)
          (_pendingGeoJSONText l) (_pendingTimer l).

Definition with_layerIndex (l : layer) (i : option Z) : layer :=
  mkLayer (geojson l) (options l) (map l) i (dataLoaded l)
          (_pendingGeoJSONText l) (_pendingTimer l).

Definition update_this (f : layer -> layer) : M unit :=
  w <- get ;; set_this (f (this w)).

(** [this.map && this.layerIndex !== undefined], with the index. *)
Definition handle (l : layer) : option Z :=
  match map l with
  | Some _ => layerIndex l
  | None => None
  end.

(** Truthiness of a value ([null] is [None]). *)
Definition truthy_value (g : option (value Obj)) : bool :=
  match g with
  | None => false
  | Some (VString s) => truthy s
  | Some (VObject o) => truthy_obj o
  end.

Definition truthy_text (t : option jsstring) : bool :=
  match t with
  | None => false
  | Some s => truthy s
  end.

(** ** [updateStyle], [processChunk], [getFeatureCount] *)

Definition updateStyle : M unit :=
  w <- get ;;
  match handle (this w) with
  | Some idx =>
      let styleData := options (this w) in
      wasm_call (Call_set_geojson_style idx styleData)
                (set_geojson_style idx styleData)
  | None => ret tt
  end.

Definition processChunk (chunk : jsstring) (isFinal : bool) : M unit :=
  w <- get ;;
  match handle (this w) with
  | Some idx =>
      try_catch
        (wasm_call (Call_load_geojson_chunk idx chunk isFinal)
                   (load_geojson_chunk idx chunk isFinal))
        (fun error => emit (Console_warn error))
  | None => ret tt
  end.

Definition getFeatureCount : M Z :=
  w <- get ;;
  match handle (this w) with
  | Some idx =>
      try_catch
        (fun w => match get_geojson_feature_count idx (wasm w) with
                  | (r, en) =>
                      (r, mkWorld en (_geojsonLayerCount w)
                                  (rustyleafGeoJSONData w) (this w) (log w))
                  end)
        (fun _ => ret 0)
  | None => ret 0
  end.

(** ** [processStreamingBuffer]

    The [while (true)] loop, with a bound on the number of iterations;
    [None] is a loop that has not left within the bound. *)
Fixpoint dispatch_loop (fuel : nat) (buffer : jsstring) (processed : Z)
  (w : world) : option (outcome (Z * jsstring) * world) :=
  match fuel with
  | O => None
  | S fuel' =>
      let endIndex := findCompleteJsonEnd buffer in
      if endIndex =? -1 then Some (Normal (processed, buffer), w)
      else
        let jsonStr := substring buffer 0 (endIndex + 1) in
        match processChunk jsonStr false w with
        | (Normal _, w') =>
            dispatch_loop fuel' (substring_from buffer (endIndex + 1))
                          (processed + 1) w'
        | (Thrown e, w') => Some (Thrown e, w')
        end
  end.

(** Every iteration removes at least one character, so one more
    iteration than the buffer has characters is always enough
    ([Ingestion.dispatch_loop_terminates]).  The result is
    [{ processed, remaining }]. *)
Definition processStreamingBuffer (buffer : jsstring) (isFinal : bool)
  : M (Z * jsstring) :=
  fun w =>
    match dispatch_loop (S (List.length buffer)) buffer 0 w with
    | Some r => r
    | None => (Normal (0, buffer), w)
    end.


(** ** [loadData]: deferred attachment *)

(** [jsonObject] and [jsonText] of [loadData]. *)
Definition normalize (g : value Obj) : option (value Obj) * option jsstring :=
  match g with
  | VString s => (JSON_parse s, Some s)
  | VObject o => (Some (VObject o), JSON_stringify o)
  end.

Definition loadData (g : value Obj) : M unit :=
  w <- get ;;
  if dataLoaded (this w) then ret tt
  else
    let (jsonObject, jsonText) := normalize g in
    set_this (with_data (this w) jsonObject) ;;
    match jsonText with
    | Some text =>
        if truthy text then
          w <- get ;;
          match handle (this w) with
          | Some idx =>
              wasm_call (Call_load_geojson idx text) (load_geojson idx text) ;;
              updateStyle ;;
              update_this (fun l => with_pending l None)
          | None =>
              update_this (fun l => with_pending l (Some text)) ;;
              w <- get ;;
              when (negb (_pendingTimer (this w)))
                   (update_this (fun l => with_timer l true))
          end
        else ret tt
    | None => ret tt
    end.

(** The callback of the interval armed by [loadData]. *)
Definition pendingTimer_callback : M unit :=
  w <- get ;;
  match handle (this w), _pendingGeoJSONText (this w) with
  | Some idx, Some text =>
      if truthy text then
        try_finally
          (wasm_call (Call_load_geojson idx text) (load_geojson idx text) ;;
           updateStyle)
          (update_this (fun l => with_timer (with_pending l None) false))
      else ret tt
  | _, _ => ret tt
  end.

(** ** [addTo] *)

Definition addTo : M unit :=
  update_this (fun l => with_map l (Some theMap)) ;;
  wasm_call Call_add_geojson_layer add_geojson_layer ;;
  w <- get ;;
  when (match _geojsonLayerCount w with None => true | Some _ => false end)
       (set_layerCount (Some 0)) ;;
  w <- get ;;
  let count := match _geojsonLayerCount w with Some n => n | None => 0 end in
  update_this (fun l => with_layerIndex l (Some count)) ;;
  set_layerCount (Some (count + 1)) ;;
  w <- get ;;
  match _pendingGeoJSONText (this w) with
  | Some ((_ :: _) as text) =>
      try_finally
        (wasm_call (Call_load_geojson count text) (load_geojson count text) ;;
         updateStyle)
        (update_this (fun l => with_pending l None) ;;
         w <- get ;;
         when (_pendingTimer (this w))
              (update_this (fun l => with_timer l false)))
  | _ =>
      if truthy_value (geojson (this w)) then
        match geojson (this w) with
        | Some (VString s) =>
            wasm_call (Call_load_geojson count s) (load_geojson count s) ;;
            updateStyle
        | Some (VObject o) =>
            match JSON_stringify o with
            | Some s =>
                wasm_call (Call_load_geojson count s) (load_geojson count s) ;;
                updateStyle
            | None => throw TypeError
            end
        | None => ret tt
        end
      else ret tt
  end.

(** ** [loadUrlStreaming]: the streaming read loop *)

Record streaming_options := mkStreamingOptions {
  chunkSize : Z;
  progressCallback : bool;     (* a callback was given *)
  completeCallback : bool;
  errorCallback : bool
}.

(** What [fetch(url)] settles with.  [totalSize] is the parsed
    Content-Length ([None]: no header); the body is the sequence of
    values [reader.read()] yields, ended by [done] ([body_error = None])
    or by a rejected read. *)
Record response := mkResponse {
  ok : bool;
  status : Z;
  totalSize : option Z;
  body : list (list N);
  body_error : option Err
}.

Inductive fetched :=
| Fetch_rejected (e : Err)
| Fetch_response (r : response).

(** The variables the reads share. *)
Record reading := mkReading {
  decoder : D;
  buffer : jsstring;
  totalBytes : Z;
  loadedBytes : Z
}.

(** Both [.catch] handlers of [loadUrlStreaming]. *)
Definition streaming_catch (opts : streaming_options) (error : Err) : M unit :=
  when (errorCallback opts) (emit (ErrorCallback error None)) ;;
  emit (Reject error).

(** The continuation of a read that yields [done]. *)
Definition read_done (opts : streaming_options) (r : reading) : M unit :=
  when (truthy (trim (buffer r))) (processChunk (buffer r) true) ;;
  when (completeCallback opts)
       (n <- getFeatureCount ;;
        emit (CompleteCallback n (totalBytes r) (Some (loadedBytes r)))) ;;
  emit Resolve.

(** The continuation of a read that yields [value], up to the next
    [readChunk()]. *)
Definition read_value (opts : streaming_options) (totalSize : option Z)
  (value : list N) (r : reading) : M reading :=
  let (chunk, decoder') := decode (decoder r) value in
  let buffer := buffer r ++ chunk in
  let loadedBytes := loadedBytes r + Z.of_nat (List.length value) in
  let totalBytes := totalBytes r + Z.of_nat (List.length value) in
  processStreamingBuffer buffer false ;;
  match totalSize with
  | Some total =>
      when (progressCallback opts && negb (total =? 0))
           (n <- getFeatureCount ;;
            emit (ProgressCallback loadedBytes total
                                   (round_percentage loadedBytes total) n))
  | None => ret tt
  end ;;
  let buffer :=
    if length buffer >? chunkSize opts * 2
    then slice buffer (- chunkSize opts)
    else buffer in
  ret (mkReading decoder' buffer totalBytes loadedBytes).

Fixpoint readChunk (opts : streaming_options) (totalSize : option Z)
  (values : list (list N)) (ending : option Err) (r : reading) : M unit :=
  match values with
  | value :: rest =>
      fun w =>
        match read_value opts totalSize value r w with
        | (Normal r', w') => readChunk opts totalSize rest ending r' w'
        | (Thrown error, w') => streaming_catch opts error w'
        end
  | [] =>
      match ending with
      | None => try_catch (read_done opts r) (streaming_catch opts)
      | Some error => streaming_catch opts error
      end
  end.

Definition loadUrlStreaming (opts : streaming_options) (f : fetched) : M unit :=
  match f with
  | Fetch_rejected error => streaming_catch opts error
  | Fetch_response resp =>
      if ok resp then
        readChunk opts (totalSize resp) (body resp) (body_error resp)
                  (mkReading new_decoder [] 0 0)
      else streaming_catch opts (HttpError (status resp))
  end.


(** ** [loadFromUrl]: the dual-path loader *)

Record loading_options := mkLoadingOptions {
  on_complete : bool;      (* completeCallback was given *)
  on_error : bool          (* errorCallback was given *)
}.

Definition TIMEOUT_MS : Z := 30000.

(** The variables shared by [checkForData] and the fetch handlers, and
    what is still scheduled. *)
Record loader := mkLoader {
  startTime : Z;
  done : bool;                      (* state.done *)
  checkForData_scheduled : bool;    (* a setTimeout(checkForData, 100) is pending *)
  fetch_pending : bool              (* the fetch fallback has not settled *)
}.

Definition settled (ld : loader) : loader :=
  mkLoader (startTime ld) true (checkForData_scheduled ld) (fetch_pending ld).

Definition unscheduled (ld : loader) : loader :=
  mkLoader (startTime ld) (done ld) false (fetch_pending ld).

Definition fetched_off (ld : loader) : loader :=
  mkLoader (startTime ld) (done ld) (checkForData_scheduled ld) false.

(** The synchronous part of [loadFromUrl], at time [now]; [None] when it
    ended in the outer [catch]. *)
Definition loadFromUrl (opts : loading_options) (u : url) (now : Z)
  : M (option loader) :=
  try_catch
    (w <- get ;;
     match map (this w) with
     | None => throw TypeError
     | Some _ =>
         wasm_call (Call_load_geojson_from_url (layerIndex (this w)) u)
                   (load_geojson_from_url (layerIndex (this w)) u) ;;
         ret (Some (mkLoader now false true true))
     end)
    (fun error =>
       when (on_error opts)
            (emit (ErrorCallback error (Some Failed_to_load_from_url))) ;;
       emit (Reject error) ;;
       ret None).

(** One run of [checkForData] at time [now].  [state.done = true] is the
    first statement that can be followed by a throw, so the [catch]
    handler sees the flag set. *)
Definition checkForData (opts : loading_options) (now : Z) (ld : loader)
  : M loader :=
  if now - startTime ld >? TIMEOUT_MS then
    set_slot None ;;
    when (negb (done ld)) (emit (Reject TimeoutError)) ;;
    ret (unscheduled ld)
  else
    w <- get ;;
    match rustyleafGeoJSONData w with
    | Some ((_ :: _) as data) =>
        if done ld then ret (unscheduled ld)
        else
          let ld' := unscheduled (settled ld) in
          try_catch
            (let dataLength := length data in
             loadData (VString data) ;;
             set_slot None ;;
             when (on_complete opts)
                  (n <- getFeatureCount ;;
                   emit (CompleteCallback n dataLength None)) ;;
             emit Resolve ;;
             ret ld')
            (fun error =>
               when (on_error opts)
                    (emit (ErrorCallback error
                                         (Some Failed_to_process_loaded_data))) ;;
               emit (Reject error) ;;
               ret ld')
    | _ => ret ld      (* setTimeout(checkForData, 100) *)
    end.

(** The [.catch] of the fetch fallback. *)
Definition fetch_catch (opts : loading_options) (err : Err) : M unit :=
  when (on_error opts) (emit (ErrorCallback err (Some Fetch_fallback_failed))).

(** The second [.then] of the fetch fallback, with its [.catch]. *)
Definition fetch_then (opts : loading_options) (text : jsstring) (ld : loader)
  : M loader :=
  if done ld then ret ld
  else
    let ld' := settled ld in
    try_catch
      (loadData (VString text) ;;
       when (on_complete opts)
            (n <- getFeatureCount ;;
             emit (CompleteCallback n (length text) None)) ;;
       emit Resolve ;;
       ret ld')
      (fun err => fetch_catch opts err ;; ret ld').

(** What the fetch fallback settles with. *)
Inductive fetch_result :=
| Fetch_failed (e : Err)                            (* fetch rejects *)
| Fetch_status (ok : bool) (status : Z) (text : jsstring).

(** One turn of the scheduler while a [loadFromUrl] is in flight. *)
Inductive turn :=
| Timer (now : Z)                   (* a scheduled checkForData runs at [now] *)
| Engine_delivers (data : jsstring) (* the engine assigns window.rustyleafGeoJSONData *)
| Fetch_settles (f : fetch_result). (* the handlers of the fetch fallback run *)

Definition run_turn (opts : loading_options) (t : turn) (ld : loader)
  : M loader :=
  match t with
  | Timer now =>
      if checkForData_scheduled ld then checkForData opts now ld else ret ld
  | Engine_delivers data => set_slot (Some data) ;; ret ld
  | Fetch_settles f =>
      if fetch_pending ld then
        match f with
        | Fetch_failed e => fetch_catch opts e ;; ret (fetched_off ld)
        | Fetch_status false status _ =>
            fetch_catch opts (HttpError status) ;; ret (fetched_off ld)
        | Fetch_status true _ text =>
            ld' <- fetch_then opts text ld ;; ret (fetched_off ld')
        end
      else ret ld
  end.

(** A sequence of turns.  No handler lets an exception escape; were one
    to, the remaining turns would still run. *)
Fixpoint run_turns (opts : loading_options) (ts : list turn) (ld : loader)
  (w : world) : loader * world :=
  match ts with
  | [] => (ld, w)
  | t :: rest =>
      match run_turn opts t ld w with
      | (Normal ld', w') => run_turns opts rest ld' w'
      | (Thrown _, w') => run_turns opts rest ld w'
      end
  end.

(** ** Reading the log *)

Definition is_complete (e : event) : bool :=
  match e with CompleteCallback _ _ _ => true | _ => false end.

Definition is_error_report (e : event) : bool :=
  match e with ErrorCallback _ _ => true | _ => false end.

Definition is_settlement (e : event) : bool :=
  match e with Resolve | Reject _ => true | _ => false end.

(** The records handed to the engine by [load_geojson_chunk]. *)
Fixpoint dispatched (l : list event) : list (jsstring * bool) :=
  match l with
  | [] => []
  | Call_load_geojson_chunk _ chunk isFinal :: rest =>
      (chunk, isFinal) :: dispatched rest
  | _ :: rest => dispatched rest
  end.

(** The texts handed to the engine by [load_geojson]. *)
Fixpoint forwarded (l : list event) : list jsstring :=
  match l with
  | [] => []
  | Call_load_geojson _ text :: rest => text :: forwarded rest
  | _ :: rest => forwarded rest
  end.

End Methods.

End Layer.

Import Layer.

(* ================================================================== *)
(** * A concrete host, for running the model *)
(* ================================================================== *)

Module Sample.

(** An engine that counts the texts it has accepted.  It rejects a text
    or chunk that contains an exclamation mark. *)
Definition exclamation : N := 33.

Definition acceptable (text : jsstring) : bool :=
  negb (existsb (N.eqb exclamation) text).

Definition ingest (text : jsstring) (count : Z) : outcome unit * Z :=
  if acceptable text then (Normal tt, count + 1)
  else (Thrown (EngineError 1), count).

#[export] Instance counting_engine : Engine Z := {|
  add_geojson_layer := fun count => (Normal tt, count);
  load_geojson := fun _ text count => ingest text count;
  load_geojson_chunk := fun _ chunk _ count => ingest chunk count;
  get_geojson_feature_count := fun _ count => (Normal count, count);
  set_geojson_style := fun _ _ count => (Normal tt, count);
  load_geojson_from_url := fun _ _ count => (Normal tt, count)
|}.

(** Objects are identified with their JSON text; a text parses when it
    starts with an opening brace. *)
#[export] Instance text_json : Json jsstring := {|
  JSON_parse := fun s =>
    match s with
    | c :: _ => if (c =? lbrace)%N then Some (VObject s) else None
    | [] => None
    end;
  JSON_stringify := fun o => Some o;
  truthy_obj := fun _ => true
|}.

(** Seven-bit input: every byte is its own code unit, nothing is held
    back.  Percentages are rounded half up. *)
#[export] Instance ascii_decoder : TextDecoder unit := {|
  new_decoder := tt;
  decode := fun _ value => (value, tt);
  round_percentage := fun loaded total => (200 * loaded + total) / (2 * total)
|}.

Definition default_style : style :=
  mkStyle (lit "#0080ff") 5 (lit "#ff0000") 2 (lit "#00ff0080").

(** [new GeoJSONLayer()] *)
Definition new_layer : layer jsstring :=
  mkLayer None default_style None None false None false.

(** A layer that was added to the map as its first GeoJSON layer. *)
Definition attached_layer : layer jsstring :=
  mkLayer None default_style (Some theMap) (Some 0) false None false.

Definition world_of (l : layer jsstring) : world Z jsstring :=
  mkWorld 0 None None l [].

Definition all_callbacks (chunkSize : Z) : @streaming_options :=
  mkStreamingOptions chunkSize true true true.

(** A response whose body arrives in the given fragments. *)
Definition stream_of (fragments : list jsstring) : @fetched :=
  Fetch_response (mkResponse true 200 None fragments None).

Definition MiB : Z := 1024 * 1024.

Definition both_callbacks : loading_options := mkLoadingOptions true true.

Definition data_url : url := lit "data.geojson".

(** The operation right after [loadFromUrl] returned, at time 0. *)
Definition started : loader := mkLoader 0 false true true.

Definition started_world : world Z jsstring :=
  mkWorld 0 None None attached_layer
          [Call_load_geojson_from_url (Some 0) data_url].

(** Runs of a started operation. *)
Definition fetch_wins_then_delivery : loader * world Z jsstring :=
  run_turns both_callbacks
    [Fetch_settles (Fetch_status true 200 (lit "{'a':1}"));
     Engine_delivers (lit "{'b':2}");
     Timer 100]
    started started_world.

Definition delivery_then_fetch_wins : loader * world Z jsstring :=
  run_turns both_callbacks
    [Engine_delivers (lit "{'b':2}");
     Fetch_settles (Fetch_status true 200 (lit "{'a':1}"));
     Timer 100]
    started started_world.

Definition delivery_rejected : loader * world Z jsstring :=
  run_turns both_callbacks
    [Engine_delivers (lit "{!}"); Timer 100]
    started started_world.

Definition timeout_then_fetch : loader * world Z jsstring :=
  run_turns both_callbacks
    [Timer 30001; Fetch_settles (Fetch_status true 200 (lit "{'a':1}"))]
    started started_world.

Definition fetch_rejected_then_timeout : loader * world Z jsstring :=
  run_turns both_callbacks
    [Fetch_settles (Fetch_status true 200 (lit "{!}")); Timer 30001]
    started started_world.

End Sample.

(* ================================================================== *)
(** * Vocabulary for the statements *)
(* ================================================================== *)

Module Reading.

(** The way [processStreamingBuffer] cuts a buffer: the records it hands
    over, in order, and what remains. *)
Inductive cuts : jsstring -> list jsstring -> jsstring -> Prop :=
| cuts_none buffer :
    findCompleteJsonEnd buffer = -1 ->
    cuts buffer [] buffer
| cuts_record buffer records remaining :
    findCompleteJsonEnd buffer <> -1 ->
    cuts (substring_from buffer (findCompleteJsonEnd buffer + 1))
         records remaining ->
    cuts buffer
         (substring buffer 0 (findCompleteJsonEnd buffer + 1) :: records)
         remaining.

(** A complete object: the scanner finds its boundary, and the boundary is
    its last character. *)
Definition complete_object (o : jsstring) : Prop :=
  0 <= findCompleteJsonEnd o /\ findCompleteJsonEnd o = length o - 1.

Definition whitespace (s : jsstring) : Prop :=
  forallb is_whitespace s = true.

(** A document: objects, each after some separating text, and the text
    after the last object. *)
Fixpoint document (parts : list (jsstring * jsstring)) (trailing : jsstring)
  : jsstring :=
  match parts with
  | [] => trailing
  | (separator, object) :: rest => separator ++ object ++ document rest trailing
  end.

(** Passes of [processStreamingBuffer] over a text that arrives in
    fragments, each pass scanning the remainder the previous pass returned
    followed by the next fragment. *)
Inductive resumed : jsstring -> list jsstring -> list jsstring -> jsstring -> Prop :=
| resumed_end remaining :
    resumed remaining [] [] remaining
| resumed_pass remaining fragment fragments records remaining' records' remaining'' :
    cuts (remaining ++ fragment) records remaining' ->
    resumed remaining' fragments records' remaining'' ->
    resumed remaining (fragment :: fragments) (records ++ records') remaining''.

(** The call of [load_geojson_chunk] that [processChunk] makes for a layer
    with handle [h]: none without a handle. *)
Definition chunk_calls (h : option Z) (chunks : list (jsstring * bool))
  : list (jsstring * bool) :=
  match h with Some _ => chunks | None => [] end.

(** Events by which an operation fails: an error report or a rejection. *)
Definition is_failure (e : event) : bool :=
  match e with ErrorCallback _ _ | Reject _ => true | _ => false end.

Definition is_warning (e : event) : bool :=
  match e with Console_warn _ => true | _ => false end.

(** Calls of methods of [map.wasmMap]. *)
Definition is_engine_call (e : event) : bool :=
  match e with
  | Call_add_geojson_layer | Call_load_geojson _ _
  | Call_load_geojson_chunk _ _ _ | Call_set_geojson_style _ _
  | Call_load_geojson_from_url _ _ => true
  | _ => false
  end.

(** What [processChunk] can add to the log. *)
Definition is_chunk_event (e : event) : bool :=
  match e with
  | Call_load_geojson_chunk _ _ _ | Console_warn _ => true
  | _ => false
  end.

(** The log entries of one [processChunk] on a layer with handle [h],
    given how the engine's [load_geojson_chunk] ends. *)
Definition chunk_events (h : option Z) (chunk : jsstring) (isFinal : bool)
  (r : Z -> outcome unit) : list event :=
  match h with
  | Some idx =>
      Call_load_geojson_chunk idx chunk isFinal ::
      match r idx with
      | Thrown error => [Console_warn error]
      | Normal _ => []
      end
  | None => []
  end.

Section Effects.

Context {E Obj : Type} `{Engine E}.

(** [w'] differs from [w] in the engine state at most, and in the log,
    which has grown by [ev]. *)
Definition extends (w w' : world E Obj) (ev : list event) : Prop :=
  this w' = this w /\
  rustyleafGeoJSONData w' = rustyleafGeoJSONData w /\
  _geojsonLayerCount w' = _geojsonLayerCount w /\
  log w' = log w ++ ev.

(** A computation only adds to the log, and only events that satisfy
    [P]. *)
Definition grows {A} (P : event -> bool) (m : world E Obj -> outcome A * world E Obj)
  : Prop :=
  forall w, exists ev, log (snd (m w)) = log w ++ ev /\ forallb P ev = true.

(** The log entries of the final flush of [buffer] in world [w]: none
    for a buffer of white space. *)
Definition flush_events (buffer : jsstring) (w : world E Obj) : list event :=
  if truthy (trim buffer) then
    chunk_events (handle (this w)) buffer true
      (fun idx => fst (load_geojson_chunk idx buffer true (wasm w)))
  else [].

End Effects.

Section Readings.

Context {D : Type} `{TextDecoder D}.

(** The buffer after the trim at the end of a read. *)
Definition trimmed (opts : streaming_options) (buffer : jsstring) : jsstring :=
  if length buffer >? chunkSize opts * 2
  then slice buffer (- chunkSize opts)
  else buffer.

(** The buffer a read scans: the old buffer and the decoded value. *)
Definition scanned (value : list N) (r : reading) : jsstring :=
  buffer r ++ fst (decode (decoder r) value).

(** The shared variables after a read that yields [value]. *)
Definition next_reading (opts : streaming_options) (value : list N)
  (r : reading) : reading :=
  mkReading (snd (decode (decoder r) value))
            (trimmed opts (scanned value r))
            (totalBytes r + Z.of_nat (List.length value))
            (loadedBytes r + Z.of_nat (List.length value)).

(** The shared variables after all of [values] were read. *)
Definition final_reading (opts : streaming_options) (values : list (list N))
  (r : reading) : reading :=
  fold_left (fun r value => next_reading opts value r) values r.

(** What a healthy stream hands over: at every read the records cut from
    the scanned buffer, and at the end the buffer itself as the final
    record, unless it is white space. *)
Inductive hands_over (opts : streaming_options)
  : list (list N) -> reading -> list (jsstring * bool) -> Prop :=
| hands_over_end r :
    hands_over opts [] r
      (if has_non_whitespace (buffer r) then [(buffer r, true)] else [])
| hands_over_read value rest r records remaining calls :
    cuts (scanned value r) records remaining ->
    hands_over opts rest (next_reading opts value r) calls ->
    hands_over opts (value :: rest) r
      (List.map (fun record => (record, false)) records ++ calls).

End Readings.

(** In a turn sequence of [loadFromUrl] started at [now0], neither path
    settles: the fetch fallback does not deliver a text, and every run of
    [checkForData] is within the deadline and finds the slot empty.
    [slot_full] tells whether the slot holds a non-empty payload. *)
Fixpoint unsettled (now0 : Z) (slot_full : bool) (ts : list turn) : bool :=
  match ts with
  | [] => true
  | Timer now :: rest =>
      (now - now0 <=? TIMEOUT_MS) && negb slot_full
      && unsettled now0 slot_full rest
  | Engine_delivers data :: rest => unsettled now0 (truthy data) rest
  | Fetch_settles (Fetch_status true _ _) :: _ => false
  | Fetch_settles _ :: rest => unsettled now0 slot_full rest
  end.

(** Turns of the loader itself, as opposed to the engine's delivery. *)
Definition is_loader_turn (t : turn) : bool :=
  match t with Engine_delivers _ => false | _ => true end.

End Reading.

Import Reading.

(* ================================================================== *)
(** * The other methods of [GeoJSONLayer] *)
(* ================================================================== *)

Module LayerRest.

(** [map.wasmMap.clear_geojson_layer], used by [clear] alone. *)
Class ClearingEngine (E : Type) := {
  clear_geojson_layer : Z -> E -> outcome unit * E
}.

(** [FileReader.readAsText] on a slice of the file: the text, or [None]
    when the read fails and [onerror] fires. *)
Class FileReader := {
  readAsText : list N -> option jsstring
}.

(** The keys of a style object handed to [setStyle], each present or not. *)
Record style_patch := mkPatch {
  patch_pointColor : option jsstring;
  patch_pointSize : option Z;
  patch_lineColor : option jsstring;
  patch_lineWidth : option Z;
  patch_polygonColor : option jsstring
}.

Definition or_keep {A} (given : option A) (old : A) : A :=
  match given with Some a => a | None => old end.

(** [Object.assign(options, patch)] on the five keys [updateStyle] reads. *)
Definition assign (o : style) (p : style_patch) : style :=
  mkStyle (or_keep (patch_pointColor p) (pointColor o))
          (or_keep (patch_pointSize p) (pointSize o))
          (or_keep (patch_lineColor p) (lineColor o))
          (or_keep (patch_lineWidth p) (lineWidth o))
          (or_keep (patch_polygonColor p) (polygonColor o)).

(** [file.slice(start, end)]: both ends are clamped into the file, a
    negative one counting from its end. *)
Definition blob_slice (file : list N) (start finish : Z) : list N :=
  let size := Z.of_nat (List.length file) in
  let relative x := if x <? 0 then Z.max (size + x) 0 else Z.min x size in
  let span := Z.max (relative finish - relative start) 0 in
  firstn (Z.to_nat span) (skipn (Z.to_nat (relative start)) file).

(** What [fetch(url)] followed by [response.json()] settles with, for
    [loadUrl]. *)
Inductive json_fetched (Obj : Type) :=
| Json_rejected (e : Err)                       (* fetch rejects *)
| Json_response (ok : bool) (status : Z) (data : outcome (value Obj)).
Arguments Json_rejected {Obj} e.
Arguments Json_response {Obj} ok status data.

(** [new Error('Failed to read file')], the error of [loadFile]. *)
Definition Failed_to_read_file : Err := SourceError 0.

Section Methods.

Context {E Obj D : Type} `{Engine E} `{Json Obj} `{TextDecoder D}
        `{ClearingEngine E} `{FileReader}.

Local Abbreviation world := (world E Obj).
Local Abbreviation layer := (layer Obj).
Local Abbreviation M := (@M E Obj).

Notation "x <- m ;; k" := (bind m (fun x => k))
  (at level 61, m at next level, right associativity).
Notation "m ;; k" := (bind m (fun _ => k))
  (at level 61, right associativity).

Definition with_options (l : layer) (o : style) : layer :=
  mkLayer (geojson l) o (map l) (layerIndex l) (dataLoaded l)
          (_pendingGeoJSONText l) (_pendingTimer l).

Definition with_geojson (l : layer) (g : option (value Obj)) : layer :=
  mkLayer g (options l) (map l) (layerIndex l) (dataLoaded l)
          (_pendingGeoJSONText l) (_pendingTimer l).

(** A call of the engine that the log does not record. *)
Definition silent_call {A} (f : E -> outcome A * E) : M A :=
  fun w => match f (wasm w) with
           | (r, en) =>
               (r, mkWorld en (_geojsonLayerCount w) (rustyleafGeoJSONData w)
                           (this w) (log w))
           end.

(** ** [setStyle] *)

Definition setStyle (p : style_patch) : M unit :=
  update_this (fun l => with_options l (assign (options l) p)) ;;
  w <- get ;;
  match map (this w) with
  | Some _ => updateStyle
  | None => ret tt
  end.

(** ** [remove] *)

Definition remove : M unit :=
  w <- get ;;
  match map (this w) with
  | Some _ => update_this (fun l => with_map l None)
  | None => ret tt
  end.

(** ** [clear]

    The call of [clear_geojson_layer] is not entered in the log; a failure
    of it is, as the warning it causes. *)
Definition clear : M unit :=
  update_this (fun l => with_geojson l None) ;;
  w <- get ;;
  match handle (this w) with
  | Some idx =>
      try_catch (silent_call (clear_geojson_layer idx))
                (fun error => emit (Console_warn error))
  | None => ret tt
  end.

(** ** [addFeature], [addFeatures] *)

Definition addFeature (feature : value Obj) : M unit :=
  w <- get ;;
  match handle (this w) with
  | None => ret tt
  | Some _ =>
      try_catch
        (featureStr <- match feature with
                       | VString s => ret s
                       | VObject o =>
                           match JSON_stringify o with
                           | Some s => ret s
                           | None => throw TypeError
                           end
                       end ;;
         processChunk featureStr false)
        (fun error => emit (Console_warn error))
  end.

(** [features.forEach(feature => this.addFeature(feature))] *)
Fixpoint addFeatures (features : list (value Obj)) : M unit :=
  match features with
  | [] => ret tt
  | feature :: rest => addFeature feature ;; addFeatures rest
  end.

(** ** [loadUrl] *)

Definition loadUrl (f : json_fetched Obj) : M unit :=
  match f with
  | Json_rejected e => emit (Reject e)
  | Json_response false status _ => emit (Reject (HttpError status))
  | Json_response true _ (Thrown e) => emit (Reject e)
  | Json_response true _ (Normal data) =>
      try_catch (loadData data ;; emit Resolve)
                (fun error => emit (Reject error))
  end.

(** ** [loadFile] *)

(** [reader.onerror] *)
Definition file_error (opts : streaming_options) : M unit :=
  let error := Failed_to_read_file in
  when (errorCallback opts) (emit (ErrorCallback error None)) ;;
  emit (Reject error).

(** [reader.onload] for the text [chunk], up to the decision to read on;
    the result is the new [offset]. *)
Definition file_onload (opts : streaming_options) (size : Z) (chunk : jsstring)
  (offset : Z) : M Z :=
  let offset := offset + length chunk in
  processChunk chunk (size <=? offset) ;;
  when (progressCallback opts)
       (n <- getFeatureCount ;;
        emit (ProgressCallback offset size (round_percentage offset size) n)) ;;
  ret offset.

(** The end of [reader.onload] when the whole file was read. *)
Definition file_done (opts : streaming_options) (size offset : Z) : M unit :=
  when (completeCallback opts)
       (n <- getFeatureCount ;;
        emit (CompleteCallback n size (Some offset))) ;;
  emit Resolve.

(** The reads of [loadFile], from [offset] on.  Every read starts the next
    one from its own [onload]; [fuel] bounds their number, and [None] is
    a sequence of reads that has not ended within the bound. *)
Fixpoint file_reads (fuel : nat) (opts : streaming_options) (file : list N)
  (offset : Z) (w : world) : option (outcome unit * world) :=
  match fuel with
  | O => None
  | S fuel' =>
      let size := Z.of_nat (List.length file) in
      match readAsText (blob_slice file offset (offset + chunkSize opts)) with
      | None => Some (file_error opts w)
      | Some chunk =>
          match file_onload opts size chunk offset w with
          | (Normal offset', w') =>
              if offset' <? size then file_reads fuel' opts file offset' w'
              else Some (file_done opts size offset' w')
          | (Thrown e, w') => Some (Thrown e, w')
          end
      end
  end.

Definition loadFile (fuel : nat) (opts : streaming_options) (file : list N)
  : world -> option (outcome unit * world) :=
  file_reads fuel opts file 0.

End Methods.

End LayerRest.

Import LayerRest.

(* ================================================================== *)
(** * [GeoJSONLayer.getBounds] *)
(* ================================================================== *)

Module Bounds.

(** A JavaScript number other than NaN.  A finite one is the rational it
    denotes; the two zeros are not told apart. *)
Inductive number :=
| NegInfinity
| Finite (q : Q)
| Infinity.

(** [a <= b] *)
Definition number_leb (a b : number) : bool :=
  match a, b with
  | NegInfinity, _ => true
  | _, Infinity => true
  | Finite x, Finite y => Qle_bool x y
  | _, _ => false
  end.

Definition Math_min (a b : number) : number := if number_leb a b then a else b.
Definition Math_max (a b : number) : number := if number_leb a b then b else a.

(** An element of a coordinate array, as the test
    [typeof x === 'number' && !isNaN(x)] sees it. *)
Inductive component :=
| Number (n : number)
| NaN
| NotNumber.            (* undefined, a string, an array, ... *)

(** A coordinate array; [[lng, lat]] destructures its first two elements. *)
Definition position := list component.

(** A geometry object whose coordinates are nested as its type calls for. *)
Inductive geometry :=
| Point (coordinates : position)
| MultiPoint (coordinates : list position)
| LineString (coordinates : list position)
| MultiLineString (coordinates : list (list position))
| Polygon (coordinates : list (list position))
| MultiPolygon (coordinates : list (list (list position)))
| OtherGeometry.        (* any other [type] *)

(** What [this.geojson] is, as far as [getBounds] looks.  A feature is its
    [geometry], [None] when that is null or missing. *)
Inductive geojson_document :=
| FeatureCollection (features : list (option geometry))
| Feature (geometry : option geometry)
| Geometry (g : geometry)      (* an object with [type] and [coordinates] *)
| Unlocated.                   (* any other truthy value *)

(** The view of the host's objects as documents. *)
Class Located (Obj : Type) := {
  document_of : Obj -> geojson_document
}.

(** [array.flat()] on an array of arrays. *)
Definition flat {A} (l : list (list A)) : list A := List.concat l.

Definition extractCoordinates (g : geometry) : list position :=
  match g with
  | Point coordinates => [coordinates]
  | MultiPoint coordinates => coordinates
  | LineString coordinates => coordinates
  | MultiLineString coordinates => flat coordinates
  | Polygon coordinates => flat coordinates
  | MultiPolygon coordinates => flat (flat coordinates)
  | OtherGeometry => []
  end.

(** [minLng], [minLat], [maxLng], [maxLat] *)
Record extent := mkExtent {
  minLng : number;
  minLat : number;
  maxLng : number;
  maxLat : number
}.

Definition nothing_yet : extent :=
  mkExtent Infinity Infinity NegInfinity NegInfinity.

(** The pair [(lng, lat)] of a position that passes the test of
    [processFeature]. *)
Definition valid_pair (p : position) : option (number * number) :=
  match p with
  | Number lng :: Number lat :: _ => Some (lng, lat)
  | _ => None
  end.

(** The body of [coords.forEach(([lng, lat]) => ...)]. *)
Definition visit (x : extent) (p : position) : extent :=
  match valid_pair p with
  | Some (lng, lat) =>
      mkExtent (Math_min (minLng x) lng) (Math_min (minLat x) lat)
               (Math_max (maxLng x) lng) (Math_max (maxLat x) lat)
  | None => x
  end.

(** [processFeature]; reading [geometry.type] of a missing geometry throws. *)
Definition processFeature (x : extent) (feature : option geometry)
  : outcome extent :=
  match feature with
  | Some g => Normal (fold_left visit (extractCoordinates g) x)
  | None => Thrown TypeError
  end.

(** [features.forEach(processFeature)] *)
Fixpoint forEach_feature (x : extent) (features : list (option geometry))
  : outcome extent :=
  match features with
  | [] => Normal x
  | feature :: rest =>
      match processFeature x feature with
      | Normal x' => forEach_feature x' rest
      | Thrown e => Thrown e
      end
  end.

(** [[[minLat, minLng], [maxLat, maxLng]]] *)
Definition corners := ((number * number) * (number * number))%type.

Definition is_Infinity (n : number) : bool :=
  match n with Infinity => true | _ => false end.

(** The result for an extent: [null] when [minLng === Infinity]. *)
Definition answer (x : extent) : option corners :=
  if is_Infinity (minLng x) then None
  else Some ((minLat x, minLng x), (maxLat x, maxLng x)).

(** [getBounds] past the test [if (!this.geojson) return null]. *)
Definition bounds_of (doc : geojson_document) : outcome (option corners) :=
  match doc with
  | FeatureCollection features =>
      match forEach_feature nothing_yet features with
      | Normal x => Normal (answer x)
      | Thrown e => Thrown e
      end
  | Feature (Some g) =>
      match processFeature nothing_yet (Some g) with
      | Normal x => Normal (answer x)
      | Thrown e => Thrown e
      end
  | Feature None => Normal (answer nothing_yet)
  | Geometry g =>
      match processFeature nothing_yet (Some g) with
      | Normal x => Normal (answer x)
      | Thrown e => Thrown e
      end
  | Unlocated => Normal (answer nothing_yet)
  end.

Section OfLayer.

Context {Obj : Type} `{Json Obj} `{Located Obj}.

(** The document in [this.geojson], if that is a truthy object. *)
Definition located (l : layer Obj) : option geojson_document :=
  match geojson l with
  | Some (VObject o) => if truthy_obj o then Some (document_of o) else None
  | _ => None
  end.

Definition getBounds (l : layer Obj) : outcome (option corners) :=
  match geojson l with
  | None => Normal None
  | Some (VString s) =>
      (* a string has no [type]: no branch is taken *)
      if truthy s then Normal (answer nothing_yet) else Normal None
  | Some (VObject o) =>
      if truthy_obj o then bounds_of (document_of o) else Normal None
  end.

End OfLayer.

(** ** Vocabulary *)

(** The positions a document holds, in the order [getBounds] visits them;
    features without geometry hold none. *)
Definition positions_of (doc : geojson_document) : list position :=
  match doc with
  | FeatureCollection features =>
      flat (List.map (fun feature =>
                        match feature with
                        | Some g => extractCoordinates g
                        | None => []
                        end) features)
  | Feature (Some g) => extractCoordinates g
  | Feature None => []
  | Geometry g => extractCoordinates g
  | Unlocated => []
  end.







End Bounds.

(* ================================================================== *)
(** * The concrete host, continued *)
(* ================================================================== *)

Module SampleRest.

(** Clearing resets the count of the counting engine. *)
#[export] Instance clearing_engine : ClearingEngine Z := {|
  clear_geojson_layer := fun _ _ => (Normal tt, 0)
|}.

(** Seven-bit files: every byte is its own code unit, no read fails. *)
#[export] Instance ascii_reader : FileReader := {|
  readAsText := fun bytes => Some bytes
|}.

(** A host whose objects are the documents themselves. *)
#[export] Instance document_json : Json Bounds.geojson_document := {|
  JSON_parse := fun _ => None;
  JSON_stringify := fun _ => None;
  truthy_obj := fun _ => true
|}.

#[export] Instance document_located
  : Bounds.Located Bounds.geojson_document := {|
  Bounds.document_of := fun doc => doc
|}.


End SampleRest.

(* ================================================================== *)
(** * Reading the log, continued *)
(* ================================================================== *)

Module Observed.

(** A character that the scanner passes over outside a string without
    changing a local: anything but a brace, a quote or a backslash. *)
Definition plain (c : N) : bool :=
  negb ((c =? backslash) || (c =? quote) || (c =? lbrace) || (c =? rbrace))%N.

(** The error with which the source of [loadUrlStreaming] fails, if it
    does: a rejected fetch, a response that is not [ok], or a read that
    rejects after the values of the body. *)
Definition failure_of (f : fetched) : option Err :=
  match f with
  | Fetch_rejected e => Some e
  | Fetch_response resp =>
      if ok resp then body_error resp else Some (HttpError (status resp))
  end.

(** The same source with a body that ends well. *)
Definition healthy (resp : response) : response :=
  mkResponse (ok resp) (status resp) (totalSize resp) (body resp) None.

(** [loaded] and [total] of the calls of [progressCallback]. *)
Fixpoint progress_reports (l : list event) : list (Z * Z) :=
  match l with
  | [] => []
  | ProgressCallback loaded total _ _ :: rest =>
      (loaded, total) :: progress_reports rest
  | _ :: rest => progress_reports rest
  end.

(** The number of bytes read after each of [values], from [start] on. *)
Fixpoint running (start : Z) (values : list (list N)) : list Z :=
  match values with
  | [] => []
  | value :: rest =>
      let loaded := start + Z.of_nat (List.length value) in
      loaded :: running loaded rest
  end.

(** The styles handed to the engine by [set_geojson_style]. *)
Fixpoint styles_sent (l : list event) : list (Z * style) :=
  match l with
  | [] => []
  | Call_set_geojson_style idx s :: rest => (idx, s) :: styles_sent rest
  | _ :: rest => styles_sent rest
  end.

(** The texts handed to the engine by [load_geojson], with their index. *)
Fixpoint loads (l : list event) : list (Z * jsstring) :=
  match l with
  | [] => []
  | Call_load_geojson idx text :: rest => (idx, text) :: loads rest
  | _ :: rest => loads rest
  end.

Section Features.

Context {Obj : Type} `{Json Obj}.

(** [featureStr] of [addFeature], [None] when [JSON.stringify] throws. *)
Definition feature_text (feature : value Obj) : option jsstring :=
  match feature with
  | VString s => Some s
  | VObject o => JSON_stringify o
  end.

(** The texts of the features that have one, in order. *)
Fixpoint feature_texts (features : list (value Obj)) : list jsstring :=
  match features with
  | [] => []
  | feature :: rest =>
      match feature_text feature with
      | Some s => s :: feature_texts rest
      | None => feature_texts rest
      end
  end.

(** What [addTo] forwards for a layer: the pending text if it is not
    empty, else the text of [this.geojson] if that is truthy. *)
Definition text_to_forward (l : layer Obj) : option jsstring :=
  match _pendingGeoJSONText l with
  | Some ((_ :: _) as text) => Some text
  | _ =>
      if truthy_value (geojson l) then
        match geojson l with
        | Some g => feature_text g
        | None => None
        end
      else None
  end.

End Features.

(** The slices [loadFile] reads from a file of which [rest] is left, for
    a [chunkSize] of [S n] bytes; [fuel] bounds their number. *)
Fixpoint slices (fuel n : nat) (rest : list N) : list (list N) :=
  match fuel with
  | O => []
  | S fuel' =>
      match skipn (S n) rest with
      | [] => [rest]
      | _ :: _ => firstn (S n) rest :: slices fuel' n (skipn (S n) rest)
      end
  end.

(** All but the last flag are [false], the last is [true]. *)
Fixpoint only_last_final (flags : list bool) : bool :=
  match flags with
  | [] => false
  | [flag] => flag
  | flag :: rest => negb flag && only_last_final rest
  end.

(** Text in which every character is plain. *)
Definition plain_text (s : jsstring) : Prop := forallb plain s = true.

(** The index [addTo] gives the next layer: the map's counter, 0 when it
    is not a number yet. *)
Definition next_index {E Obj} (w : world E Obj) : Z :=
  match _geojsonLayerCount w with Some n => n | None => 0 end.

(** The data [loadUrl] hands to [loadData], if it gets that far. *)
Definition json_payload {Obj} (f : json_fetched Obj) : option (value Obj) :=
  match f with
  | Json_response true _ (Normal data) => Some data
  | _ => None
  end.

(** The error with which [loadUrl] fails before it has data: a rejected
    fetch, a response that is not [ok], a body that is not JSON. *)
Definition json_failure {Obj} (f : json_fetched Obj) : option Err :=
  match f with
  | Json_rejected e => Some e
  | Json_response false status _ => Some (HttpError status)
  | Json_response true _ (Thrown e) => Some e
  | Json_response true _ (Normal _) => None
  end.

(** ** The feature count of the Load Result *)

Section Counting.

Context {E Obj D : Type} `{Engine E} `{Json Obj} `{TextDecoder D}.

(** What the engine in state [en] answers when it is asked for the feature
    count of the layer with handle [h]; 0 without a handle and when the
    engine throws. *)
Definition engine_count (h : option Z) (en : E) : Z :=
  match h with
  | Some idx =>
      match fst (get_geojson_feature_count idx en) with
      | Normal n => n
      | Thrown _ => 0
      end
  | None => 0
  end.

(** The engine after the final flush of [buffer] in world [w]. *)
Definition engine_after_flush (buffer : jsstring) (w : world E Obj) : E :=
  if truthy (trim buffer) then
    match handle (this w) with
    | Some idx => snd (load_geojson_chunk idx buffer true (wasm w))
    | None => wasm w
    end
  else wasm w.

(** The world after the reads of [values], before the read that yields
    [done]. *)
Fixpoint after_reads (opts : streaming_options) (totalSize : option Z)
  (values : list (list N)) (r : @reading D) (w : world E Obj) : world E Obj :=
  match values with
  | [] => w
  | value :: rest =>
      after_reads opts totalSize rest (next_reading opts value r)
                  (snd (read_value opts totalSize value r w))
  end.

End Counting.

Definition is_resolve (e : event) : bool :=
  match e with Resolve => true | _ => false end.

(** Nothing of a delivery: no text forwarded, no resolution, no call of
    the completion callback. *)
Definition quiet (ev : list event) : Prop :=
  forwarded ev = [] /\ filter is_resolve ev = [] /\ filter is_complete ev = [].

(** At most one of each. *)
Definition single (ev : list event) : Prop :=
  (List.length (forwarded ev) <= 1)%nat /\
  (List.length (filter is_resolve ev) <= 1)%nat /\
  (List.length (filter is_complete ev) <= 1)%nat.

(** How the reads of [loadFile] have ended, if they have: resolved after
    a read that reached the end of the file, or rejected after a read that
    failed.  [calls] are the chunks handed over. *)
Definition ended (opts : streaming_options) (ev : list event)
    (calls : list (jsstring * bool)) : Prop :=
  (filter is_settlement ev = [Resolve] /\
   existsb is_failure ev = false /\
   (List.length (filter is_complete ev)
    = if completeCallback opts then 1 else 0)%nat /\
   only_last_final (List.map snd calls) = true)
  \/
  (filter is_settlement ev = [Reject Failed_to_read_file] /\
   filter is_error_report ev
   = (if errorCallback opts
      then [ErrorCallback Failed_to_read_file None] else []) /\
   filter is_complete ev = [] /\
   Forall (fun call => snd call = false) calls).

Section Decoded.

Context {D : Type} `{TextDecoder D}.

(** The text of a body: what the decoder makes of its values, in order. *)
Fixpoint decoded (d : D) (values : list (list N)) : jsstring :=
  match values with
  | [] => []
  | value :: rest =>
      fst (decode d value) ++ decoded (snd (decode d value)) rest
  end.

End Decoded.

(** ** Fixtures *)

(** A layer off the map on which a text waits for [addTo]. *)
Definition waiting_layer : layer jsstring :=
  mkLayer (Some (VObject (lit "{'a':1}"))) Sample.default_style None None true
          (Some (lit "{'a':1}")) true.

(** A body whose second read rejects. *)
Definition broken_response : response :=
  mkResponse true 200 None [lit "{'a':1}{'b'"] (Some (SourceError 1)).

(** A JSON array of two objects: the objects and the text before each. *)
Definition array_parts : list (jsstring * jsstring) :=
  [(lit "[", lit "{'a':1}"); (lit ",", lit "{'b':2}")].

Definition sample_file : list N := lit "{'a':1}".

End Observed.

Import Observed.

(* ================================================================== *)
(** * Facts about the boundary scanner *)
(* ================================================================== *)

Module ScannerFacts.

Local Abbreviation body := Scanner.body.

(** ** Prefixes *)

Lemma firstn_prefix {A} (pre rest : list A) :
  firstn (List.length pre) (pre ++ rest) = pre.
Proof.
  induction pre as [|a pre IH]; simpl.
  - reflexivity.
  - now rewrite IH.
Qed.

Lemma firstn_snoc {A} (str : list A) : forall n c,
  nth_error str n = Some c -> firstn (S n) str = firstn n str ++ [c].
Proof.
  induction str as [|a str IH]; intros [|n] c Hn; simpl in *; try discriminate.
  - now inversion Hn.
  - f_equal. now apply IH.
Qed.

Lemma nth_error_middle {A} (pre rest : list A) (c : A) :
  nth_error (pre ++ c :: rest) (List.length pre) = Some c.
Proof.
  induction pre as [|a pre IH]; simpl; auto.
Qed.

Lemma locals_after_S (str : jsstring) (n : nat) (c : N) :
  nth_error str n = Some c ->
  locals_after str (S n) = fst (body (locals_after str n) c).
Proof.
  intros Hn. unfold locals_after.
  rewrite (firstn_snoc str n c Hn), fold_left_app. reflexivity.
Qed.

Lemma pass_after_S (str : jsstring) (n : nat) (c : N) :
  nth_error str n = Some c ->
  pass_after str (S n) = pass_step (pass_after str n) c.
Proof.
  intros Hn. unfold pass_after.
  rewrite (firstn_snoc str n c Hn), fold_left_app. reflexivity.
Qed.

(** ** The loop body against the specification's pass *)

Lemma body_pass_step (l : locals) (c : N) :
  to_pass (fst (body l c)) = pass_step (to_pass l) c.
Proof.
  destruct l as [d s e]. unfold body, pass_step, to_pass; simpl.
  destruct e; simpl; [reflexivity|].
  destruct (c =? backslash)%N; simpl; [reflexivity|].
  destruct (c =? quote)%N; simpl; [reflexivity|].
  destruct s; simpl; [reflexivity|].
  destruct (c =? lbrace)%N; simpl; [reflexivity|].
  destruct (c =? rbrace)%N; reflexivity.
Qed.

Lemma to_pass_locals_after (str : jsstring) (n : nat) :
  to_pass (locals_after str n) = pass_after str n.
Proof.
  unfold locals_after, pass_after.
  change pass_start with (to_pass initial).
  generalize initial. generalize (firstn n str) as pre.
  induction pre as [|c pre IH]; intros l; simpl.
  - reflexivity.
  - rewrite IH. now rewrite body_pass_step.
Qed.

(** When the body returns: exactly on a closing brace read outside a
    string, not escaped, that brings the count to zero. *)
Lemma body_returns (l : locals) (c : N) :
  snd (body l c) = true <->
  c = rbrace /\ inString l = false /\ escape l = false /\
  braceCount (fst (body l c)) = 0.
Proof.
  destruct l as [d s e]. unfold body; simpl.
  destruct e; simpl; [intuition discriminate|].
  destruct (N.eqb_spec c backslash) as [->|Hb]; simpl;
    [unfold backslash, rbrace; intuition discriminate|].
  destruct (N.eqb_spec c quote) as [->|Hq]; simpl;
    [unfold quote, rbrace; intuition discriminate|].
  destruct s; simpl; [intuition discriminate|].
  destruct (N.eqb_spec c lbrace) as [->|Hl]; simpl;
    [unfold lbrace, rbrace; intuition discriminate|].
  destruct (N.eqb_spec c rbrace) as [->|Hr]; simpl.
  - rewrite Z.eqb_eq. intuition.
  - intuition; try discriminate.
Qed.

Lemma body_return_flags (l l' : locals) (c : N) :
  body l c = (l', true) ->
  inString l = false /\ escape l = false /\
  inString l' = false /\ escape l' = false /\ braceCount l' = 0 /\ c = rbrace.
Proof.
  intros Hb.
  assert (Hs : snd (body l c) = true) by now rewrite Hb.
  apply body_returns in Hs. rewrite Hb in Hs. simpl in Hs.
  destruct Hs as (Hc & Hi & He & Hd). subst c.
  destruct l as [d s e]. simpl in Hi, He. subst s e.
  unfold body in Hb; simpl in Hb.
  destruct (d - 1 =? 0); inversion Hb; subst; simpl in *; auto 10.
Qed.

Lemma returns_at_closes_at (str : jsstring) (i : nat) :
  returns_at str i <-> closes_at str i.
Proof.
  unfold returns_at, closes_at. split.
  - intros (c & Hn & Hr). apply body_returns in Hr.
    destruct Hr as (-> & Hi & He & Hd).
    rewrite <- !to_pass_locals_after, (locals_after_S _ _ _ Hn).
    simpl. auto.
  - intros (Hn & Hi & He & Hd). exists rbrace. split; [assumption|].
    apply body_returns.
    rewrite <- !to_pass_locals_after, (locals_after_S _ _ _ Hn) in *.
    simpl in *. auto.
Qed.

(** ** The loop finds the first position at which the body returns *)

Lemma scan_spec : forall (rest pre : jsstring) (l : locals),
  l = locals_after (pre ++ rest) (List.length pre) ->
  match scan (List.length pre) l rest with
  | Some (i, l') =>
      (List.length pre <= i)%nat /\
      returns_at (pre ++ rest) i /\
      l' = locals_after (pre ++ rest) (S i) /\
      forall j, (List.length pre <= j < i)%nat -> ~ returns_at (pre ++ rest) j
  | None =>
      forall j, (List.length pre <= j)%nat -> ~ returns_at (pre ++ rest) j
  end.
Proof.
  induction rest as [|c rest IH]; intros pre l Hl; simpl.
  - intros j Hj (c & Hn & _).
    rewrite app_nil_r in Hn.
    assert (j < List.length pre)%nat by (apply nth_error_Some; congruence).
    lia.
  - pose proof (nth_error_middle pre rest c) as Hc.
    pose proof (locals_after_S _ _ _ Hc) as HS. rewrite <- Hl in HS.
    destruct (body l c) as [l' b] eqn:Hb. simpl in HS.
    destruct b.
    + repeat split; auto.
      * exists c. split; [assumption|]. now rewrite <- Hl, Hb.
      * intros j Hj; lia.
    + specialize (IH (pre ++ [c]) l').
      rewrite <- app_assoc in IH. simpl in IH.
      rewrite length_app in IH. simpl in IH.
      rewrite Nat.add_1_r in IH. specialize (IH (eq_sym HS)).
      assert (Hnot : ~ returns_at (pre ++ c :: rest) (List.length pre)).
      { intros (c' & Hn & Hr). rewrite Hc in Hn. inversion Hn; subst c'.
        rewrite <- Hl, Hb in Hr. discriminate. }
      destruct (scan (S (List.length pre)) l' rest) as [[i l'']|].
      * destruct IH as (Hle & Hret & Hloc & Hfirst).
        repeat split; auto; try lia.
        intros j Hj.
        destruct (Nat.eq_dec j (List.length pre)) as [->|Hne]; [assumption|].
        apply Hfirst. lia.
      * intros j Hj.
        destruct (Nat.eq_dec j (List.length pre)) as [->|Hne]; [assumption|].
        apply IH. lia.
Qed.

Lemma scan_from_start (str : jsstring) :
  match scan 0 initial str with
  | Some (i, l') =>
      returns_at str i /\ l' = locals_after str (S i) /\
      forall j, (j < i)%nat -> ~ returns_at str j
  | None => forall j, ~ returns_at str j
  end.
Proof.
  pose proof (scan_spec str [] initial eq_refl) as H. simpl in H.
  destruct (scan 0 initial str) as [[i l']|].
  - destruct H as (_ & Hr & Hl & Hf). repeat split; auto.
    intros j Hj. apply Hf. lia.
  - intros j. apply H. lia.
Qed.

Lemma returns_at_in_range (str : jsstring) (i : nat) :
  returns_at str i -> (i < List.length str)%nat.
Proof.
  intros (c & Hn & _). apply nth_error_Some. congruence.
Qed.

(** The result is [-1] or an index of the string. *)
Lemma findCompleteJsonEnd_range (str : jsstring) :
  findCompleteJsonEnd str = -1 \/
  0 <= findCompleteJsonEnd str < length str.
Proof.
  unfold findCompleteJsonEnd, length.
  pose proof (scan_from_start str) as H.
  destruct (scan 0 initial str) as [[i l']|]; [right | now left].
  destruct H as (Hr & _). apply returns_at_in_range in Hr. lia.
Qed.

(** ** The scanner on a prefix that holds the boundary *)

Lemma scan_ge : forall (str : jsstring) (i0 : nat) (l : locals) i l',
  scan i0 l str = Some (i, l') -> (i0 <= i)%nat.
Proof.
  induction str as [|c str IH]; intros i0 l i l' Hs; simpl in Hs;
    [discriminate|].
  destruct (body l c) as [l1 [|]].
  - inversion Hs. lia.
  - apply IH in Hs. lia.
Qed.

Lemma scan_prefix : forall (pre post : jsstring) (i0 : nat) (l : locals) i l',
  scan i0 l (pre ++ post) = Some (i, l') ->
  (i < i0 + List.length pre)%nat ->
  scan i0 l pre = Some (i, l').
Proof.
  induction pre as [|c pre IH]; intros post i0 l i l' Hs Hlt; simpl in *.
  - apply scan_ge in Hs. lia.
  - destruct (body l c) as [l1 [|]]; [assumption|].
    apply (IH post); [assumption | lia].
Qed.

Lemma findCompleteJsonEnd_prefix (str : jsstring) :
  0 <= findCompleteJsonEnd str ->
  findCompleteJsonEnd (firstn (Z.to_nat (findCompleteJsonEnd str + 1)) str)
  = findCompleteJsonEnd str.
Proof.
  unfold findCompleteJsonEnd.
  destruct (scan 0 initial str) as [[i l']|] eqn:Hs; [|lia].
  intros _.
  replace (Z.to_nat (Z.of_nat i + 1)) with (S i) by lia.
  rewrite <- (firstn_skipn (S i) str) in Hs.
  apply scan_prefix in Hs.
  - now rewrite Hs.
  - rewrite length_firstn.
    assert (i < List.length str)%nat; [|lia].
    rewrite firstn_skipn in Hs.
    pose proof (scan_from_start str) as H. rewrite Hs in H.
    destruct H as (Hr & _). now apply returns_at_in_range.
Qed.

(** ** The scanner on a longer string, and after white space *)

Lemma scan_app : forall (str more : jsstring) (i0 : nat) (l : locals) r,
  scan i0 l str = Some r -> scan i0 l (str ++ more) = Some r.
Proof.
  induction str as [|c str IH]; intros more i0 l r Hs; simpl in *;
    [discriminate|].
  destruct (body l c) as [l1 [|]]; [assumption|].
  now apply IH.
Qed.

Lemma findCompleteJsonEnd_app (str more : jsstring) :
  findCompleteJsonEnd str <> -1 ->
  findCompleteJsonEnd (str ++ more) = findCompleteJsonEnd str.
Proof.
  unfold findCompleteJsonEnd.
  destruct (scan 0 initial str) as [[i l']|] eqn:Hs; [|contradiction].
  intros _. now rewrite (scan_app _ more _ _ _ Hs).
Qed.

Lemma scan_shift : forall (str : jsstring) (i0 k : nat) (l : locals),
  scan (k + i0) l str
  = match scan i0 l str with
    | Some (i, l') => Some ((k + i)%nat, l')
    | None => None
    end.
Proof.
  induction str as [|c str IH]; intros i0 k l; simpl; [reflexivity|].
  destruct (body l c) as [l1 [|]]; [reflexivity|].
  rewrite <- IH. f_equal. lia.
Qed.

Lemma whitespace_is_not_structural (c : N) :
  is_whitespace c = true -> body initial c = (initial, false).
Proof.
  intros Hc. unfold body; simpl.
  destruct (N.eqb_spec c backslash) as [->|_]; [discriminate|].
  destruct (N.eqb_spec c quote) as [->|_]; [discriminate|].
  destruct (N.eqb_spec c lbrace) as [->|_]; [discriminate|].
  destruct (N.eqb_spec c rbrace) as [->|_]; [discriminate|].
  reflexivity.
Qed.

Lemma scan_whitespace : forall (ws str : jsstring) (i0 : nat),
  forallb is_whitespace ws = true ->
  scan i0 initial (ws ++ str) = scan (List.length ws + i0) initial str.
Proof.
  induction ws as [|c ws IH]; intros str i0 Hws; simpl in *; [reflexivity|].
  apply andb_prop in Hws. destruct Hws as [Hc Hws].
  rewrite (whitespace_is_not_structural c Hc), IH by assumption.
  f_equal. lia.
Qed.

(** White space alone holds no boundary. *)
Lemma findCompleteJsonEnd_whitespace (ws : jsstring) :
  forallb is_whitespace ws = true -> findCompleteJsonEnd ws = -1.
Proof.
  intros Hws. unfold findCompleteJsonEnd.
  rewrite <- (app_nil_r ws), scan_whitespace by assumption.
  reflexivity.
Qed.

(** The boundary of an object that follows white space and is followed by
    anything. *)
Lemma findCompleteJsonEnd_separated (ws o more : jsstring) :
  forallb is_whitespace ws = true ->
  0 <= findCompleteJsonEnd o ->
  findCompleteJsonEnd (ws ++ o ++ more) = length ws + findCompleteJsonEnd o.
Proof.
  intros Hws. unfold findCompleteJsonEnd, length.
  rewrite scan_whitespace by assumption.
  rewrite scan_shift.
  destruct (scan 0 initial o) as [[i l']|] eqn:Hs; [|lia].
  intros _. rewrite (scan_app _ more _ _ _ Hs). lia.
Qed.

(** ** Reference behaviour *)

(** ** Depth returning to zero *)

Lemma pass_after_beyond (str : jsstring) (i : nat) :
  (List.length str <= i)%nat -> pass_after str (S i) = pass_after str i.
Proof.
  intros Hi. unfold pass_after.
  rewrite !firstn_all2 by lia. reflexivity.
Qed.

(** The depth comes down to zero only at a closing brace that counts. *)
Lemma pass_step_to_zero (p : pass) (c : N) :
  1 <= depth p -> depth (pass_step p c) = 0 ->
  c = rbrace /\ inStr p = false /\ escapeNext p = false.
Proof.
  intros Hpos. unfold pass_step.
  destruct (escapeNext p); simpl; [lia|].
  destruct (c =? backslash)%N; simpl; [lia|].
  destruct (c =? quote)%N; simpl; [lia|].
  destruct (inStr p); simpl; [lia|].
  destruct (c =? lbrace)%N; simpl; [lia|].
  destruct (N.eqb_spec c rbrace) as [->|_]; simpl; [auto|lia].
Qed.

Lemma closes_at_returns_to_zero (str : jsstring) (i : nat) :
  closes_at str i -> returns_to_zero str i.
Proof.
  intros (Hn & Hi & He & Hd). unfold returns_to_zero.
  split; [|exact Hd].
  rewrite (pass_after_S _ _ _ Hn) in Hd. unfold pass_step in Hd.
  rewrite He, Hi in Hd. simpl in Hd. lia.
Qed.

Lemma returns_to_zero_closes_at (str : jsstring) (i : nat) :
  never_negative str -> returns_to_zero str i -> closes_at str i.
Proof.
  intros Hpos (Hbefore & Hafter).
  destruct (nth_error str i) as [c|] eqn:Hn.
  - pose proof (Hpos i) as Hi.
    assert (Hone : 1 <= depth (pass_after str i)) by lia.
    rewrite (pass_after_S _ _ _ Hn) in Hafter.
    destruct (pass_step_to_zero _ c Hone Hafter) as (-> & Hs & He).
    unfold closes_at. rewrite (pass_after_S _ _ _ Hn). auto.
  - apply nth_error_None in Hn.
    rewrite (pass_after_beyond _ _ Hn) in Hafter. contradiction.
Qed.

(** The result is the first closing brace, read outside a string and not
    escaped, that brings the depth to zero; -1 when there is none. *)
Lemma findCompleteJsonEnd_first_boundary :
  (forall str i, findCompleteJsonEnd str = Z.of_nat i <-> first_boundary str i) /\
  (forall str, findCompleteJsonEnd str = -1 <-> forall i, ~ closes_at str i).
Proof.
  split.
  - intros str i. unfold findCompleteJsonEnd, first_boundary.
    pose proof (scan_from_start str) as H.
    destruct (scan 0 initial str) as [[k l']|].
    + destruct H as (Hr & _ & Hf). split.
      * intros Hk. apply Nat2Z.inj in Hk. subst k. split.
        -- now apply returns_at_closes_at.
        -- intros j Hj Hc. apply (Hf j Hj). now apply returns_at_closes_at.
      * intros (Hc & Hfirst). apply returns_at_closes_at in Hc.
        f_equal.
        destruct (Nat.lt_trichotomy k i) as [Hlt|[Heq|Hgt]]; [|assumption|].
        -- exfalso. apply (Hfirst k Hlt). now apply returns_at_closes_at.
        -- exfalso. exact (Hf i Hgt Hc).
    + split.
      * intros Hk. lia.
      * intros (Hc & _). exfalso. apply (H i). now apply returns_at_closes_at.
  - intros str. unfold findCompleteJsonEnd.
    pose proof (scan_from_start str) as H.
    destruct (scan 0 initial str) as [[k l']|].
    + destruct H as (Hr & _). split.
      * intros Hk. lia.
      * intros Hno. exfalso. apply (Hno k). now apply returns_at_closes_at.
    + split; [|reflexivity].
      intros _ i Hc. apply (H i). now apply returns_at_closes_at.
Qed.

Lemma never_negative_sample : never_negative (lit "{'a':1}").
Proof.
  intros j. do 8 (destruct j as [|j]; [vm_compute; discriminate|]).
  unfold pass_after. rewrite firstn_all2 by (simpl; lia).
  vm_compute. discriminate.
Defined.

(** C5, as amended.  The scanner returns 6 on [{"a":1}], 11 on
    [{"a":"b{c}"}] (the braces inside the quoted string are ignored) and -1
    on [{"a":].  In general it is a single forward pass over
    depth / inString / escapeNext whose result is the first index at which
    a closing brace, read outside a string and not escaped, brings the
    depth to zero, and -1 exactly when there is no such index.  On a text
    whose depth never goes below zero (no closing brace without its opening
    one) this is the index at which the depth first returns to zero, and -1
    exactly when it never does. *)
Theorem findCompleteJsonEnd_reference :
  findCompleteJsonEnd (lit "{'a':1}") = 6 /\
  findCompleteJsonEnd (lit "{'a':'b{c}'}") = 11 /\
  findCompleteJsonEnd (lit "{'a':") = -1 /\
  (forall str i, findCompleteJsonEnd str = Z.of_nat i <-> first_boundary str i) /\
  (forall str, findCompleteJsonEnd str = -1 <-> forall i, ~ closes_at str i) /\
  (forall str,
     never_negative str ->
     (forall i, findCompleteJsonEnd str = Z.of_nat i <->
                first_return_to_zero str i) /\
     (findCompleteJsonEnd str = -1 <-> forall i, ~ returns_to_zero str i)).
Proof.
  destruct findCompleteJsonEnd_first_boundary as [Hfirst Hnone].
  split; [reflexivity|]. split; [reflexivity|]. split; [reflexivity|].
  split; [exact Hfirst|]. split; [exact Hnone|].
  intros str Hpos.
  assert (Hsame : forall i, closes_at str i <-> returns_to_zero str i).
  { intros i. split; [apply closes_at_returns_to_zero |
                      now apply returns_to_zero_closes_at]. }
  split.
  - intros i. rewrite Hfirst. unfold first_boundary, first_return_to_zero.
    rewrite Hsame. split; intros [Hi Hj]; (split; [exact Hi|]);
      intros j Hlt Hc; apply (Hj j Hlt); now apply Hsame.
  - rewrite Hnone. split; intros Hno i Hc; apply (Hno i); now apply Hsame.
Qed.

Lemma findCompleteJsonEnd_reference_witness :
  never_negative (lit "{'a':1}") /\
  (forall i, findCompleteJsonEnd (lit "{'a':1}") = Z.of_nat i <->
             first_return_to_zero (lit "{'a':1}") i) /\
  (findCompleteJsonEnd (lit "{'a':1}") = -1 <->
   forall i, ~ returns_to_zero (lit "{'a':1}") i).
Proof.
  split; [exact never_negative_sample|].
  destruct findCompleteJsonEnd_reference as (_ & _ & _ & _ & _ & Hzero).
  exact (Hzero (lit "{'a':1}") never_negative_sample).
Defined.

(** C5, counterexample.  After a closing brace that has no opening one
    the depth is -1, and the next opening brace brings it back to zero:
    in [}{}] and in [}{{}] the depth first returns to zero at index 1.
    The scanner tests the depth at closing braces only: it returns -1 on
    the first text and 3 on the second. *)
Lemma depth_returns_to_zero_at_an_opening_brace :
  first_return_to_zero (lit "}{}") 1 /\
  findCompleteJsonEnd (lit "}{}") = -1 /\
  first_return_to_zero (lit "}{{}") 1 /\
  findCompleteJsonEnd (lit "}{{}") = 3.
Proof.
  assert (Hfirst : forall str,
            depth (pass_after str 0) = 0 ->
            returns_to_zero str 1 -> first_return_to_zero str 1).
  { intros str Hstart Hone. split; [exact Hone|].
    intros j Hj [Hbefore _]. assert (j = 0)%nat by lia. subst j.
    now apply Hbefore. }
  split; [apply Hfirst; [reflexivity|];
          split; [vm_compute; discriminate | reflexivity]|].
  split; [reflexivity|].
  split; [apply Hfirst; [reflexivity|];
          split; [vm_compute; discriminate | reflexivity]|].
  reflexivity.
Qed.

(** ** The flags at a returned index *)

(** One more backslash turns the run from even to odd and back; any
    other character ends it. *)
Lemma escaped_at_S (str : jsstring) (j : nat) (c : N) :
  nth_error str j = Some c ->
  escaped_at str (S j)
  = if (c =? backslash)%N then negb (escaped_at str j) else false.
Proof.
  intros Hn. unfold escaped_at.
  rewrite (firstn_snoc _ _ _ Hn), rev_app_distr. simpl.
  destruct (c =? backslash)%N; [|reflexivity].
  rewrite Nat.odd_succ, <- Nat.negb_odd. reflexivity.
Qed.

(** The flags of the pass are what the text says: [escapeNext] is set
    exactly after an odd run of backslashes, [inStr] exactly after an odd
    number of quotes that are not escaped. *)
Lemma pass_reads_the_text (str : jsstring) :
  forall j, (j <= List.length str)%nat ->
    escapeNext (pass_after str j) = escaped_at str j /\
    inStr (pass_after str j) = inside_string str j.
Proof.
  induction j as [|j IH]; intros Hj.
  - split; reflexivity.
  - destruct (nth_error str j) as [c|] eqn:Hn;
      [|apply nth_error_None in Hn; lia].
    destruct (IH ltac:(lia)) as [He Hs].
    rewrite (pass_after_S _ _ _ Hn), (escaped_at_S _ _ _ Hn).
    unfold inside_string in *. cbn [quotes_before]. rewrite Hn.
    unfold pass_step. rewrite He, Hs.
    destruct (escaped_at str j); simpl.
    + rewrite andb_false_r, Nat.add_0_r.
      destruct (c =? backslash)%N; auto.
    + rewrite andb_true_r.
      destruct (N.eqb_spec c backslash) as [->|Hb]; simpl.
      * rewrite Nat.add_0_r. auto.
      * destruct (c =? quote)%N; simpl.
        -- split; [reflexivity|].
           rewrite Nat.add_1_r, Nat.odd_succ, <- Nat.negb_odd. reflexivity.
        -- rewrite Nat.add_0_r.
           destruct (Nat.odd (quotes_before str j)); simpl; auto;
             destruct (c =? lbrace)%N; simpl; auto;
             destruct (c =? rbrace)%N; simpl; auto.
Qed.

(** C6.  Whenever the scanner returns an index [i] rather than -1, that
    index is not inside an open quoted string and does not follow an
    unresolved escape character.  This is said of the text: the quotes
    before [i] that are not escaped are even in number, and the
    backslashes right before [i] are even in number; the same holds
    right after [i].  It is said of the pass of the specification, whose
    [inStr] and [escapeNext] are false at [i], and of the code, which
    executes [return i] on a closing brace with [inString] and [escape]
    both false before and after. *)
Theorem findCompleteJsonEnd_outside_string (str : jsstring) (i : nat) :
  findCompleteJsonEnd str = Z.of_nat i ->
  (i < List.length str)%nat /\
  nth_error str i = Some rbrace /\
  inside_string str i = false /\
  escaped_at str i = false /\
  inside_string str (S i) = false /\
  escaped_at str (S i) = false /\
  inStr (pass_after str i) = false /\
  escapeNext (pass_after str i) = false /\
  exists l,
    scan 0 initial str = Some (i, l) /\
    l = locals_after str (S i) /\
    inString l = false /\ escape l = false /\
    inString (locals_after str i) = false /\
    escape (locals_after str i) = false.
Proof.
  intros Hret.
  assert (Hlocals : exists l,
    scan 0 initial str = Some (i, l) /\
    l = locals_after str (S i) /\
    inString l = false /\ escape l = false /\
    inString (locals_after str i) = false /\
    escape (locals_after str i) = false /\
    nth_error str i = Some rbrace).
  { revert Hret. unfold findCompleteJsonEnd.
    pose proof (scan_from_start str) as H.
    destruct (scan 0 initial str) as [[k l']|]; [|lia].
    intros Hk. apply Nat2Z.inj in Hk. subst k.
    destruct H as ((c & Hn & Hr) & Hl & _).
    exists l'. split; [reflexivity|]. split; [assumption|].
    rewrite (locals_after_S _ _ _ Hn) in Hl.
    destruct (body (locals_after str i) c) as [l'' b] eqn:Hb.
    simpl in Hr, Hl. subst b l''.
    destruct (body_return_flags _ _ _ Hb) as (H1 & H2 & H3 & H4 & _ & ->).
    auto 10. }
  destruct Hlocals as (l & Hscan & Hl & Hs' & He' & Hs & He & Hn).
  assert (Hlt : (i < List.length str)%nat)
    by (apply nth_error_Some; congruence).
  destruct (pass_reads_the_text str i ltac:(lia)) as [HeT HsT].
  destruct (pass_reads_the_text str (S i) ltac:(lia)) as [HeT' HsT'].
  rewrite <- !to_pass_locals_after in *. simpl in *.
  subst l.
  split; [exact Hlt|]. split; [exact Hn|].
  split; [congruence|]. split; [congruence|].
  split; [congruence|]. split; [congruence|].
  split; [exact Hs|]. split; [exact He|].
  exists (locals_after str (S i)). auto 10.
Qed.

Lemma findCompleteJsonEnd_outside_string_witness :
  findCompleteJsonEnd (lit "{'a':'}'}") = Z.of_nat 8 /\
  inside_string (lit "{'a':'}'}") 6 = true /\
  (8 < List.length (lit "{'a':'}'}"))%nat /\
  nth_error (lit "{'a':'}'}") 8 = Some rbrace /\
  inside_string (lit "{'a':'}'}") 8 = false /\
  escaped_at (lit "{'a':'}'}") 8 = false /\
  inside_string (lit "{'a':'}'}") 9 = false /\
  escaped_at (lit "{'a':'}'}") 9 = false /\
  inStr (pass_after (lit "{'a':'}'}") 8) = false /\
  escapeNext (pass_after (lit "{'a':'}'}") 8) = false /\
  exists l,
    scan 0 initial (lit "{'a':'}'}") = Some (8%nat, l) /\
    l = locals_after (lit "{'a':'}'}") 9 /\
    inString l = false /\ escape l = false /\
    inString (locals_after (lit "{'a':'}'}") 8) = false /\
    escape (locals_after (lit "{'a':'}'}") 8) = false.
Proof.
  split; [reflexivity|]. split; [reflexivity|].
  apply (findCompleteJsonEnd_outside_string (lit "{'a':'}'}") 8).
  reflexivity.
Defined.

End ScannerFacts.

(* ================================================================== *)
(** * Facts about JavaScript strings *)
(* ================================================================== *)

Module JSFacts.

Lemma length_nonneg (s : jsstring) : 0 <= length s.
Proof. unfold length. lia. Qed.

Lemma length_app (s t : jsstring) : length (s ++ t) = length s + length t.
Proof. unfold length. rewrite List.length_app. lia. Qed.

Lemma substring_prefix (s : jsstring) (b : Z) :
  0 <= b <= length s -> substring s 0 b = firstn (Z.to_nat b) s.
Proof.
  intros Hb. unfold substring, clamp.
  replace (Z.max 0 (Z.min 0 (length s))) with 0 by lia.
  replace (Z.max 0 (Z.min b (length s))) with b by lia.
  replace (Z.min 0 b) with 0 by lia.
  replace (Z.max 0 b - 0) with b by lia.
  reflexivity.
Qed.

Lemma substring_from_suffix (s : jsstring) (a : Z) :
  0 <= a <= length s -> substring_from s a = skipn (Z.to_nat a) s.
Proof.
  intros Ha. unfold substring_from, substring, clamp.
  replace (Z.max 0 (Z.min a (length s))) with a by lia.
  replace (Z.max 0 (Z.min (length s) (length s))) with (length s) by lia.
  replace (Z.min a (length s)) with a by lia.
  replace (Z.max a (length s)) with (length s) by lia.
  apply firstn_all2. rewrite length_skipn. unfold length in *. lia.
Qed.

(** A record and what follows it are the two parts of the buffer. *)
Lemma substring_split (s : jsstring) (b : Z) :
  0 <= b <= length s -> substring s 0 b ++ substring_from s b = s.
Proof.
  intros Hb. rewrite substring_prefix, substring_from_suffix by assumption.
  apply firstn_skipn.
Qed.

Lemma substring_app_prefix (s t : jsstring) (b : Z) :
  0 <= b <= length s -> substring (s ++ t) 0 b = substring s 0 b.
Proof.
  intros Hb.
  rewrite !substring_prefix by (rewrite ?length_app; pose proof (length_nonneg t); lia).
  rewrite firstn_app.
  replace (Z.to_nat b - List.length s)%nat with 0%nat by (unfold length in Hb; lia).
  simpl. apply app_nil_r.
Qed.

Lemma substring_from_app (s t : jsstring) (a : Z) :
  0 <= a <= length s -> substring_from (s ++ t) a = substring_from s a ++ t.
Proof.
  intros Ha.
  rewrite !substring_from_suffix
    by (rewrite ?length_app; pose proof (length_nonneg t); lia).
  rewrite skipn_app.
  replace (Z.to_nat a - List.length s)%nat with 0%nat by (unfold length in Ha; lia).
  reflexivity.
Qed.

(** [s.slice(-n)] for [1 <= n <= s.length]: the last [n] characters. *)
Lemma slice_last (s : jsstring) (n : Z) :
  1 <= n <= length s ->
  length (slice s (- n)) = n /\
  exists dropped, s = dropped ++ slice s (- n).
Proof.
  intros Hn. unfold slice.
  replace (- n <? 0) with true by (symmetry; apply Z.ltb_lt; lia).
  replace (Z.max (length s + - n) 0) with (length s - n) by lia.
  split.
  - unfold length in *. rewrite length_skipn. lia.
  - exists (firstn (Z.to_nat (length s - n)) s).
    symmetry. apply firstn_skipn.
Qed.

Lemma truthy_trim_start (s : jsstring) :
  truthy (trim_start s) = has_non_whitespace s.
Proof.
  induction s as [|c s IH]; simpl; [reflexivity|].
  destruct (is_whitespace c); simpl; [exact IH | reflexivity].
Qed.

Lemma has_non_whitespace_trim_start (s : jsstring) :
  has_non_whitespace (trim_start s) = has_non_whitespace s.
Proof.
  induction s as [|c s IH]; simpl; [reflexivity|].
  destruct (is_whitespace c) eqn:Hc; simpl; [exact IH | now rewrite Hc].
Qed.

Lemma has_non_whitespace_rev (s : jsstring) :
  has_non_whitespace (rev s) = has_non_whitespace s.
Proof.
  unfold has_non_whitespace.
  induction s as [|c s IH]; simpl; [reflexivity|].
  rewrite existsb_app, IH. simpl. rewrite orb_false_r. apply orb_comm.
Qed.

Lemma truthy_rev (s : jsstring) : truthy (rev s) = truthy s.
Proof.
  destruct s as [|c s]; simpl; [reflexivity|].
  destruct (rev s); reflexivity.
Qed.

Lemma truthy_trim (s : jsstring) : truthy (trim s) = has_non_whitespace s.
Proof.
  unfold trim.
  rewrite truthy_rev, truthy_trim_start, has_non_whitespace_rev.
  apply has_non_whitespace_trim_start.
Qed.

End JSFacts.

(* ================================================================== *)
(** * Facts about the ingestion controller *)
(* ================================================================== *)

Module Ingestion.

Import JSFacts ScannerFacts.

(** ** Logs *)

Lemma dispatched_app (a b : list event) :
  dispatched (a ++ b) = dispatched a ++ dispatched b.
Proof.
  induction a as [|e a IH]; simpl; [reflexivity|].
  destruct e; simpl; rewrite ?IH; reflexivity.
Qed.

Lemma chunk_events_are_chunk_events h chunk isFinal r :
  forallb is_chunk_event (chunk_events h chunk isFinal r) = true.
Proof.
  unfold chunk_events. destruct h as [idx|]; [|reflexivity].
  destruct (r idx); reflexivity.
Qed.

Lemma dispatched_chunk_events h chunk isFinal r :
  dispatched (chunk_events h chunk isFinal r)
  = chunk_calls h [(chunk, isFinal)].
Proof.
  unfold chunk_events, chunk_calls. destruct h as [idx|]; [|reflexivity].
  destruct (r idx); reflexivity.
Qed.

Lemma chunk_event_not_failure (ev : list event) :
  forallb is_chunk_event ev = true -> existsb is_failure ev = false.
Proof.
  induction ev as [|e ev IH]; simpl; [reflexivity|].
  intros Hc. apply andb_prop in Hc. destruct Hc as [He Hev].
  rewrite (IH Hev). destruct e; simpl in *; congruence.
Qed.

Lemma chunk_event_not_complete (ev : list event) :
  forallb is_chunk_event ev = true -> filter is_complete ev = [].
Proof.
  induction ev as [|e ev IH]; simpl; [reflexivity|].
  intros Hc. apply andb_prop in Hc. destruct Hc as [He Hev].
  rewrite (IH Hev). destruct e; simpl in *; congruence.
Qed.

Lemma chunk_event_not_settlement (ev : list event) :
  forallb is_chunk_event ev = true -> filter is_settlement ev = [].
Proof.
  induction ev as [|e ev IH]; simpl; [reflexivity|].
  intros Hc. apply andb_prop in Hc. destruct Hc as [He Hev].
  rewrite (IH Hev). destruct e; simpl in *; congruence.
Qed.

Section Effects.

Context {E Obj D : Type} `{Engine E} `{Json Obj} `{TextDecoder D}.

Local Abbreviation world := (world E Obj).
Local Abbreviation reading := (@reading D).

Lemma extends_refl (w : world) : extends w w [].
Proof. unfold extends. now rewrite app_nil_r. Qed.

Lemma extends_trans (w w1 w2 : world) (ev1 ev2 : list event) :
  extends w w1 ev1 -> extends w1 w2 ev2 -> extends w w2 (ev1 ++ ev2).
Proof.
  unfold extends. intros (A1 & B1 & C1 & D1) (A2 & B2 & C2 & D2).
  rewrite A2, B2, C2, D2, D1, app_assoc. auto.
Qed.

Lemma emit_extends (e : event) (w : world) :
  exists w', emit e w = (Normal tt, w') /\ extends w w' [e].
Proof.
  eexists. split; [reflexivity|]. unfold extends; simpl. auto.
Qed.

(** ** [processChunk] and [getFeatureCount] never throw *)

Lemma processChunk_effect (chunk : jsstring) (isFinal : bool) (w : world) :
  exists w',
    processChunk chunk isFinal w = (Normal tt, w') /\
    extends w w'
      (chunk_events (handle (this w)) chunk isFinal
         (fun idx => fst (load_geojson_chunk idx chunk isFinal (wasm w)))).
Proof.
  unfold processChunk, chunk_events, bind, get, try_catch, wasm_call.
  destruct (handle (this w)) as [idx|].
  - destruct (load_geojson_chunk idx chunk isFinal (wasm w))
      as [[[]|error] en]; simpl.
    + eexists. split; [reflexivity|]. unfold extends; simpl. auto.
    + eexists. split; [reflexivity|]. unfold extends; simpl.
      rewrite <- app_assoc. auto.
  - exists w. split; [reflexivity|]. apply extends_refl.
Qed.

Lemma getFeatureCount_effect (w : world) :
  exists n w', getFeatureCount w = (Normal n, w') /\ extends w w' [].
Proof.
  unfold getFeatureCount, bind, get, try_catch, ret.
  destruct (handle (this w)) as [idx|].
  - destruct (get_geojson_feature_count idx (wasm w)) as [[n|error] en].
    + exists n. eexists. split; [reflexivity|].
      unfold extends; simpl. rewrite app_nil_r. auto.
    + exists 0. eexists. split; [reflexivity|].
      unfold extends; simpl. rewrite app_nil_r. auto.
  - exists 0, w. split; [reflexivity|]. apply extends_refl.
Qed.

(** ** The dispatch loop *)

Lemma rest_is_shorter (buffer : jsstring) :
  findCompleteJsonEnd buffer <> -1 ->
  (List.length (substring_from buffer (findCompleteJsonEnd buffer + 1))
   < List.length buffer)%nat.
Proof.
  intros Hne.
  destruct (findCompleteJsonEnd_range buffer) as [Hm|Hr]; [contradiction|].
  rewrite substring_from_suffix by lia.
  rewrite length_skipn. unfold length in Hr. lia.
Qed.

(** With more fuel than the buffer has characters the loop leaves
    normally; it hands over the records of [cuts], each with
    [isFinal = false], and returns their number and the remainder. *)
Lemma dispatch_loop_terminates : forall (fuel : nat) (buffer : jsstring)
    (processed : Z) (w : world),
  (List.length buffer < fuel)%nat ->
  exists records remaining w' ev,
    dispatch_loop fuel buffer processed w
    = Some (Normal (processed + Z.of_nat (List.length records), remaining), w') /\
    cuts buffer records remaining /\
    extends w w' ev /\
    forallb is_chunk_event ev = true /\
    dispatched ev
    = chunk_calls (handle (this w)) (List.map (fun r => (r, false)) records).
Proof.
  induction fuel as [|fuel IH]; intros buffer processed w Hfuel; [lia|].
  simpl.
  destruct (Z.eqb_spec (findCompleteJsonEnd buffer) (-1)) as [Hend|Hend].
  - exists [], buffer, w, []. simpl. rewrite Z.add_0_r.
    split; [reflexivity|]. split; [now constructor|].
    split; [apply extends_refl|]. split; [reflexivity|].
    now destruct (handle (this w)).
  - set (endIndex := findCompleteJsonEnd buffer) in *.
    destruct (processChunk_effect (substring buffer 0 (endIndex + 1)) false w)
      as (w1 & Hp & Hext1).
    rewrite Hp.
    pose proof (rest_is_shorter buffer Hend) as Hshort.
    fold endIndex in Hshort.
    destruct (IH (substring_from buffer (endIndex + 1)) (processed + 1) w1)
      as (records & remaining & w' & ev & Hloop & Hcuts & Hext2 & Hch & Hd);
      [lia|].
    exists (substring buffer 0 (endIndex + 1) :: records), remaining, w'.
    eexists. split; [|split; [|split; [|split]]].
    + rewrite Hloop. simpl List.length.
      replace (processed + Z.of_nat (S (List.length records)))
        with (processed + 1 + Z.of_nat (List.length records)) by lia.
      reflexivity.
    + now constructor.
    + exact (extends_trans _ _ _ _ _ Hext1 Hext2).
    + rewrite forallb_app, chunk_events_are_chunk_events, Hch. reflexivity.
    + rewrite dispatched_app, dispatched_chunk_events, Hd.
      destruct Hext1 as (Hthis & _). rewrite Hthis.
      destruct (handle (this w)); reflexivity.
Qed.

Lemma processStreamingBuffer_effect (buffer : jsstring) (isFinal : bool)
    (w : world) :
  exists records remaining w' ev,
    dispatch_loop (S (List.length buffer)) buffer 0 w
    = Some (processStreamingBuffer buffer isFinal w) /\
    processStreamingBuffer buffer isFinal w
    = (Normal (Z.of_nat (List.length records), remaining), w') /\
    cuts buffer records remaining /\
    extends w w' ev /\
    forallb is_chunk_event ev = true /\
    dispatched ev
    = chunk_calls (handle (this w)) (List.map (fun r => (r, false)) records).
Proof.
  destruct (dispatch_loop_terminates (S (List.length buffer)) buffer 0 w)
    as (records & remaining & w' & ev & Hloop & Hrest); [lia|].
  exists records, remaining, w', ev.
  unfold processStreamingBuffer. rewrite Hloop. simpl. auto.
Qed.

(** ** What [cuts] cuts *)

Lemma cuts_deterministic (buffer : jsstring) records remaining :
  cuts buffer records remaining ->
  forall records' remaining',
    cuts buffer records' remaining' ->
    records' = records /\ remaining' = remaining.
Proof.
  induction 1 as [buffer Hend | buffer records remaining Hend Hc IH];
    intros records' remaining' Hc';
    inversion Hc' as [? Hend' | ? records'' ? Hend' Hc'']; subst;
    try contradiction; auto.
  destruct (IH _ _ Hc'') as [-> ->]. auto.
Qed.

(** The records and the remainder are the buffer, cut but not changed;
    no record is left in the remainder; every record ends at its own
    boundary. *)
Lemma cuts_partition (buffer : jsstring) records remaining :
  cuts buffer records remaining ->
  List.concat records ++ remaining = buffer /\
  findCompleteJsonEnd remaining = -1 /\
  Forall (fun r => findCompleteJsonEnd r = length r - 1) records.
Proof.
  induction 1 as [buffer Hend | buffer records remaining Hend Hc IH].
  - simpl. auto.
  - destruct IH as (Hcat & Hrem & Hall).
    destruct (findCompleteJsonEnd_range buffer) as [Hm|Hr]; [contradiction|].
    set (endIndex := findCompleteJsonEnd buffer) in *.
    split; [|split; [assumption|constructor; [|assumption]]].
    + simpl. rewrite <- app_assoc, Hcat. apply substring_split. lia.
    + rewrite substring_prefix by lia.
      assert (Hlen : length (firstn (Z.to_nat (endIndex + 1)) buffer)
                     = endIndex + 1).
      { unfold length in *. rewrite length_firstn. lia. }
      rewrite Hlen. replace (endIndex + 1 - 1) with endIndex by lia.
      apply findCompleteJsonEnd_prefix. lia.
Qed.

(** A pass over the remainder of an earlier pass, followed by more text,
    hands over what a single pass over all of the text hands over after the
    records of the earlier pass. *)
Lemma cuts_resume (buffer : jsstring) records remaining :
  cuts buffer records remaining ->
  forall more records' remaining',
    cuts (remaining ++ more) records' remaining' ->
    cuts (buffer ++ more) (records ++ records') remaining'.
Proof.
  induction 1 as [buffer Hend | buffer records remaining Hend Hc IH];
    intros more records' remaining' Hmore; [exact Hmore|].
  destruct (findCompleteJsonEnd_range buffer) as [Hm|Hr]; [contradiction|].
  pose proof (findCompleteJsonEnd_app buffer more Hend) as Happ.
  simpl.
  rewrite <- (substring_app_prefix buffer more) by lia.
  rewrite <- Happ.
  constructor.
  - now rewrite Happ.
  - rewrite Happ, substring_from_app by lia. now apply IH.
Qed.

(** Split invariance of the cut: passes over the fragments of a text, each
    resumed from the remainder of the one before, hand over the records of a
    single pass over the whole text, in the same order, and end with the
    same remainder. *)
Lemma resumed_cuts (remaining : jsstring) fragments records remaining' :
  resumed remaining fragments records remaining' ->
  findCompleteJsonEnd remaining = -1 ->
  cuts (remaining ++ List.concat fragments) records remaining'.
Proof.
  induction 1 as [remaining
                 | remaining fragment fragments records remaining' records'
                     remaining'' Hcuts Hres IH];
    intros Hrem.
  - simpl. rewrite app_nil_r. now constructor.
  - simpl. rewrite app_assoc.
    apply (cuts_resume _ _ _ Hcuts).
    apply IH. apply (cuts_partition _ _ _ Hcuts).
Qed.

(** A document of complete objects separated by white space is cut into its
    objects, each with the white space before it, and the trailing white
    space remains. *)
Lemma cuts_document (parts : list (jsstring * jsstring)) (trailing : jsstring) :
  Forall (fun part => whitespace (fst part) /\ complete_object (snd part)) parts ->
  whitespace trailing ->
  cuts (document parts trailing)
       (List.map (fun part => fst part ++ snd part) parts)
       trailing.
Proof.
  intros Hparts Htrail.
  induction Hparts as [|[ws o] parts [Hws [Hpos Hlast]] _ IH]; simpl.
  - constructor. now apply findCompleteJsonEnd_whitespace.
  - simpl in Hws, Hpos, Hlast.
    pose proof (findCompleteJsonEnd_separated ws o (document parts trailing)
                  Hws Hpos) as Hend.
    assert (Hcut : findCompleteJsonEnd (ws ++ o ++ document parts trailing) + 1
                   = length (ws ++ o)).
    { rewrite Hend, length_app. lia. }
    assert (Hne : findCompleteJsonEnd (ws ++ o ++ document parts trailing) <> -1).
    { pose proof (length_nonneg ws). lia. }
    replace (ws ++ o) with
      (substring (ws ++ o ++ document parts trailing) 0
         (findCompleteJsonEnd (ws ++ o ++ document parts trailing) + 1)).
    + constructor; [assumption|].
      rewrite Hcut, app_assoc, substring_from_app
        by (pose proof (length_nonneg (ws ++ o)); lia).
      rewrite substring_from_suffix by (pose proof (length_nonneg (ws ++ o)); lia).
      unfold length. rewrite Nat2Z.id, skipn_all. exact IH.
    + rewrite Hcut, app_assoc, substring_app_prefix
        by (pose proof (length_nonneg (ws ++ o)); lia).
      rewrite substring_prefix by (pose proof (length_nonneg (ws ++ o)); lia).
      unfold length. rewrite Nat2Z.id. apply firstn_all.
Qed.

(** ** One read *)

Lemma progress_effect (opts : streaming_options) (totalSize : option Z)
    (loaded : Z) (w : world) :
  exists w' ev,
    match totalSize with
    | Some total =>
        Layer.when (progressCallback opts && negb (total =? 0))
          (bind getFeatureCount (fun n =>
             emit (ProgressCallback loaded total
                                    (round_percentage loaded total) n)))
    | None => ret tt
    end w = (Normal tt, w') /\
    extends w w' ev /\
    existsb is_failure ev = false /\
    filter is_complete ev = [] /\
    filter is_settlement ev = [] /\
    dispatched ev = [].
Proof.
  destruct totalSize as [total|].
  - unfold Layer.when.
    destruct (progressCallback opts && negb (total =? 0)).
    + unfold bind.
      destruct (getFeatureCount_effect w) as (n & w1 & Hg & Hext1).
      rewrite Hg.
      destruct (emit_extends
                  (ProgressCallback loaded total
                                    (round_percentage loaded total) n) w1)
        as (w2 & He & Hext2).
      exists w2. eexists. split; [exact He|].
      split; [exact (extends_trans _ _ _ _ _ Hext1 Hext2)|].
      simpl. auto.
    + exists w, []. split; [reflexivity|].
      split; [apply extends_refl|]. simpl. auto.
  - exists w, []. split; [reflexivity|].
    split; [apply extends_refl|]. simpl. auto.
Qed.

(** A read that yields a value never throws; it hands over the records
    cut from the scanned buffer and leaves [next_reading]. *)
Lemma read_value_effect (opts : streaming_options) (totalSize : option Z)
    (value : list N) (r : reading) (w : world) :
  exists w' ev records remaining,
    read_value opts totalSize value r w
    = (Normal (next_reading opts value r), w') /\
    extends w w' ev /\
    cuts (scanned value r) records remaining /\
    dispatched ev
    = chunk_calls (handle (this w)) (List.map (fun r => (r, false)) records) /\
    existsb is_failure ev = false /\
    filter is_complete ev = [] /\
    filter is_settlement ev = [].
Proof.
  unfold read_value, next_reading, scanned, trimmed.
  destruct (decode (decoder r) value) as [chunk decoder'] eqn:Hdec. simpl.
  unfold bind at 1.
  destruct (processStreamingBuffer_effect (buffer r ++ chunk) false w)
    as (records & remaining & w1 & ev1 & _ & Hp & Hcuts & Hext1 & Hch & Hd).
  rewrite Hp.
  unfold bind at 1.
  destruct (progress_effect opts totalSize
              (loadedBytes r + Z.of_nat (List.length value)) w1)
    as (w2 & ev2 & Hq & Hext2 & Hf2 & Hc2 & Hs2 & Hd2).
  rewrite Hq.
  exists w2, (ev1 ++ ev2), records, remaining.
  split; [reflexivity|].
  split; [exact (extends_trans _ _ _ _ _ Hext1 Hext2)|].
  split; [assumption|].
  rewrite dispatched_app, existsb_app, !filter_app, Hd, Hd2, Hf2, Hc2, Hs2.
  rewrite (chunk_event_not_failure _ Hch), (chunk_event_not_complete _ Hch),
    (chunk_event_not_settlement _ Hch), app_nil_r.
  auto.
Qed.

(** ** The end of the stream *)

Lemma read_done_effect (opts : streaming_options) (r : reading) (w : world) :
  exists w' n,
    read_done opts r w = (Normal tt, w') /\
    extends w w'
      (flush_events (buffer r) w
       ++ (if completeCallback opts
           then [CompleteCallback n (totalBytes r) (Some (loadedBytes r))]
           else [])
       ++ [Resolve]).
Proof.
  unfold read_done, flush_events, Layer.when.
  unfold bind at 1.
  assert (Hflush : exists w1,
    (if truthy (trim (buffer r)) then processChunk (buffer r) true else ret tt) w
    = (Normal tt, w1) /\
    extends w w1
      (if truthy (trim (buffer r)) then
         chunk_events (handle (this w)) (buffer r) true
           (fun idx => fst (load_geojson_chunk idx (buffer r) true (wasm w)))
       else [])).
  { destruct (truthy (trim (buffer r))).
    - apply processChunk_effect.
    - exists w. split; [reflexivity | apply extends_refl]. }
  destruct Hflush as (w1 & Hf & Hext1). rewrite Hf.
  unfold bind at 1.
  destruct (completeCallback opts).
  - unfold bind at 1.
    destruct (getFeatureCount_effect w1) as (n & w2 & Hg & Hext2).
    rewrite Hg.
    destruct (emit_extends
                (CompleteCallback n (totalBytes r) (Some (loadedBytes r))) w2)
      as (w3 & He & Hext3).
    rewrite He.
    destruct (emit_extends Resolve w3) as (w4 & Hr & Hext4).
    exists w4, n. split; [exact Hr|].
    pose proof (extends_trans _ _ _ _ _ Hext2 Hext3) as H23.
    pose proof (extends_trans _ _ _ _ _ H23 Hext4) as H24.
    exact (extends_trans _ _ _ _ _ Hext1 H24).
  - destruct (emit_extends Resolve w1) as (w4 & Hr & Hext4).
    exists w4, 0. split; [exact Hr|].
    exact (extends_trans _ _ _ _ _ Hext1 Hext4).
Qed.

Lemma flush_events_are_chunk_events (buffer : jsstring) (w : world) :
  forallb is_chunk_event (flush_events buffer w) = true.
Proof.
  unfold flush_events. destruct (truthy (trim buffer)); [|reflexivity].
  apply chunk_events_are_chunk_events.
Qed.

Lemma dispatched_flush_events (buffer : jsstring) (w : world) :
  dispatched (flush_events buffer w)
  = chunk_calls (handle (this w))
      (if has_non_whitespace buffer then [(buffer, true)] else []).
Proof.
  unfold flush_events. rewrite truthy_trim.
  destruct (has_non_whitespace buffer).
  - apply dispatched_chunk_events.
  - now destruct (handle (this w)).
Qed.

Lemma chunk_calls_app (h : option Z) (a b : list (jsstring * bool)) :
  chunk_calls h (a ++ b) = chunk_calls h a ++ chunk_calls h b.
Proof. destruct h; reflexivity. Qed.

(** ** A healthy stream, from any point on *)

Lemma readChunk_effect (opts : streaming_options) (totalSize : option Z) :
  forall (values : list (list N)) (r : reading) (w : world),
  exists w' ev n calls,
    readChunk opts totalSize values None r w = (Normal tt, w') /\
    extends w w' ev /\
    hands_over opts values r calls /\
    dispatched ev = chunk_calls (handle (this w)) calls /\
    existsb is_failure ev = false /\
    filter is_settlement ev = [Resolve] /\
    filter is_complete ev
    = (if completeCallback opts
       then [CompleteCallback n (totalBytes (final_reading opts values r))
                              (Some (loadedBytes (final_reading opts values r)))]
       else []).
Proof.
  induction values as [|value rest IH]; intros r w.
  - simpl readChunk. unfold try_catch.
    destruct (read_done_effect opts r w) as (w' & n & Hd & Hext).
    rewrite Hd.
    pose proof (flush_events_are_chunk_events (buffer r) w) as Hch.
    exists w'. eexists. exists n. eexists.
    split; [reflexivity|]. split; [exact Hext|].
    split; [constructor|].
    rewrite dispatched_app, existsb_app, !filter_app.
    rewrite dispatched_flush_events, (chunk_event_not_failure _ Hch),
      (chunk_event_not_settlement _ Hch), (chunk_event_not_complete _ Hch).
    simpl. destruct (completeCallback opts); simpl;
      rewrite ?app_nil_r; auto.
  - simpl readChunk.
    destruct (read_value_effect opts totalSize value r w)
      as (w1 & ev1 & records & remaining & Hv & Hext1 & Hcuts & Hd1 & Hf1
          & Hc1 & Hs1).
    rewrite Hv.
    destruct (IH (next_reading opts value r) w1)
      as (w' & ev2 & n & calls & Hrun & Hext2 & Hover & Hd2 & Hf2 & Hs2 & Hc2).
    exists w', (ev1 ++ ev2), n. eexists.
    split; [exact Hrun|].
    split; [exact (extends_trans _ _ _ _ _ Hext1 Hext2)|].
    split; [econstructor; eassumption|].
    rewrite dispatched_app, existsb_app, !filter_app.
    rewrite Hd1, Hd2, Hf1, Hf2, Hs1, Hs2, Hc1, Hc2, chunk_calls_app.
    destruct Hext1 as (Hthis & _). rewrite Hthis. simpl. auto.
Qed.

Lemma hands_over_deterministic (opts : streaming_options)
    (values : list (list N)) (r : reading) calls :
  hands_over opts values r calls ->
  forall calls', hands_over opts values r calls' -> calls' = calls.
Proof.
  induction 1 as [r | value rest r records remaining calls Hcuts Hover IH];
    intros calls' Hover';
    inversion Hover' as [? | ? ? ? records' remaining' calls'' Hcuts' Hover''];
    subst; [reflexivity|].
  destruct (cuts_deterministic _ _ _ Hcuts _ _ Hcuts') as [-> _].
  now rewrite (IH _ Hover'').
Qed.

Lemma final_reading_totals (opts : streaming_options) :
  forall (values : list (list N)) (r : reading),
    totalBytes (final_reading opts values r)
    = totalBytes r + Z.of_nat (List.length (List.concat values)) /\
    loadedBytes (final_reading opts values r)
    = loadedBytes r + Z.of_nat (List.length (List.concat values)).
Proof.
  induction values as [|value rest IH]; intros r.
  - simpl. lia.
  - change (final_reading opts (value :: rest) r)
      with (final_reading opts rest (next_reading opts value r)).
    destruct (IH (next_reading opts value r)) as [-> ->].
    simpl. rewrite List.length_app. lia.
Qed.

(** ** Backpressure *)

(** C9, as amended.  For a configured [chunkSize] of at least 1, a read
    never throws and ends with a buffer of at most [2 * chunkSize]
    characters: a scanned buffer longer than that is replaced by exactly
    its last [chunkSize] characters, any other is kept as it is. *)
Theorem backpressure_trim (opts : streaming_options) (totalSize : option Z)
    (value : list N) (r : reading) (w : world) :
  1 <= chunkSize opts ->
  exists r' w',
    read_value opts totalSize value r w = (Normal r', w') /\
    length (buffer r') <= 2 * chunkSize opts /\
    (length (scanned value r) > 2 * chunkSize opts ->
     length (buffer r') = chunkSize opts /\
     exists dropped, scanned value r = dropped ++ buffer r') /\
    (length (scanned value r) <= 2 * chunkSize opts ->
     buffer r' = scanned value r).
Proof.
  intros Hsize.
  destruct (read_value_effect opts totalSize value r w)
    as (w' & ev & records & remaining & Hv & _).
  exists (next_reading opts value r), w'. split; [exact Hv|].
  change (buffer (next_reading opts value r))
    with (trimmed opts (scanned value r)).
  unfold trimmed.
  destruct (Z.gtb_spec (length (scanned value r)) (chunkSize opts * 2))
    as [Hlong|Hshort].
  - destruct (slice_last (scanned value r) (chunkSize opts)) as (Hlen & Hsuf);
      [lia|].
    split; [lia|]. split; [auto | lia].
  - split; [lia|]. split; [lia | reflexivity].
Qed.

(** ** The end of the stream *)

(** [getFeatureCount] returns what the engine answers. *)
Lemma getFeatureCount_asks (w : world) :
  exists w',
    getFeatureCount w = (Normal (engine_count (handle (this w)) (wasm w)), w') /\
    extends w w' [].
Proof.
  unfold getFeatureCount, engine_count, bind, get, try_catch, ret.
  destruct (handle (this w)) as [idx|].
  - destruct (get_geojson_feature_count idx (wasm w)) as [[n|error] en].
    + eexists. split; [reflexivity|].
      unfold extends; simpl. rewrite app_nil_r. auto.
    + eexists. split; [reflexivity|].
      unfold extends; simpl. rewrite app_nil_r. auto.
  - exists w. split; [reflexivity|]. apply extends_refl.
Qed.

(** The final flush and the engine it leaves. *)
Lemma flush_effect (buffer : jsstring) (w : world) :
  exists w1,
    Layer.when (truthy (trim buffer)) (processChunk buffer true) w
    = (Normal tt, w1) /\
    extends w w1 (flush_events buffer w) /\
    wasm w1 = engine_after_flush buffer w.
Proof.
  unfold Layer.when, flush_events, engine_after_flush, chunk_events.
  destruct (truthy (trim buffer)).
  - unfold processChunk, bind, get, try_catch, wasm_call, emit. simpl.
    destruct (handle (this w)) as [idx|].
    + destruct (load_geojson_chunk idx buffer true (wasm w)) as [[[]|e] en];
        simpl; eexists; (split; [reflexivity|]); unfold extends; simpl;
        rewrite <- ?app_assoc; auto.
    + exists w. split; [reflexivity|]. split; [apply extends_refl|reflexivity].
  - exists w. split; [reflexivity|]. split; [apply extends_refl|reflexivity].
Qed.

(** The end of the stream, with the count the engine gives after the
    flush. *)
Lemma read_done_counts (opts : streaming_options) (r : reading) (w : world) :
  exists w',
    read_done opts r w = (Normal tt, w') /\
    extends w w'
      (flush_events (buffer r) w
       ++ (if completeCallback opts
           then [CompleteCallback
                   (engine_count (handle (this w))
                                 (engine_after_flush (buffer r) w))
                   (totalBytes r) (Some (loadedBytes r))]
           else [])
       ++ [Resolve]).
Proof.
  unfold read_done. unfold bind at 1.
  destruct (flush_effect (buffer r) w) as (w1 & Hf & Hext1 & Hen).
  rewrite Hf. unfold bind at 1, Layer.when.
  assert (Hh : handle (this w1) = handle (this w))
    by (destruct Hext1 as (-> & _); reflexivity).
  destruct (completeCallback opts).
  - unfold bind at 1.
    destruct (getFeatureCount_asks w1) as (w2 & Hg & Hext2).
    rewrite Hg, Hh, Hen.
    match goal with
    | |- context [emit ?e w2] =>
        destruct (emit_extends e w2) as (w3 & He & Hext3); rewrite He
    end.
    destruct (emit_extends Resolve w3) as (w4 & Hr & Hext4).
    exists w4. split; [exact Hr|].
    pose proof (extends_trans _ _ _ _ _ Hext2 Hext3) as H23.
    pose proof (extends_trans _ _ _ _ _ H23 Hext4) as H24.
    exact (extends_trans _ _ _ _ _ Hext1 H24).
  - destruct (emit_extends Resolve w1) as (w4 & Hr & Hext4).
    exists w4. split; [exact Hr|].
    exact (extends_trans _ _ _ _ _ Hext1 Hext4).
Qed.

(** The reads before the end: nothing is completed or settled, and the
    stream is the end of the stream in the world they leave. *)
Lemma after_reads_effect (opts : streaming_options) (totalSize : option Z) :
  forall (values : list (list N)) (r : reading) (w : world),
  exists ev,
    extends w (after_reads opts totalSize values r w) ev /\
    filter is_complete ev = [] /\
    filter is_settlement ev = [] /\
    readChunk opts totalSize values None r w
    = read_done opts (final_reading opts values r)
                (after_reads opts totalSize values r w).
Proof.
  induction values as [|value rest IH]; intros r w.
  - exists []. split; [apply extends_refl|]. simpl.
    split; [reflexivity|]. split; [reflexivity|].
    unfold try_catch.
    destruct (read_done_counts opts r w) as (w' & Hd & _). now rewrite Hd.
  - destruct (read_value_effect opts totalSize value r w)
      as (w1 & ev1 & records & remaining & Hv & Hext1 & _ & _ & _ & Hc1 & Hs1).
    destruct (IH (next_reading opts value r) w1) as (ev2 & Hext2 & Hc2 & Hs2 & Hrun).
    exists (ev1 ++ ev2). cbn [after_reads readChunk]. rewrite Hv. simpl.
    split; [exact (extends_trans _ _ _ _ _ Hext1 Hext2)|].
    rewrite !filter_app, Hc1, Hc2, Hs1, Hs2.
    split; [reflexivity|]. split; [reflexivity|]. exact Hrun.
Qed.

(** C10.  When the stream ends, the residual buffer is handed over as
    the final record ([isFinal = true]) exactly when it has a character
    that is not white space; otherwise nothing is handed over.  In both
    cases the continuation ends normally, the completion callback (when
    one was given) is called exactly once and the promise is resolved.
    The Load Result of that call holds the accumulated [totalBytes] and
    [loadedBytes], and as [totalFeatures] the count the engine gives when
    it is asked after the flush.  The second part says the same of a
    whole healthy stream: one completion call, with the byte totals of all
    values read and the count the engine gives after the reads and the
    final flush. *)
Theorem final_flush_guard (opts : streaming_options) (r : reading)
    (w : world) :
  (exists w' ev,
     read_done opts r w = (Normal tt, w') /\
     extends w w' ev /\
     dispatched ev
     = chunk_calls (handle (this w))
         (if has_non_whitespace (buffer r) then [(buffer r, true)] else []) /\
     filter is_complete ev
     = (if completeCallback opts
        then [CompleteCallback
                (engine_count (handle (this w))
                              (engine_after_flush (buffer r) w))
                (totalBytes r) (Some (loadedBytes r))]
        else []) /\
     filter is_settlement ev = [Resolve] /\
     existsb is_failure ev = false) /\
  (forall totalSize values,
     exists w' ev,
       readChunk opts totalSize values None r w = (Normal tt, w') /\
       extends w w' ev /\
       filter is_complete ev
       = (if completeCallback opts
          then [CompleteCallback
                  (engine_count
                     (handle (this w))
                     (engine_after_flush
                        (buffer (final_reading opts values r))
                        (after_reads opts totalSize values r w)))
                  (totalBytes r + Z.of_nat (List.length (List.concat values)))
                  (Some (loadedBytes r
                         + Z.of_nat (List.length (List.concat values))))]
          else []) /\
       filter is_settlement ev = [Resolve]).
Proof.
  assert (Hdone : forall (r0 : reading) (w0 : world),
    exists w' ev,
      read_done opts r0 w0 = (Normal tt, w') /\
      extends w0 w' ev /\
      dispatched ev
      = chunk_calls (handle (this w0))
          (if has_non_whitespace (buffer r0) then [(buffer r0, true)] else []) /\
      filter is_complete ev
      = (if completeCallback opts
         then [CompleteCallback
                 (engine_count (handle (this w0))
                               (engine_after_flush (buffer r0) w0))
                 (totalBytes r0) (Some (loadedBytes r0))]
         else []) /\
      filter is_settlement ev = [Resolve] /\
      existsb is_failure ev = false).
  { intros r0 w0.
    destruct (read_done_counts opts r0 w0) as (w' & Hd & Hext).
    pose proof (flush_events_are_chunk_events (buffer r0) w0) as Hch.
    exists w'. eexists.
    split; [exact Hd|]. split; [exact Hext|].
    rewrite dispatched_app, existsb_app, !filter_app.
    rewrite dispatched_flush_events, (chunk_event_not_failure _ Hch),
      (chunk_event_not_settlement _ Hch), (chunk_event_not_complete _ Hch).
    simpl. destruct (completeCallback opts); simpl;
      rewrite ?app_nil_r; auto. }
  split; [apply Hdone|].
  intros totalSize values.
  destruct (after_reads_effect opts totalSize values r w)
    as (ev1 & Hext1 & Hc1 & Hs1 & Hrun).
  destruct (Hdone (final_reading opts values r)
                  (after_reads opts totalSize values r w))
    as (w' & ev2 & Hd & Hext2 & _ & Hc2 & Hs2 & _).
  destruct (final_reading_totals opts values r) as [Ht Hl].
  assert (Hh : handle (this (after_reads opts totalSize values r w))
               = handle (this w))
    by (destruct Hext1 as (-> & _); reflexivity).
  exists w', (ev1 ++ ev2).
  split; [rewrite Hrun; exact Hd|].
  split; [exact (extends_trans _ _ _ _ _ Hext1 Hext2)|].
  rewrite !filter_app, Hc1, Hs1, Hc2, Hs2, Hh, Ht, Hl. auto.
Qed.

(** ** Rejected records *)

(** C7, as amended.  On a stream that itself does not fail, whatever the
    engine does with the records it is handed: the operation ends
    normally and resolves, no error callback is called and nothing is
    rejected, and the records handed over are those the stream alone
    determines ([hands_over] does not mention the engine).  A record the
    engine rejects by throwing is caught in [processChunk] at that
    record and logged with [console.warn]; the error callback is not
    involved. *)
Theorem rejection_is_local (opts : streaming_options) (resp : response)
    (w : world) :
  ok resp = true ->
  body_error resp = None ->
  (exists w' ev calls,
     loadUrlStreaming opts (Fetch_response resp) w = (Normal tt, w') /\
     extends w w' ev /\
     existsb is_failure ev = false /\
     filter is_settlement ev = [Resolve] /\
     hands_over opts (body resp) (mkReading new_decoder [] 0 0) calls /\
     (forall calls',
        hands_over opts (body resp) (mkReading new_decoder [] 0 0) calls' ->
        calls' = calls) /\
     dispatched ev = chunk_calls (handle (this w)) calls) /\
  (forall chunk isFinal idx error en (w0 : world),
     handle (this w0) = Some idx ->
     load_geojson_chunk idx chunk isFinal (wasm w0) = (Thrown error, en) ->
     exists w1,
       processChunk chunk isFinal w0 = (Normal tt, w1) /\
       extends w0 w1 [Call_load_geojson_chunk idx chunk isFinal;
                      Console_warn error]).
Proof.
  intros Hok Hbody. split.
  - unfold loadUrlStreaming. rewrite Hok, Hbody.
    destruct (readChunk_effect opts (totalSize resp) (body resp)
                (mkReading new_decoder [] 0 0) w)
      as (w' & ev & n & calls & Hrun & Hext & Hover & Hd & Hf & Hs & _).
    exists w', ev, calls.
    pose proof (hands_over_deterministic _ _ _ _ Hover) as Hdet.
    auto 10.
  - intros chunk isFinal idx error en w0 Hh Hthrow.
    destruct (processChunk_effect chunk isFinal w0) as (w1 & Hp & Hext).
    exists w1. split; [exact Hp|].
    unfold chunk_events in Hext. rewrite Hh, Hthrow in Hext. exact Hext.
Qed.

End Effects.

(** ** The model at work *)

Import Sample.

Lemma backpressure_trim_witness :
  1 <= chunkSize (all_callbacks 2) /\
  exists r' w',
    read_value (all_callbacks 2) None (lit "{'a':1}") (mkReading tt [] 0 0)
               (world_of attached_layer)
    = (Normal r', w') /\
    length (buffer r') <= 2 * chunkSize (all_callbacks 2) /\
    (length (scanned (lit "{'a':1}") (mkReading tt [] 0 0))
     > 2 * chunkSize (all_callbacks 2) ->
     length (buffer r') = chunkSize (all_callbacks 2) /\
     exists dropped,
       scanned (lit "{'a':1}") (mkReading tt [] 0 0) = dropped ++ buffer r') /\
    (length (scanned (lit "{'a':1}") (mkReading tt [] 0 0))
     <= 2 * chunkSize (all_callbacks 2) ->
     buffer r' = scanned (lit "{'a':1}") (mkReading tt [] 0 0)).
Proof.
  split.
  - simpl. lia.
  - apply (backpressure_trim (all_callbacks 2) None (lit "{'a':1}")
                             (mkReading tt [] 0 0) (world_of attached_layer)).
    simpl. lia.
Defined.

(** C9, counterexample.  With [chunkSize = 0] the test
    [buffer.length > chunkSize * 2] holds for the one-character buffer,
    but [buffer.slice(-0)] is the whole buffer: after the read the buffer
    still has one character, more than [2 * chunkSize] and not its last
    [chunkSize] characters. *)
Lemma backpressure_trim_zero_chunkSize :
  fst (read_value (all_callbacks 0) None (lit "{") (mkReading tt [] 0 0)
                  (world_of attached_layer))
  = Normal (mkReading tt (lit "{") 1 1) /\
  length (lit "{") > chunkSize (all_callbacks 0) * 2 /\
  ~ length (lit "{") <= 2 * chunkSize (all_callbacks 0) /\
  length (lit "{") <> chunkSize (all_callbacks 0).
Proof.
  split; [reflexivity|].
  change (length (lit "{")) with 1.
  change (chunkSize (all_callbacks 0)) with 0.
  lia.
Qed.

Lemma rejection_is_local_witness :
  ok (mkResponse true 200 None [lit "{'a':1}{!}{'b':2}"] None) = true /\
  body_error (mkResponse true 200 None [lit "{'a':1}{!}{'b':2}"] None) = None /\
  (exists w' ev calls,
     loadUrlStreaming (all_callbacks MiB)
       (Fetch_response (mkResponse true 200 None [lit "{'a':1}{!}{'b':2}"] None))
       (world_of attached_layer)
     = (Normal tt, w') /\
     extends (world_of attached_layer) w' ev /\
     existsb is_failure ev = false /\
     filter is_settlement ev = [Resolve] /\
     hands_over (all_callbacks MiB)
       (body (mkResponse true 200 None [lit "{'a':1}{!}{'b':2}"] None))
       (mkReading new_decoder [] 0 0) calls /\
     (forall calls',
        hands_over (all_callbacks MiB)
          (body (mkResponse true 200 None [lit "{'a':1}{!}{'b':2}"] None))
          (mkReading new_decoder [] 0 0) calls' ->
        calls' = calls) /\
     dispatched ev = chunk_calls (handle (this (world_of attached_layer))) calls) /\
  (forall chunk isFinal idx error en (w0 : world Z jsstring),
     handle (this w0) = Some idx ->
     load_geojson_chunk idx chunk isFinal (wasm w0) = (Thrown error, en) ->
     exists w1,
       processChunk chunk isFinal w0 = (Normal tt, w1) /\
       extends w0 w1 [Call_load_geojson_chunk idx chunk isFinal;
                      Console_warn error]).
Proof.
  split; [reflexivity|]. split; [reflexivity|].
  apply (rejection_is_local (D := unit) (all_callbacks MiB)
           (mkResponse true 200 None [lit "{'a':1}{!}{'b':2}"] None)
           (world_of attached_layer)); reflexivity.
Defined.

(** C7, counterexample.  The engine rejects the second of three records.
    An error callback was given, and it is never called: the rejection
    shows as a console warning only.  (The records before and after are
    handed over, and the operation resolves.) *)
Lemma rejection_not_passed_to_errorCallback :
  errorCallback (all_callbacks MiB) = true /\
  log (snd (loadUrlStreaming (D := unit) (all_callbacks MiB)
              (stream_of [lit "{'a':1}{!}{'b':2}"]) (world_of attached_layer)))
  = [Call_load_geojson_chunk 0 (lit "{'a':1}") false;
     Call_load_geojson_chunk 0 (lit "{!}") false;
     Console_warn (EngineError 1);
     Call_load_geojson_chunk 0 (lit "{'b':2}") false;
     Call_load_geojson_chunk 0 (lit "{'a':1}{!}{'b':2}") true;
     Console_warn (EngineError 1);
     CompleteCallback 2 17 (Some 17);
     Resolve] /\
  filter is_error_report
    (log (snd (loadUrlStreaming (D := unit) (all_callbacks MiB)
                 (stream_of [lit "{'a':1}{!}{'b':2}"]) (world_of attached_layer))))
  = [] /\
  filter is_warning
    (log (snd (loadUrlStreaming (D := unit) (all_callbacks MiB)
                 (stream_of [lit "{'a':1}{!}{'b':2}"]) (world_of attached_layer))))
  = [Console_warn (EngineError 1); Console_warn (EngineError 1)].
Proof.
  split; [reflexivity|]. split; [reflexivity|]. split; reflexivity.
Qed.

(** C1, the code at the failing inputs.  [processStreamingBuffer] itself
    cuts the document into its two records and returns an empty
    remainder.  But [readChunk] drops that result: after the read its
    buffer is still the whole document.  So with the document in one
    fragment the end of the stream hands the whole document over once
    more, as the final record, and with the document in two fragments the
    first record is in addition handed over a second time by the second
    read: three and four calls of [load_geojson_chunk] where the document
    has two records. *)
Theorem split_fragments_dispatched_again :
  fst (processStreamingBuffer (lit "{'a':1}{'b':2}") false
                              (world_of attached_layer))
  = Normal (2, []) /\
  fst (read_value (all_callbacks MiB) None (lit "{'a':1}{'b':2}")
                  (mkReading tt [] 0 0) (world_of attached_layer))
  = Normal (mkReading tt (lit "{'a':1}{'b':2}") 14 14) /\
  dispatched
    (log (snd (loadUrlStreaming (D := unit) (all_callbacks MiB)
                 (stream_of [lit "{'a':1}{'b':2}"]) (world_of attached_layer))))
  = [(lit "{'a':1}", false); (lit "{'b':2}", false);
     (lit "{'a':1}{'b':2}", true)] /\
  dispatched
    (log (snd (loadUrlStreaming (D := unit) (all_callbacks MiB)
                 (stream_of [lit "{'a':1}"; lit "{'b':2}"])
                 (world_of attached_layer))))
  = [(lit "{'a':1}", false); (lit "{'a':1}", false); (lit "{'b':2}", false);
     (lit "{'a':1}{'b':2}", true)].
Proof.
  repeat split; reflexivity.
Qed.

End Ingestion.

(* ================================================================== *)
(** * What a computation adds to the log *)
(* ================================================================== *)

Module Growth.

Create HintDb grows.

Section Rules.

Context {E Obj : Type} `{Engine E} `{Json Obj}.

Local Abbreviation world := (world E Obj).
Local Abbreviation M := (@M E Obj).

Variable P : event -> bool.

Lemma grows_ret {A} (a : A) : grows P (ret (E := E) (Obj := Obj) a).
Proof. intros w. exists []. simpl. now rewrite app_nil_r. Qed.

Lemma grows_throw {A} (e : Err) : grows P (throw (E := E) (Obj := Obj) (A := A) e).
Proof. intros w. exists []. simpl. now rewrite app_nil_r. Qed.

Lemma grows_get : grows P (get (E := E) (Obj := Obj)).
Proof. intros w. exists []. simpl. now rewrite app_nil_r. Qed.

Lemma grows_set_this (l : layer Obj) : grows P (set_this (E := E) l).
Proof. intros w. exists []. simpl. now rewrite app_nil_r. Qed.

Lemma grows_set_slot (d : option jsstring) :
  grows P (set_slot (E := E) (Obj := Obj) d).
Proof. intros w. exists []. simpl. now rewrite app_nil_r. Qed.

Lemma grows_set_layerCount (n : option Z) :
  grows P (set_layerCount (E := E) (Obj := Obj) n).
Proof. intros w. exists []. simpl. now rewrite app_nil_r. Qed.

Lemma grows_emit (e : event) :
  P e = true -> grows P (emit (E := E) (Obj := Obj) e).
Proof. intros He w. exists [e]. simpl. now rewrite He. Qed.

Lemma grows_wasm_call {A} (e : event) (f : E -> outcome A * E) :
  P e = true -> grows P (wasm_call (Obj := Obj) e f).
Proof.
  intros He w. exists [e]. unfold wasm_call.
  destruct (f (wasm w)) as [r en]. simpl. now rewrite He.
Qed.

Lemma grows_bind {A B} (m : M A) (k : A -> M B) :
  grows P m -> (forall a, grows P (k a)) -> grows P (bind m k).
Proof.
  intros Hm Hk w. unfold bind.
  destruct (Hm w) as (ev1 & Hl1 & Hp1).
  destruct (m w) as [[a|e] w1]; simpl in Hl1.
  - destruct (Hk a w1) as (ev2 & Hl2 & Hp2).
    exists (ev1 ++ ev2).
    rewrite Hl2, Hl1, app_assoc, forallb_app, Hp1, Hp2. auto.
  - exists ev1. auto.
Qed.

Lemma grows_try_catch {A} (m : M A) (handler : Err -> M A) :
  grows P m -> (forall e, grows P (handler e)) -> grows P (try_catch m handler).
Proof.
  intros Hm Hh w. unfold try_catch.
  destruct (Hm w) as (ev1 & Hl1 & Hp1).
  destruct (m w) as [[a|e] w1]; simpl in Hl1.
  - exists ev1. auto.
  - destruct (Hh e w1) as (ev2 & Hl2 & Hp2).
    exists (ev1 ++ ev2).
    rewrite Hl2, Hl1, app_assoc, forallb_app, Hp1, Hp2. auto.
Qed.

Lemma grows_try_finally {A} (m : M A) (fin : M unit) :
  grows P m -> grows P fin -> grows P (try_finally m fin).
Proof.
  intros Hm Hf w. unfold try_finally.
  destruct (Hm w) as (ev1 & Hl1 & Hp1).
  destruct (m w) as [r w1]; simpl in Hl1.
  destruct (Hf w1) as (ev2 & Hl2 & Hp2).
  exists (ev1 ++ ev2).
  destruct (fin w1) as [[[]|e] w2]; simpl in *;
    rewrite Hl2, Hl1, app_assoc, forallb_app, Hp1, Hp2; auto.
Qed.

Lemma grows_when (b : bool) (m : M unit) :
  grows P m -> grows P (Layer.when b m).
Proof. intros Hm. destruct b; [exact Hm | apply grows_ret]. Qed.

Lemma grows_update_this (f : layer Obj -> layer Obj) :
  grows P (update_this (E := E) f).
Proof.
  unfold update_this. apply grows_bind; [apply grows_get|].
  intros w. apply grows_set_this.
Qed.

End Rules.

#[export] Hint Resolve grows_ret grows_throw grows_get grows_set_this
  grows_set_slot grows_set_layerCount grows_update_this : grows.

(** One step through the structure of a computation. *)
Ltac grows_step :=
  match goal with
  | |- grows _ (bind _ _) => apply grows_bind; [|intros ?]
  | |- grows _ (try_catch _ _) => apply grows_try_catch; [|intros ?]
  | |- grows _ (try_finally _ _) => apply grows_try_finally
  | |- grows _ (Layer.when _ _) => apply grows_when
  | |- grows _ (emit _) => apply grows_emit; reflexivity
  | |- grows _ (wasm_call _ _) => apply grows_wasm_call; reflexivity
  | |- grows _ (if ?b then _ else _) => destruct b
  | |- grows _ (match ?x with _ => _ end) => destruct x
  | |- grows _ _ => solve [auto with grows]
  end.

Ltac grows_auto := repeat grows_step.

Section Methods.

Context {E Obj : Type} `{Engine E} `{Json Obj}.

Lemma grows_updateStyle : grows is_engine_call (updateStyle (E := E) (Obj := Obj)).
Proof. unfold updateStyle. grows_auto. Qed.

Lemma grows_loadData (g : value Obj) :
  grows is_engine_call (loadData (E := E) g).
Proof.
  pose proof grows_updateStyle.
  unfold loadData. grows_auto.
Qed.

Lemma grows_addTo : grows is_engine_call (addTo (E := E) (Obj := Obj)).
Proof.
  pose proof grows_updateStyle.
  unfold addTo. grows_auto.
Qed.

Lemma grows_pendingTimer_callback :
  grows is_engine_call (pendingTimer_callback (E := E) (Obj := Obj)).
Proof.
  pose proof grows_updateStyle.
  unfold pendingTimer_callback. grows_auto.
Qed.

End Methods.

Lemma engine_calls_complete_nothing (ev : list event) :
  forallb is_engine_call ev = true ->
  filter is_complete ev = [] /\ filter is_settlement ev = [].
Proof.
  induction ev as [|e ev IH]; simpl; [auto|].
  intros He. apply andb_prop in He. destruct He as [He Hev].
  destruct (IH Hev) as [-> ->]. destruct e; simpl in *; auto; discriminate.
Qed.

End Growth.

(* ================================================================== *)
(** * Facts about deferred attachment *)
(* ================================================================== *)

Module Deferred.

Import Sample.

Lemma forwarded_app (a b : list event) :
  forwarded (a ++ b) = forwarded a ++ forwarded b.
Proof.
  induction a as [|e a IH]; simpl; [reflexivity|].
  destruct e; simpl; rewrite ?IH; reflexivity.
Qed.

(** Unfolding of the plumbing of a computation. *)
Ltac plumbing :=
  unfold bind, get, ret, throw, set_this, update_this, set_layerCount, set_slot,
    Layer.when, wasm_call, emit, try_catch, try_finally; simpl.

Section Attachment.

Context {E Obj : Type} `{Engine E} `{Json Obj}.

Local Abbreviation world := (world E Obj).

(** A layer without a map has no handle. *)
Lemma no_map_no_handle (l : layer Obj) : map l = None -> handle l = None.
Proof. unfold handle. now intros ->. Qed.

(** [loadData] on a layer that already took a payload does nothing. *)
Lemma loadData_guard (g : value Obj) (w : world) :
  dataLoaded (this w) = true -> loadData g w = (Normal tt, w).
Proof.
  intros Hloaded. unfold loadData, bind, get. simpl. now rewrite Hloaded.
Qed.

(** The first [loadData] before there is a handle stores the text and
    arms the interval. *)
Lemma loadData_defers (g : value Obj) (w : world) jsonObject text :
  dataLoaded (this w) = false ->
  map (this w) = None ->
  normalize g = (jsonObject, Some text) ->
  truthy text = true ->
  exists l,
    loadData g w
    = (Normal tt,
       mkWorld (wasm w) (_geojsonLayerCount w) (rustyleafGeoJSONData w)
               l (log w)) /\
    l = mkLayer jsonObject (options (this w)) None (layerIndex (this w))
                true (Some text) true.
Proof.
  intros Hloaded Hmap Hnorm Htext.
  unfold loadData, bind at 1, get. simpl. rewrite Hloaded, Hnorm, Htext.
  plumbing. unfold handle, with_data; simpl. rewrite Hmap. plumbing.
  destruct (_pendingTimer (this w)); plumbing;
    (eexists; split; [reflexivity|];
     unfold with_timer, with_pending; simpl; rewrite ?Hmap; reflexivity).
Qed.

(** While there is no handle the interval's callback does nothing. *)
Lemma pendingTimer_callback_waits (w : world) :
  handle (this w) = None -> pendingTimer_callback w = (Normal tt, w).
Proof.
  intros Hh. unfold pendingTimer_callback, bind, get. simpl.
  now rewrite Hh.
Qed.

(** [addTo] with a pending text: once the engine has added the layer,
    the pending text, and nothing else, is forwarded; the pending slot
    and the interval are cleared whether or not the engine accepts the
    text. *)
Lemma addTo_flushes (w : world) (text : jsstring) :
  _pendingGeoJSONText (this w) = Some text ->
  truthy text = true ->
  fst (add_geojson_layer (wasm w)) = Normal tt ->
  exists o w' ev,
    addTo w = (o, w') /\
    log w' = log w ++ ev /\
    forwarded ev = [text] /\
    _pendingGeoJSONText (this w') = None /\
    _pendingTimer (this w') = false /\
    handle (this w')
    = Some (match _geojsonLayerCount w with Some n => n | None => 0 end).
Proof.
  intros Hpending Htext Hadd.
  destruct text as [|c text]; [discriminate|].
  unfold addTo. plumbing.
  destruct (add_geojson_layer (wasm w)) as [[[]|e] en]; [|discriminate].
  simpl.
  assert (Hclose : forall (o : outcome unit) (w' : world) ev count,
    log w' = log w ++ ev ->
    forwarded ev = [c :: text] ->
    _pendingGeoJSONText (this w') = None ->
    _pendingTimer (this w') = false ->
    handle (this w') = Some count ->
    exists o0 w0 ev0,
      (o, w') = (o0, w0) /\ log w0 = log w ++ ev0 /\
      forwarded ev0 = [c :: text] /\
      _pendingGeoJSONText (this w0) = None /\
      _pendingTimer (this w0) = false /\
      handle (this w0) = Some count).
  { intros o w' ev count ? ? ? ? ?. exists o, w', ev. auto 10. }
  destruct (_geojsonLayerCount w) as [n|]; simpl; rewrite Hpending; simpl.
  - destruct (load_geojson n (c :: text) en) as [[[]|e] en1]; simpl.
    + unfold updateStyle, handle. plumbing.
      destruct (set_geojson_style n (options (this w)) en1)
        as [[[]|e'] en2]; simpl;
        destruct (_pendingTimer (this w)) eqn:Ht; simpl;
        eapply Hclose; simpl; rewrite <- ?app_assoc; simpl;
        try reflexivity; assumption.
    + destruct (_pendingTimer (this w)) eqn:Ht; simpl;
        eapply Hclose; simpl; rewrite <- ?app_assoc; simpl;
        try reflexivity; assumption.
  - destruct (load_geojson 0 (c :: text) en) as [[[]|e] en1]; simpl.
    + unfold updateStyle, handle. plumbing.
      destruct (set_geojson_style 0 (options (this w)) en1)
        as [[[]|e'] en2]; simpl;
        destruct (_pendingTimer (this w)) eqn:Ht; simpl;
        eapply Hclose; simpl; rewrite <- ?app_assoc; simpl;
        try reflexivity; assumption.
    + destruct (_pendingTimer (this w)) eqn:Ht; simpl;
        eapply Hclose; simpl; rewrite <- ?app_assoc; simpl;
        try reflexivity; assumption.
Qed.

(** ** Two requests before the handle exists *)

(** C2, as amended.  On a layer that has taken no payload yet and has no
    map, [loadData(A)] with a non-empty text stores that text as the
    pending one and arms the interval.  A following [loadData(B)] is
    stopped by the [dataLoaded] guard and changes nothing, and the
    interval's callback changes nothing while there is no handle.  When
    [addTo] then provides the handle, the text of A is the one text
    forwarded to the engine, and the pending slot and the interval are
    cleared by that first flush. *)
Theorem second_request_is_ignored (A B : value Obj) (w : world)
    jsonObject textA :
  dataLoaded (this w) = false ->
  map (this w) = None ->
  normalize A = (jsonObject, Some textA) ->
  truthy textA = true ->
  fst (add_geojson_layer (wasm w)) = Normal tt ->
  exists w1 o w3 ev,
    loadData A w = (Normal tt, w1) /\
    _pendingGeoJSONText (this w1) = Some textA /\
    _pendingTimer (this w1) = true /\
    log w1 = log w /\
    loadData B w1 = (Normal tt, w1) /\
    pendingTimer_callback w1 = (Normal tt, w1) /\
    addTo w1 = (o, w3) /\
    log w3 = log w ++ ev /\
    forwarded ev = [textA] /\
    _pendingGeoJSONText (this w3) = None /\
    _pendingTimer (this w3) = false /\
    handle (this w3) <> None.
Proof.
  intros Hloaded Hmap Hnorm Htext Hadd.
  destruct (loadData_defers A w jsonObject textA Hloaded Hmap Hnorm Htext)
    as (l & HA & Hl).
  set (w1 := mkWorld (wasm w) (_geojsonLayerCount w) (rustyleafGeoJSONData w)
                     l (log w)) in *.
  assert (Hp1 : _pendingGeoJSONText (this w1) = Some textA) by now subst l.
  destruct (addTo_flushes w1 textA Hp1 Htext Hadd)
    as (o & w3 & ev & Hto & Hlog & Hfw & Hp3 & Ht3 & Hh3).
  exists w1, o, w3, ev.
  split; [exact HA|]. split; [exact Hp1|].
  split; [now subst l|]. split; [reflexivity|].
  split; [apply loadData_guard; now subst l|].
  split; [apply pendingTimer_callback_waits, no_map_no_handle; now subst l|].
  split; [exact Hto|]. split; [exact Hlog|].
  split; [exact Hfw|]. split; [exact Hp3|]. split; [exact Ht3|].
  rewrite Hh3. discriminate.
Qed.

End Attachment.

Lemma second_request_is_ignored_witness :
  dataLoaded (this (world_of new_layer)) = false /\
  map (this (world_of new_layer)) = None /\
  normalize (VString (lit "{'a':1}"))
  = (Some (VObject (lit "{'a':1}")), Some (lit "{'a':1}")) /\
  truthy (lit "{'a':1}") = true /\
  fst (add_geojson_layer (wasm (world_of new_layer))) = Normal tt /\
  exists w1 o w3 ev,
    loadData (VString (lit "{'a':1}")) (world_of new_layer) = (Normal tt, w1) /\
    _pendingGeoJSONText (this w1) = Some (lit "{'a':1}") /\
    _pendingTimer (this w1) = true /\
    log w1 = log (world_of new_layer) /\
    loadData (VString (lit "{'b':2}")) w1 = (Normal tt, w1) /\
    pendingTimer_callback w1 = (Normal tt, w1) /\
    addTo w1 = (o, w3) /\
    log w3 = log (world_of new_layer) ++ ev /\
    forwarded ev = [lit "{'a':1}"] /\
    _pendingGeoJSONText (this w3) = None /\
    _pendingTimer (this w3) = false /\
    handle (this w3) <> None.
Proof.
  repeat (split; [reflexivity|]).
  apply (second_request_is_ignored
           (VString (lit "{'a':1}")) (VString (lit "{'b':2}"))
           (world_of new_layer)
           (Some (VObject (lit "{'a':1}"))) (lit "{'a':1}"));
    reflexivity.
Defined.

(** C2, counterexample.  Two different payloads are submitted to a new
    layer, then the layer is added to the map.  The engine is handed the
    first payload; the second, which was to replace it, is never
    forwarded. *)
Lemma later_request_does_not_overwrite :
  forwarded
    (log (snd (addTo
                 (snd (loadData (VString (lit "{'b':2}"))
                                (snd (loadData (VString (lit "{'a':1}"))
                                               (world_of new_layer))))))))
  = [lit "{'a':1}"] /\
  _pendingGeoJSONText
    (this (snd (loadData (VString (lit "{'b':2}"))
                         (snd (loadData (VString (lit "{'a':1}"))
                                        (world_of new_layer))))))
  = Some (lit "{'a':1}") /\
  lit "{'a':1}" <> lit "{'b':2}".
Proof.
  split; [reflexivity|]. split; [reflexivity|]. discriminate.
Qed.

End Deferred.

(* ================================================================== *)
(** * Facts about the dual-path loader *)
(* ================================================================== *)

Module DualPath.

Import Sample Deferred.

Section Loader.

Context {E Obj : Type} `{Engine E} `{Json Obj}.

Local Abbreviation world := (world E Obj).

(** A started operation: the flag is clear and both paths are under
    way. *)
Lemma loadFromUrl_started (opts : loading_options) (u : url) (now0 : Z)
    (w w0 : world) (ld0 : loader) :
  loadFromUrl opts u now0 w = (Normal (Some ld0), w0) ->
  ld0 = mkLoader now0 false true true /\
  rustyleafGeoJSONData w0 = rustyleafGeoJSONData w.
Proof.
  unfold loadFromUrl. plumbing.
  destruct (map (this w)); simpl.
  - destruct (load_geojson_from_url (layerIndex (this w)) u (wasm w))
      as [[[]|e] en]; simpl.
    + intros Heq. inversion Heq. auto.
    + destruct (on_error opts); simpl; discriminate.
  - destruct (on_error opts); simpl; discriminate.
Qed.

(** A run of [checkForData] past the deadline, whatever the flag and
    the slot hold: the slot is emptied, nothing is scheduled again, and
    the timeout error is raised exactly when the flag was clear. *)
Lemma checkForData_expiry (opts : loading_options) (now : Z) (ld : loader)
    (w : world) :
  now - startTime ld > TIMEOUT_MS ->
  exists w',
    checkForData opts now ld w = (Normal (unscheduled ld), w') /\
    rustyleafGeoJSONData w' = None /\
    this w' = this w /\
    log w' = log w ++ (if done ld then [] else [Reject TimeoutError]).
Proof.
  intros Hlate. unfold checkForData.
  replace (now - startTime ld >? TIMEOUT_MS) with true
    by (symmetry; apply Z.gtb_lt; lia).
  plumbing. destruct (done ld); simpl.
  - eexists. split; [reflexivity|]. simpl. rewrite app_nil_r. auto.
  - eexists. split; [reflexivity|]. simpl. auto.
Qed.

(** A run of [checkForData] within the deadline that finds the slot
    empty only schedules the next one. *)
Lemma checkForData_waits (opts : loading_options) (now : Z) (ld : loader)
    (w : world) :
  now - startTime ld <= TIMEOUT_MS ->
  truthy_text (rustyleafGeoJSONData w) = false ->
  checkForData opts now ld w = (Normal ld, w).
Proof.
  intros Hearly Hempty. unfold checkForData.
  replace (now - startTime ld >? TIMEOUT_MS) with false
    by (symmetry; rewrite Z.gtb_ltb; apply Z.ltb_ge; lia).
  plumbing.
  destruct (rustyleafGeoJSONData w) as [[|c data]|]; simpl in *;
    try reflexivity; discriminate.
Qed.

(** While neither path settles the flag stays clear, [checkForData]
    stays scheduled, and the log gains nothing but reports of the fetch
    fallback's failure. *)
Lemma unsettled_run (opts : loading_options) (now0 : Z) :
  forall (ts : list turn) (ld : loader) (w : world),
    startTime ld = now0 ->
    done ld = false ->
    checkForData_scheduled ld = true ->
    unsettled now0 (truthy_text (rustyleafGeoJSONData w)) ts = true ->
    exists ld1 w1 ev,
      run_turns opts ts ld w = (ld1, w1) /\
      startTime ld1 = now0 /\
      done ld1 = false /\
      checkForData_scheduled ld1 = true /\
      this w1 = this w /\
      log w1 = log w ++ ev /\
      forallb is_error_report ev = true.
Proof.
  induction ts as [|t ts IH]; intros ld w Hstart Hdone Hsched Hts.
  - exists ld, w, []. simpl. rewrite app_nil_r. auto 10.
  - assert (Hstep : exists ld' w' ev',
              run_turn opts t ld w = (Normal ld', w') /\
              startTime ld' = now0 /\ done ld' = false /\
              checkForData_scheduled ld' = true /\
              this w' = this w /\
              log w' = log w ++ ev' /\
              forallb is_error_report ev' = true /\
              unsettled now0 (truthy_text (rustyleafGeoJSONData w')) ts = true).
    { destruct t as [now | data | f]; simpl in Hts |- *.
      - apply andb_prop in Hts. destruct Hts as [Hts Hrest].
        apply andb_prop in Hts. destruct Hts as [Hearly Hempty].
        apply Z.leb_le in Hearly. apply negb_true_iff in Hempty.
        rewrite Hsched, checkForData_waits by (rewrite ?Hstart; assumption).
        exists ld, w, []. rewrite app_nil_r. auto 10.
      - plumbing. eexists. eexists. exists []. simpl.
        rewrite app_nil_r. auto 10.
      - destruct (fetch_pending ld).
        + destruct f as [e | [|] status text]; try discriminate;
            unfold fetch_catch; plumbing;
            destruct (on_error opts); simpl;
            eexists; eexists; eexists;
            (split; [reflexivity|]); simpl;
            repeat (split; [eassumption || reflexivity|]);
            try rewrite app_nil_r; auto.
        + destruct f as [e | [|] status text]; try discriminate;
            exists ld, w, []; simpl; rewrite app_nil_r; auto 10. }
    destruct Hstep as (ld' & w' & ev' & Hrun & Hs' & Hd' & Hc' & Ht' & Hl' & He' & Hu').
    destruct (IH ld' w' Hs' Hd' Hc' Hu')
      as (ld1 & w1 & ev & Hruns & Hs1 & Hd1 & Hc1 & Ht1 & Hl1 & He1).
    exists ld1, w1, (ev' ++ ev). simpl. rewrite Hrun.
    split; [exact Hruns|]. repeat (split; [assumption|]).
    split; [congruence|].
    split; [rewrite Hl1, Hl', app_assoc; reflexivity|].
    rewrite forallb_app, He', He1. reflexivity.
Qed.

Lemma error_reports_settle_nothing (ev : list event) :
  forallb is_error_report ev = true ->
  filter is_settlement ev = [] /\ filter is_complete ev = [].
Proof.
  induction ev as [|e ev IH]; simpl; [auto|].
  intros He. apply andb_prop in He. destruct He as [He Hev].
  destruct (IH Hev) as [-> ->]. destruct e; simpl in *; auto; discriminate.
Qed.

(** ** Timeout *)

(** C8.  An operation is started at [now0]; in the turns [ts] neither
    path settles; then [checkForData] runs at a time more than 30
    seconds after the start.  Up to that run nothing was resolved,
    rejected or completed; the run rejects the operation with the
    timeout error, leaves the handoff slot empty, whatever the slot
    held, and schedules nothing further.  The second part is the run of
    [checkForData] at that time in any state of the operation: the slot is
    emptied whatever it holds and whatever the flag says, and the timeout
    error is raised exactly when the flag is clear. *)
Theorem timeout_rejects_and_clears (opts : loading_options) (u : url)
    (now0 : Z) (w w0 : world) (ld0 : loader) (ts : list turn) (now : Z) :
  loadFromUrl opts u now0 w = (Normal (Some ld0), w0) ->
  unsettled now0 (truthy_text (rustyleafGeoJSONData w0)) ts = true ->
  now - now0 > TIMEOUT_MS ->
  (exists ld w1 ld' w' ev,
     run_turns opts ts ld0 w0 = (ld, w1) /\
     run_turn opts (Timer now) ld w1 = (Normal ld', w') /\
     log w1 = log w0 ++ ev /\
     filter is_settlement ev = [] /\
     filter is_complete ev = [] /\
     log w' = log w1 ++ [Reject TimeoutError] /\
     rustyleafGeoJSONData w' = None /\
     checkForData_scheduled ld' = false) /\
  (forall (ld : loader) (w2 : world),
     startTime ld = now0 ->
     exists w',
       checkForData opts now ld w2 = (Normal (unscheduled ld), w') /\
       rustyleafGeoJSONData w' = None /\
       log w' = log w2 ++ (if done ld then [] else [Reject TimeoutError])).
Proof.
  intros Hstart Hts Hlate.
  destruct (loadFromUrl_started _ _ _ _ _ _ Hstart) as [-> _].
  destruct (unsettled_run opts now0 ts (mkLoader now0 false true true) w0
              eq_refl eq_refl eq_refl Hts)
    as (ld & w1 & ev & Hrun & Hs & Hd & Hc & _ & Hl & He).
  split.
  - destruct (checkForData_expiry opts now ld w1)
      as (w' & Hexp & Hslot & _ & Hlog);
      [rewrite Hs; exact Hlate|].
    destruct (error_reports_settle_nothing ev He) as [Hset Hcomp].
    exists ld, w1, (unscheduled ld), w', ev.
    split; [exact Hrun|].
    split; [simpl; rewrite Hc; exact Hexp|].
    rewrite Hd in Hlog. auto 10.
  - intros ld2 w2 Hs2.
    destruct (checkForData_expiry opts now ld2 w2)
      as (w' & Hexp & Hslot & _ & Hlog);
      [rewrite Hs2; exact Hlate|].
    exists w'. auto.
Qed.

(** ** The completion callback is called at most once *)

(** The common end of both paths: the completion callback, if one was
    given, then [resolve]. *)
Lemma finish_completes (opts : loading_options) (dataLength : Z) (ld' : loader)
    (w : world) :
  exists w' ev,
    bind (Layer.when (on_complete opts)
            (bind getFeatureCount (fun n =>
               emit (CompleteCallback n dataLength None))))
         (fun _ => bind (emit Resolve) (fun _ => ret ld')) w
    = (Normal ld', w') /\
    log w' = log w ++ ev /\
    (List.length (filter is_complete ev) <= 1)%nat.
Proof.
  unfold Layer.when. destruct (on_complete opts).
  - unfold bind at 1. unfold bind at 1.
    destruct (Ingestion.getFeatureCount_effect w) as (n & w1 & Hg & Hext).
    rewrite Hg. destruct Hext as (_ & _ & _ & Hlog).
    rewrite app_nil_r in Hlog.
    eexists. eexists. split; [reflexivity|]. simpl.
    rewrite Hlog, <- app_assoc. split; [reflexivity|]. simpl. lia.
  - eexists. eexists. split; [reflexivity|]. simpl.
    split; [reflexivity|]. simpl. lia.
Qed.

(** One turn ends normally and calls the completion callback at most once;
    it calls it only if the flag was clear, and then sets the flag. *)
Lemma run_turn_completes (opts : loading_options) (t : turn) (ld : loader)
    (w : world) :
  exists ld' w' ev,
    run_turn opts t ld w = (Normal ld', w') /\
    log w' = log w ++ ev /\
    (List.length (filter is_complete ev) <= 1)%nat /\
    (done ld = true -> filter is_complete ev = [] /\ done ld' = true) /\
    (filter is_complete ev <> [] -> done ld' = true).
Proof.
  assert (Hquiet : forall ld0 (w0 : world) ev,
            log w0 = log w ++ ev -> filter is_complete ev = [] ->
            (done ld = true -> done ld0 = true) ->
            exists ld' w' ev,
              (Normal ld0, w0) = (Normal ld', w') /\
              log w' = log w ++ ev /\
              (List.length (filter is_complete ev) <= 1)%nat /\
              (done ld = true -> filter is_complete ev = [] /\ done ld' = true) /\
              (filter is_complete ev <> [] -> done ld' = true)).
  { intros ld0 w0 ev Hlog Hev Hdone. exists ld0, w0, ev.
    rewrite Hev. simpl. intuition. }
  assert (Hset : forall ld0 (w0 : world) ev,
            log w0 = log w ++ ev ->
            (List.length (filter is_complete ev) <= 1)%nat ->
            done ld = false -> done ld0 = true ->
            exists ld' w' ev,
              (Normal ld0, w0) = (Normal ld', w') /\
              log w' = log w ++ ev /\
              (List.length (filter is_complete ev) <= 1)%nat /\
              (done ld = true -> filter is_complete ev = [] /\ done ld' = true) /\
              (filter is_complete ev <> [] -> done ld' = true)).
  { intros ld0 w0 ev Hlog Hev Hd Hd0. exists ld0, w0, ev.
    intuition congruence. }
  destruct t as [now | data | f]; simpl.
  - destruct (checkForData_scheduled ld);
      [|apply (Hquiet ld w []); rewrite ?app_nil_r; auto].
    unfold checkForData.
    destruct (now - startTime ld >? TIMEOUT_MS).
    + plumbing. destruct (done ld) eqn:Hd; simpl.
      * apply (Hquiet _ _ []); simpl; rewrite ?app_nil_r; auto.
      * apply (Hquiet _ _ [Reject TimeoutError]); simpl; auto. discriminate.
    + unfold bind at 1, get.
      destruct (rustyleafGeoJSONData w) as [[|c data]|];
        try (apply (Hquiet ld w []); rewrite ?app_nil_r; now auto).
      destruct (done ld) eqn:Hd;
        [apply (Hquiet _ w []); rewrite ?app_nil_r; now auto|].
      unfold try_catch. unfold bind at 1.
      destruct (Growth.grows_loadData (VString (c :: data)) w) as (ev1 & Hl1 & Hp1).
      apply Growth.engine_calls_complete_nothing in Hp1. destruct Hp1 as [Hc1 _].
      destruct (loadData (VString (c :: data)) w) as [[[]|e] w1]; simpl in Hl1.
      * unfold bind at 1. simpl.
        match goal with
        | |- context [bind _ _ ?w2] =>
            destruct (finish_completes opts (length (c :: data))
                        (unscheduled (settled ld)) w2) as (w3 & ev3 & Hf & Hl3 & Hc3)
        end.
        rewrite Hf. simpl in Hl3.
        apply (Hset _ _ (ev1 ++ ev3)); auto.
        -- rewrite Hl3, Hl1, app_assoc. reflexivity.
        -- rewrite filter_app, Hc1. exact Hc3.
      * plumbing.
        destruct (on_error opts); simpl;
          eapply Hset; simpl; rewrite ?Hl1, <- ?app_assoc;
          try reflexivity; rewrite filter_app, Hc1; simpl; lia.
  - plumbing. apply (Hquiet _ _ []); simpl; rewrite ?app_nil_r; auto.
  - destruct (fetch_pending ld);
      [|apply (Hquiet ld w []); rewrite ?app_nil_r; auto].
    destruct f as [e | [|] status text].
    + unfold fetch_catch. plumbing.
      destruct (on_error opts); simpl.
      * apply (Hquiet _ _ [ErrorCallback e (Some Fetch_fallback_failed)]); auto.
      * apply (Hquiet _ _ []); simpl; rewrite ?app_nil_r; auto.
    + unfold fetch_then.
      destruct (done ld) eqn:Hd;
        [plumbing; apply (Hquiet _ w []); rewrite ?app_nil_r; now auto|].
      unfold bind at 1, try_catch. unfold bind at 1.
      destruct (Growth.grows_loadData (VString text) w) as (ev1 & Hl1 & Hp1).
      apply Growth.engine_calls_complete_nothing in Hp1. destruct Hp1 as [Hc1 _].
      destruct (loadData (VString text) w) as [[[]|e] w1]; simpl in Hl1.
      * destruct (finish_completes opts (length text) (settled ld) w1)
          as (w3 & ev3 & Hf & Hl3 & Hc3).
        rewrite Hf. simpl.
        apply (Hset _ _ (ev1 ++ ev3)); auto.
        -- rewrite Hl3, Hl1, app_assoc. reflexivity.
        -- rewrite filter_app, Hc1. exact Hc3.
      * unfold fetch_catch. plumbing.
        destruct (on_error opts); simpl.
        -- apply (Hset _ _ (ev1 ++ [ErrorCallback e (Some Fetch_fallback_failed)]));
             simpl; auto.
           ++ rewrite Hl1, <- app_assoc. reflexivity.
           ++ rewrite filter_app, Hc1. simpl. lia.
        -- apply (Hset _ _ ev1); simpl; auto. rewrite Hc1. simpl. lia.
    + unfold fetch_catch. plumbing.
      destruct (on_error opts); simpl.
      * apply (Hquiet _ _ [ErrorCallback (HttpError status)
                                         (Some Fetch_fallback_failed)]); auto.
      * apply (Hquiet _ _ []); simpl; rewrite ?app_nil_r; auto.
Qed.

(** However the turns fall, the completion callback is called at most once
    in the course of an operation. *)
Lemma completeCallback_at_most_once (opts : loading_options) :
  forall (ts : list turn) (ld : loader) (w : world),
  exists ld' w' ev,
    run_turns opts ts ld w = (ld', w') /\
    log w' = log w ++ ev /\
    (List.length (filter is_complete ev) <= 1)%nat /\
    (done ld = true -> filter is_complete ev = [] /\ done ld' = true).
Proof.
  induction ts as [|t ts IH]; intros ld w.
  - exists ld, w, []. simpl. rewrite app_nil_r. auto.
  - destruct (run_turn_completes opts t ld w)
      as (ld1 & w1 & ev1 & Hrun & Hl1 & Hc1 & Hd1 & Hs1).
    destruct (IH ld1 w1) as (ld' & w' & ev & Hruns & Hl & Hc & Hd).
    exists ld', w', (ev1 ++ ev). simpl. rewrite Hrun.
    split; [exact Hruns|].
    split; [rewrite Hl, Hl1, app_assoc; reflexivity|].
    rewrite filter_app, List.length_app.
    destruct (filter is_complete ev1) as [|e1 rest1] eqn:Hev1.
    + simpl. split; [exact Hc|].
      intros Hdone. destruct (Hd1 Hdone) as [_ Hdone1]. auto.
    + assert (Hdone1 : done ld1 = true) by (apply Hs1; discriminate).
      destruct (Hd Hdone1) as [Hnone Hdone']. rewrite Hnone. simpl.
      split; [simpl in Hc1; lia|].
      intros Hdone. destruct (Hd1 Hdone) as [Hcontra _]. discriminate.
Qed.

(** ** A loader with nothing scheduled *)

Lemma idle_loader (opts : loading_options) :
  forall (ts : list turn) (ld : loader) (w : world),
    checkForData_scheduled ld = false ->
    fetch_pending ld = false ->
    forallb is_loader_turn ts = true ->
    run_turns opts ts ld w = (ld, w).
Proof.
  induction ts as [|t ts IH]; intros ld w Hsched Hfetch Hts; [reflexivity|].
  simpl in Hts. apply andb_prop in Hts. destruct Hts as [Ht Hrest].
  destruct t as [now | data | f]; try discriminate; simpl;
    rewrite ?Hsched, ?Hfetch; simpl; now apply IH.
Qed.

End Loader.

(** ** The model at work *)

Lemma timeout_rejects_and_clears_witness :
  loadFromUrl both_callbacks data_url 0 (world_of attached_layer)
  = (Normal (Some started), started_world) /\
  unsettled 0 (truthy_text (rustyleafGeoJSONData started_world))
    [Timer 100; Fetch_settles (Fetch_failed (SourceError 0)); Timer 200;
     Engine_delivers (lit "{'a':1}")] = true /\
  30001 - 0 > TIMEOUT_MS /\
  (exists ld w1 ld' w' ev,
     run_turns both_callbacks
       [Timer 100; Fetch_settles (Fetch_failed (SourceError 0)); Timer 200;
        Engine_delivers (lit "{'a':1}")] started started_world = (ld, w1) /\
     run_turn both_callbacks (Timer 30001) ld w1 = (Normal ld', w') /\
     log w1 = log started_world ++ ev /\
     filter is_settlement ev = [] /\
     filter is_complete ev = [] /\
     log w' = log w1 ++ [Reject TimeoutError] /\
     rustyleafGeoJSONData w' = None /\
     checkForData_scheduled ld' = false) /\
  (forall (ld : loader) (w2 : world Z jsstring),
     startTime ld = 0 ->
     exists w',
       checkForData both_callbacks 30001 ld w2 = (Normal (unscheduled ld), w') /\
       rustyleafGeoJSONData w' = None /\
       log w' = log w2 ++ (if done ld then [] else [Reject TimeoutError])).
Proof.
  split; [reflexivity|]. split; [reflexivity|]. split; [reflexivity|].
  apply (timeout_rejects_and_clears both_callbacks data_url 0
           (world_of attached_layer) started_world started
           [Timer 100; Fetch_settles (Fetch_failed (SourceError 0)); Timer 200;
            Engine_delivers (lit "{'a':1}")] 30001);
    reflexivity.
Defined.

(** C4, the code at the failing inputs.  First run: the fetch fallback
    settles first and resolves the operation; then the engine delivers its
    payload; the next [checkForData] finds the flag set and returns at
    once, without emptying the slot and without scheduling itself again.
    The payload stays in the slot, and no later turn of this loader
    removes it.  Second run: the same with the payload delivered before the
    fetch fallback settles.  Third run: the engine's payload is picked up by
    [checkForData], but [loadData] throws on it; the clean-up after
    [loadData] is skipped, the operation is rejected, and the payload
    stays in the slot. *)
Theorem slot_keeps_payload_of_the_loser :
  loadFromUrl both_callbacks data_url 0 (world_of attached_layer)
  = (Normal (Some started), started_world) /\
  (rustyleafGeoJSONData (snd fetch_wins_then_delivery) = Some (lit "{'b':2}") /\
   filter is_settlement (log (snd fetch_wins_then_delivery)) = [Resolve] /\
   fst fetch_wins_then_delivery = mkLoader 0 true false false /\
   forall ts,
     forallb is_loader_turn ts = true ->
     run_turns both_callbacks ts (fst fetch_wins_then_delivery)
               (snd fetch_wins_then_delivery)
     = fetch_wins_then_delivery) /\
  (rustyleafGeoJSONData (snd delivery_then_fetch_wins) = Some (lit "{'b':2}") /\
   filter is_settlement (log (snd delivery_then_fetch_wins)) = [Resolve] /\
   fst delivery_then_fetch_wins = mkLoader 0 true false false /\
   forall ts,
     forallb is_loader_turn ts = true ->
     run_turns both_callbacks ts (fst delivery_then_fetch_wins)
               (snd delivery_then_fetch_wins)
     = delivery_then_fetch_wins) /\
  (rustyleafGeoJSONData (snd delivery_rejected) = Some (lit "{!}") /\
   filter is_settlement (log (snd delivery_rejected))
   = [Reject (EngineError 1)] /\
   checkForData_scheduled (fst delivery_rejected) = false).
Proof.
  split; [reflexivity|]. split; [|split].
  - split; [reflexivity|]. split; [reflexivity|]. split; [reflexivity|].
    intros ts Hts.
    rewrite (idle_loader both_callbacks ts) by (reflexivity || assumption).
    symmetry. apply surjective_pairing.
  - split; [reflexivity|]. split; [reflexivity|]. split; [reflexivity|].
    intros ts Hts.
    rewrite (idle_loader both_callbacks ts) by (reflexivity || assumption).
    symmetry. apply surjective_pairing.
  - repeat split; reflexivity.
Qed.

(** C3, the code at the failing inputs.  First run: [checkForData] runs
    past the deadline and rejects the operation with the timeout error,
    but leaves the flag clear; when the fetch fallback delivers its text
    afterwards, the text is loaded and the completion callback is called:
    the operation has failed and completed.  Second run: the fetch
    fallback delivers a text on which [loadData] throws; the flag is
    already set, the error is only reported, and the later run of
    [checkForData] past the deadline rejects nothing: the operation never
    settles. *)
Theorem settles_twice_or_never :
  loadFromUrl both_callbacks data_url 0 (world_of attached_layer)
  = (Normal (Some started), started_world) /\
  (log (snd timeout_then_fetch)
   = [Call_load_geojson_from_url (Some 0) data_url;
      Reject TimeoutError;
      Call_load_geojson 0 (lit "{'a':1}");
      Call_set_geojson_style 0 default_style;
      CompleteCallback 1 7 None;
      Resolve] /\
   fst timeout_then_fetch = mkLoader 0 true false false) /\
  (log (snd fetch_rejected_then_timeout)
   = [Call_load_geojson_from_url (Some 0) data_url;
      Call_load_geojson 0 (lit "{!}");
      ErrorCallback (EngineError 1) (Some Fetch_fallback_failed)] /\
   filter is_settlement (log (snd fetch_rejected_then_timeout)) = [] /\
   fst fetch_rejected_then_timeout = mkLoader 0 true false false).
Proof.
  repeat split; reflexivity.
Qed.

End DualPath.

(* ================================================================== *)
(** * Further facts about scanning and streaming *)
(* ================================================================== *)

Module StreamFacts.

Import JSFacts ScannerFacts Ingestion Sample.

(** X1.  Text that arrives later never moves a boundary: appending to a
    string either leaves the result of [findCompleteJsonEnd] as it is, or
    the string had no boundary and the boundary of the longer string, if
    there is one, lies in the appended part. *)
Theorem boundary_is_stable (str more : jsstring) :
  findCompleteJsonEnd (str ++ more) = findCompleteJsonEnd str \/
  (findCompleteJsonEnd str = -1 /\
   length str <= findCompleteJsonEnd (str ++ more)).
Proof.
  destruct (Z.eq_dec (findCompleteJsonEnd str) (-1)) as [Hnone|Hsome].
  - destruct (findCompleteJsonEnd_range (str ++ more)) as [Hm|Hr].
    + left. congruence.
    + destruct (Z_lt_le_dec (findCompleteJsonEnd (str ++ more)) (length str))
        as [Hin|Hout]; [|right; auto].
      exfalso.
      unfold findCompleteJsonEnd in *.
      destruct (scan 0 initial (str ++ more)) as [[i l']|] eqn:Hs; [|lia].
      apply scan_prefix in Hs; [|unfold length in Hin; lia].
      rewrite Hs in Hnone. lia.
  - left. now apply findCompleteJsonEnd_app.
Qed.

(** ** Nesting *)

(** The count stays positive through a body that does not return. *)
Lemma body_keeps_braceCount (l : locals) (c : N) :
  1 <= braceCount l ->
  snd (Scanner.body l c) = false ->
  1 <= braceCount (fst (Scanner.body l c)).
Proof.
  intros Hpos. unfold Scanner.body.
  destruct (escape l); simpl; [auto|].
  destruct (c =? backslash)%N; simpl; [auto|].
  destruct (c =? quote)%N; simpl; [auto|].
  destruct (inString l); simpl; [auto|].
  destruct (c =? lbrace)%N; simpl; [intros _; lia|].
  destruct (c =? rbrace)%N; simpl; [|auto].
  destruct (Z.eqb_spec (braceCount l - 1) 0); [discriminate | intros _; lia].
Qed.

Lemma body_return_count (l : locals) (c : N) :
  snd (Scanner.body l c) = true -> braceCount (fst (Scanner.body l c)) = 0.
Proof.
  unfold Scanner.body.
  destruct (escape l); simpl; [discriminate|].
  destruct (c =? backslash)%N; simpl; [discriminate|].
  destruct (c =? quote)%N; simpl; [discriminate|].
  destruct (inString l); simpl; [discriminate|].
  destruct (c =? lbrace)%N; simpl; [discriminate|].
  destruct (c =? rbrace)%N; simpl; [|discriminate].
  destruct (Z.eqb_spec (braceCount l - 1) 0); [auto | discriminate].
Qed.

(** X25.  In a text that starts with an opening brace the boundary is the
    brace that closes it: from the first character up to the boundary
    [braceCount] is at least 1, and the boundary brings it to 0.  The
    record that [processStreamingBuffer] cuts there is balanced, however
    deep the objects in it are nested. *)
Theorem boundary_closes_the_first_brace (rest : jsstring) (i : nat) :
  findCompleteJsonEnd (lbrace :: rest) = Z.of_nat i ->
  (forall j, (1 <= j <= i)%nat ->
             1 <= braceCount (locals_after (lbrace :: rest) j)) /\
  braceCount (locals_after (lbrace :: rest) (S i)) = 0.
Proof.
  set (str := lbrace :: rest).
  unfold findCompleteJsonEnd. pose proof (scan_from_start str) as Hscan.
  destruct (scan 0 initial str) as [[k l']|]; [|lia].
  intros Hk. apply Nat2Z.inj in Hk. subst k.
  destruct Hscan as ((c & Hc & Hret) & _ & Hfirst).
  split.
  - induction j as [|j IH]; intros Hj; [lia|].
    destruct j as [|j].
    + vm_compute. discriminate.
    + assert (Hin : (S j < List.length str)%nat).
      { apply nth_error_Some. assert (Hi : (i < List.length str)%nat)
          by (apply nth_error_Some; congruence). 
        intros Hnone. apply nth_error_None in Hnone. lia. }
      destruct (nth_error str (S j)) as [cj|] eqn:Hcj;
        [|apply nth_error_None in Hcj; lia].
      rewrite (locals_after_S _ _ _ Hcj).
      apply body_keeps_braceCount; [apply IH; lia|].
      destruct (snd (Scanner.body (locals_after str (S j)) cj)) eqn:Hr; [|reflexivity].
      exfalso. apply (Hfirst (S j)); [lia|]. exists cj. auto.
  - rewrite (locals_after_S _ _ _ Hc). now apply body_return_count.
Qed.

Lemma boundary_closes_the_first_brace_witness :
  findCompleteJsonEnd (lbrace :: lit "'a':{'b':1}}") = Z.of_nat 12 /\
  (forall j, (1 <= j <= 12)%nat ->
             1 <= braceCount (locals_after (lbrace :: lit "'a':{'b':1}}") j)) /\
  braceCount (locals_after (lbrace :: lit "'a':{'b':1}}") 13) = 0.
Proof.
  split; [reflexivity|].
  apply (boundary_closes_the_first_brace (lit "'a':{'b':1}}") 12).
  reflexivity.
Defined.
(** ** Text between objects

    The scanner passes over every character that is not a brace, a quote
    or a backslash; white space is such text, and so are the commas and
    brackets of a JSON array. *)

Lemma whitespace_is_plain (c : N) : is_whitespace c = true -> plain c = true.
Proof.
  intros Hc. unfold plain.
  destruct (N.eqb_spec c backslash) as [->|_]; [discriminate|].
  destruct (N.eqb_spec c quote) as [->|_]; [discriminate|].
  destruct (N.eqb_spec c lbrace) as [->|_]; [discriminate|].
  destruct (N.eqb_spec c rbrace) as [->|_]; [discriminate|].
  reflexivity.
Qed.

Lemma plain_is_not_structural (c : N) :
  plain c = true -> Scanner.body initial c = (initial, false).
Proof.
  unfold plain, Scanner.body. simpl.
  destruct (c =? backslash)%N; [discriminate|].
  destruct (c =? quote)%N; [discriminate|].
  destruct (c =? lbrace)%N; [discriminate|].
  destruct (c =? rbrace)%N; [discriminate|].
  reflexivity.
Qed.

Lemma scan_plain : forall (pre str : jsstring) (i0 : nat),
  plain_text pre ->
  scan i0 initial (pre ++ str) = scan (List.length pre + i0) initial str.
Proof.
  unfold plain_text.
  induction pre as [|c pre IH]; intros str i0 Hpre; simpl in *; [reflexivity|].
  apply andb_prop in Hpre. destruct Hpre as [Hc Hpre].
  rewrite (plain_is_not_structural c Hc), IH by assumption.
  f_equal. lia.
Qed.

Lemma findCompleteJsonEnd_plain (pre : jsstring) :
  plain_text pre -> findCompleteJsonEnd pre = -1.
Proof.
  intros Hpre. unfold findCompleteJsonEnd.
  rewrite <- (app_nil_r pre), scan_plain by assumption.
  reflexivity.
Qed.

Lemma findCompleteJsonEnd_after_plain (pre o more : jsstring) :
  plain_text pre ->
  0 <= findCompleteJsonEnd o ->
  findCompleteJsonEnd (pre ++ o ++ more) = length pre + findCompleteJsonEnd o.
Proof.
  intros Hpre. unfold findCompleteJsonEnd, length.
  rewrite scan_plain by assumption.
  rewrite scan_shift.
  destruct (scan 0 initial o) as [[i l']|] eqn:Hs; [|lia].
  intros _. rewrite (scan_app _ more _ _ _ Hs). lia.
Qed.

Lemma cuts_plain_document (parts : list (jsstring * jsstring))
    (trailing : jsstring) :
  Forall (fun part => plain_text (fst part) /\ complete_object (snd part)) parts ->
  plain_text trailing ->
  cuts (document parts trailing)
       (List.map (fun part => fst part ++ snd part) parts)
       trailing.
Proof.
  intros Hparts Htrail.
  induction Hparts as [|[ws o] parts [Hws [Hpos Hlast]] _ IH]; simpl.
  - constructor. now apply findCompleteJsonEnd_plain.
  - simpl in Hws, Hpos, Hlast.
    pose proof (findCompleteJsonEnd_after_plain ws o (document parts trailing)
                  Hws Hpos) as Hend.
    assert (Hcut : findCompleteJsonEnd (ws ++ o ++ document parts trailing) + 1
                   = length (ws ++ o)).
    { rewrite Hend, length_app. lia. }
    assert (Hne : findCompleteJsonEnd (ws ++ o ++ document parts trailing) <> -1).
    { pose proof (length_nonneg ws). lia. }
    replace (ws ++ o) with
      (substring (ws ++ o ++ document parts trailing) 0
         (findCompleteJsonEnd (ws ++ o ++ document parts trailing) + 1)).
    + constructor; [assumption|].
      rewrite Hcut, app_assoc, substring_from_app
        by (pose proof (length_nonneg (ws ++ o)); lia).
      rewrite substring_from_suffix by (pose proof (length_nonneg (ws ++ o)); lia).
      unfold length. rewrite Nat2Z.id, skipn_all. exact IH.
    + rewrite Hcut, app_assoc, substring_app_prefix
        by (pose proof (length_nonneg (ws ++ o)); lia).
      rewrite substring_prefix by (pose proof (length_nonneg (ws ++ o)); lia).
      unfold length. rewrite Nat2Z.id. apply firstn_all.
Qed.
Section Loop.

Context {E Obj D : Type} `{Engine E} `{Json Obj} `{TextDecoder D}.

Local Abbreviation world := (world E Obj).
Local Abbreviation reading := (@reading D).

(** X2.  [processStreamingBuffer] always returns: its [while (true)] loop
    ends after at most as many rounds as the buffer has characters, and
    nothing is thrown, whatever the engine does with the records.  The
    [processed] it returns is the number of records the scanner cuts from
    the buffer, with or without a handle; with a handle each record is
    one call of [load_geojson_chunk], with [isFinal = false] even when the
    method was called with [isFinal = true]; without one no call is made.
    The layer itself is not changed. *)
Theorem processStreamingBuffer_returns (buffer : jsstring) (isFinal : bool)
    (w : world) :
  exists records remaining w' ev,
    dispatch_loop (S (List.length buffer)) buffer 0 w
    = Some (processStreamingBuffer buffer isFinal w) /\
    processStreamingBuffer buffer isFinal w
    = (Normal (Z.of_nat (List.length records), remaining), w') /\
    cuts buffer records remaining /\
    processStreamingBuffer buffer (negb isFinal) w
    = processStreamingBuffer buffer isFinal w /\
    this w' = this w /\
    log w' = log w ++ ev /\
    dispatched ev
    = match handle (this w) with
      | Some _ => List.map (fun record => (record, false)) records
      | None => []
      end.
Proof.
  destruct (processStreamingBuffer_effect buffer isFinal w)
    as (records & remaining & w' & ev & Hloop & Hp & Hcuts & Hext & _ & Hd).
  exists records, remaining, w', ev.
  destruct Hext as (Hthis & _ & _ & Hlog).
  repeat split; auto.
Qed.

(** X3.  What [processStreamingBuffer] hands over and what it returns as
    [remaining] are the buffer, cut but not changed: on a layer with a
    handle the texts of the calls, in order, followed by [remaining] are
    the buffer.  No complete object is left in [remaining], and every
    text handed over is one complete object: its own boundary is its last
    character. *)
Theorem processStreamingBuffer_partitions (buffer : jsstring) (isFinal : bool)
    (w : world) (idx : Z) :
  handle (this w) = Some idx ->
  exists n remaining w' ev,
    processStreamingBuffer buffer isFinal w = (Normal (n, remaining), w') /\
    log w' = log w ++ ev /\
    List.concat (List.map fst (dispatched ev)) ++ remaining = buffer /\
    findCompleteJsonEnd remaining = -1 /\
    Forall (fun call => findCompleteJsonEnd (fst call) = length (fst call) - 1)
           (dispatched ev).
Proof.
  intros Hh.
  destruct (processStreamingBuffer_effect buffer isFinal w)
    as (records & remaining & w' & ev & _ & Hp & Hcuts & Hext & _ & Hd).
  destruct (cuts_partition _ _ _ Hcuts) as (Hcat & Hrem & Hall).
  exists (Z.of_nat (List.length records)), remaining, w', ev.
  destruct Hext as (_ & _ & _ & Hlog).
  rewrite Hd, Hh. simpl.
  split; [exact Hp|]. split; [exact Hlog|].
  rewrite List.map_map. simpl. rewrite List.map_id.
  split; [exact Hcat|]. split; [exact Hrem|].
  apply Forall_map. exact Hall.
Qed.

(** X4.  A buffer of complete objects with plain text before each of them
    and after the last (text without braces, quotes and backslashes: white
    space, the commas and brackets of a JSON array) is cut into exactly its
    objects: on a layer with a handle [processStreamingBuffer] makes one
    call per object, in order, and returns the number of objects.  The
    text of a call is the object with the text before it, not the object
    alone, and the text after the last object is what remains. *)
Theorem processStreamingBuffer_on_documents
    (parts : list (jsstring * jsstring)) (trailing : jsstring)
    (isFinal : bool) (w : world) (idx : Z) :
  handle (this w) = Some idx ->
  Forall (fun part => plain_text (fst part) /\ complete_object (snd part)) parts ->
  plain_text trailing ->
  exists w' ev,
    processStreamingBuffer (document parts trailing) isFinal w
    = (Normal (Z.of_nat (List.length parts), trailing), w') /\
    log w' = log w ++ ev /\
    dispatched ev
    = List.map (fun part => (fst part ++ snd part, false)) parts.
Proof.
  intros Hh Hparts Htrail.
  destruct (processStreamingBuffer_effect (document parts trailing) isFinal w)
    as (records & remaining & w' & ev & _ & Hp & Hcuts & Hext & _ & Hd).
  destruct (cuts_deterministic _ _ _
              (cuts_plain_document parts trailing Hparts Htrail)
              _ _ Hcuts) as [-> ->].
  exists w', ev. destruct Hext as (_ & _ & _ & Hlog).
  rewrite Hp, Hd, Hh, List.length_map, List.map_map. auto.
Qed.

(** X5.  Resuming is sound: if a pass of [processStreamingBuffer] over a
    buffer returns [remaining], and a second pass is made over [remaining]
    followed by further text, then the two passes together found what a
    single pass over the buffer followed by that text finds: the counts add
    up, the final remainder is the same, and on layers with a handle the
    calls of the single pass are those of the first pass followed by those
    of the second. *)
Theorem processStreamingBuffer_resumes (buffer more : jsstring)
    (f1 f2 f3 : bool) (w1 w2 w3 : world) :
  exists n1 remaining1 n2 remaining2 w1' w2' w3' ev1 ev2 ev3,
    processStreamingBuffer buffer f1 w1 = (Normal (n1, remaining1), w1') /\
    processStreamingBuffer (remaining1 ++ more) f2 w2
    = (Normal (n2, remaining2), w2') /\
    processStreamingBuffer (buffer ++ more) f3 w3
    = (Normal (n1 + n2, remaining2), w3') /\
    log w1' = log w1 ++ ev1 /\
    log w2' = log w2 ++ ev2 /\
    log w3' = log w3 ++ ev3 /\
    (forall i1 i2 i3,
       handle (this w1) = Some i1 -> handle (this w2) = Some i2 ->
       handle (this w3) = Some i3 ->
       dispatched ev3 = dispatched ev1 ++ dispatched ev2).
Proof.
  destruct (processStreamingBuffer_effect buffer f1 w1)
    as (r1 & m1 & w1' & ev1 & _ & Hp1 & Hc1 & Hx1 & _ & Hd1).
  destruct (processStreamingBuffer_effect (m1 ++ more) f2 w2)
    as (r2 & m2 & w2' & ev2 & _ & Hp2 & Hc2 & Hx2 & _ & Hd2).
  destruct (processStreamingBuffer_effect (buffer ++ more) f3 w3)
    as (r3 & m3 & w3' & ev3 & _ & Hp3 & Hc3 & Hx3 & _ & Hd3).
  destruct (cuts_deterministic _ _ _ (cuts_resume _ _ _ Hc1 _ _ _ Hc2) _ _ Hc3)
    as [-> ->].
  exists (Z.of_nat (List.length r1)), m1, (Z.of_nat (List.length r2)), m2,
    w1', w2', w3', ev1, ev2, ev3.
  destruct Hx1 as (_ & _ & _ & Hl1). destruct Hx2 as (_ & _ & _ & Hl2).
  destruct Hx3 as (_ & _ & _ & Hl3).
  split; [exact Hp1|]. split; [exact Hp2|].
  split; [rewrite Hp3, List.length_app, Nat2Z.inj_add; reflexivity|].
  split; [exact Hl1|]. split; [exact Hl2|]. split; [exact Hl3|].
  intros i1 i2 i3 H1' H2' H3'.
  rewrite Hd1, Hd2, Hd3, H1', H2', H3'. simpl. apply List.map_app.
Qed.

End Loop.

Lemma processStreamingBuffer_partitions_witness :
  handle (this (world_of attached_layer)) = Some 0 /\
  exists n remaining w' ev,
    processStreamingBuffer (lit "{'a':1}{'b'") true (world_of attached_layer)
    = (Normal (n, remaining), w') /\
    log w' = log (world_of attached_layer) ++ ev /\
    List.concat (List.map fst (dispatched ev)) ++ remaining
    = lit "{'a':1}{'b'" /\
    findCompleteJsonEnd remaining = -1 /\
    Forall (fun call => findCompleteJsonEnd (fst call) = length (fst call) - 1)
           (dispatched ev).
Proof.
  split; [reflexivity|].
  apply (processStreamingBuffer_partitions (lit "{'a':1}{'b'") true
           (world_of attached_layer) 0).
  reflexivity.
Defined.

Lemma processStreamingBuffer_on_documents_witness :
  handle (this (world_of attached_layer)) = Some 0 /\
  Forall (fun part => plain_text (fst part) /\ complete_object (snd part))
         array_parts /\
  plain_text (lit "]") /\
  exists w' ev,
    processStreamingBuffer (document array_parts (lit "]")) false
                           (world_of attached_layer)
    = (Normal (Z.of_nat (List.length array_parts), lit "]"), w') /\
    log w' = log (world_of attached_layer) ++ ev /\
    dispatched ev
    = List.map (fun part => (fst part ++ snd part, false)) array_parts.
Proof.
  assert (Hparts : Forall (fun part => plain_text (fst part) /\
                                        complete_object (snd part))
                          array_parts).
  { unfold array_parts, complete_object.
    constructor; [|constructor; [|constructor]];
      (split; [reflexivity|]; split; [vm_compute; discriminate | reflexivity]). }
  split; [reflexivity|]. split; [exact Hparts|]. split; [reflexivity|].
  apply (processStreamingBuffer_on_documents array_parts (lit "]") false
           (world_of attached_layer) 0);
    [reflexivity | exact Hparts | reflexivity].
Defined.

End StreamFacts.

(* ================================================================== *)
(** * Streams that fail, and progress reports *)
(* ================================================================== *)

Module Faults.

Import JSFacts Ingestion Sample.

Lemma no_failure_no_report (ev : list event) :
  existsb is_failure ev = false -> filter is_error_report ev = [].
Proof.
  induction ev as [|e ev IH]; simpl; [reflexivity|].
  intros Hf. apply orb_false_elim in Hf. destruct Hf as [He Hev].
  destruct e; simpl in *; try discriminate; auto.
Qed.

Lemma progress_reports_app (a b : list event) :
  progress_reports (a ++ b) = progress_reports a ++ progress_reports b.
Proof.
  induction a as [|e a IH]; simpl; [reflexivity|].
  destruct e; simpl; rewrite ?IH; reflexivity.
Qed.

Lemma chunk_event_not_progress (ev : list event) :
  forallb is_chunk_event ev = true -> progress_reports ev = [].
Proof.
  induction ev as [|e ev IH]; simpl; [reflexivity|].
  intros Hc. apply andb_prop in Hc. destruct Hc as [He Hev].
  destruct e; simpl in *; try discriminate; auto.
Qed.

Lemma chunk_calls_not_final (h : option Z) (records : list jsstring) :
  Forall (fun call : jsstring * bool => snd call = false)
         (chunk_calls h (List.map (fun record => (record, false)) records)).
Proof.
  destruct h; simpl; [|constructor].
  induction records; simpl; constructor; auto.
Qed.

Section Streams.

Context {E Obj D : Type} `{Engine E} `{Json Obj} `{TextDecoder D}.

Local Abbreviation world := (world E Obj).
Local Abbreviation reading := (@reading D).

(** The log entries of both [.catch] handlers. *)
Lemma streaming_catch_effect (opts : streaming_options) (e : Err) (w : world) :
  exists w',
    streaming_catch opts e w = (Normal tt, w') /\
    extends w w'
      ((if errorCallback opts then [ErrorCallback e None] else []) ++ [Reject e]).
Proof.
  unfold streaming_catch, Layer.when, bind.
  destruct (errorCallback opts).
  - destruct (emit_extends (ErrorCallback e None) w) as (w1 & H1' & Hx1).
    rewrite H1'.
    destruct (emit_extends (Reject e) w1) as (w2 & H2' & Hx2).
    exists w2. split; [exact H2'|].
    exact (extends_trans _ _ _ _ _ Hx1 Hx2).
  - simpl. apply emit_extends.
Qed.

(** A stream whose reads end in a rejection, next to the stream with the
    same values that ends well. *)
Lemma readChunk_broken (opts : streaming_options) (totalSize : option Z)
    (e : Err) :
  forall (values : list (list N)) (r : reading) (w : world),
  exists w' ev w_ok ev_ok,
    readChunk opts totalSize values (Some e) r w = (Normal tt, w') /\
    extends w w' ev /\
    filter is_settlement ev = [Reject e] /\
    filter is_error_report ev
    = (if errorCallback opts then [ErrorCallback e None] else []) /\
    filter is_complete ev = [] /\
    Forall (fun call => snd call = false) (dispatched ev) /\
    readChunk opts totalSize values None r w = (Normal tt, w_ok) /\
    extends w w_ok ev_ok /\
    dispatched ev_ok
    = dispatched ev
      ++ chunk_calls (handle (this w))
           (if has_non_whitespace (buffer (final_reading opts values r))
            then [(buffer (final_reading opts values r), true)] else []).
Proof.
  induction values as [|value rest IH]; intros r w.
  - simpl readChunk. unfold try_catch.
    destruct (streaming_catch_effect opts e w) as (w' & Hc & Hx).
    destruct (read_done_effect opts r w) as (w_ok & n & Hd & Hx_ok).
    rewrite Hc, Hd.
    exists w'. eexists. exists w_ok. eexists.
    split; [reflexivity|]. split; [exact Hx|].
    split; [destruct (errorCallback opts); reflexivity|].
    split; [destruct (errorCallback opts); reflexivity|].
    split; [destruct (errorCallback opts); reflexivity|].
    split; [destruct (errorCallback opts); constructor|].
    split; [reflexivity|]. split; [exact Hx_ok|].
    rewrite !dispatched_app, dispatched_flush_events.
    destruct (errorCallback opts), (completeCallback opts); simpl;
      rewrite ?app_nil_r; reflexivity.
  - simpl readChunk.
    destruct (read_value_effect opts totalSize value r w)
      as (w1 & ev1 & records & remaining & Hv & Hext1 & Hcuts & Hd1 & Hf1
          & Hc1 & Hs1).
    rewrite Hv.
    destruct (IH (next_reading opts value r) w1)
      as (w' & ev2 & w_ok & ev_ok & Hrun & Hx & Hs & Hr & Hc & Hnf & Hrun_ok
          & Hx_ok & Hd).
    exists w', (ev1 ++ ev2), w_ok, (ev1 ++ ev_ok).
    split; [exact Hrun|].
    split; [exact (extends_trans _ _ _ _ _ Hext1 Hx)|].
    rewrite !filter_app, !dispatched_app, Hs1, Hc1, Hs, Hc, Hr,
      (no_failure_no_report _ Hf1).
    split; [reflexivity|]. split; [reflexivity|]. split; [reflexivity|].
    split.
    { apply Forall_app. split; [|exact Hnf].
      rewrite Hd1. apply chunk_calls_not_final. }
    split; [exact Hrun_ok|].
    split; [exact (extends_trans _ _ _ _ _ Hext1 Hx_ok)|].
    rewrite Hd, app_assoc.
    destruct Hext1 as (Hthis & _). rewrite Hthis. reflexivity.
Qed.

(** X6.  A source that fails makes [loadUrlStreaming] fail once: whether
    the fetch rejects, the response is not [ok], or a read rejects after
    some values, the promise is rejected with that error and never
    resolved, [errorCallback] (if given) is called once with the same
    error, [completeCallback] is not called, and no record is handed over
    as the final one.  The method itself returns and leaves the layer as it
    was.  When no body was read (rejected fetch, response not [ok])
    nothing else happens. *)
Theorem failed_stream_rejects_once (opts : streaming_options) (f : fetched)
    (e : Err) (w : world) :
  failure_of f = Some e ->
  exists w' ev,
    loadUrlStreaming opts f w = (Normal tt, w') /\
    this w' = this w /\
    log w' = log w ++ ev /\
    filter is_settlement ev = [Reject e] /\
    filter is_error_report ev
    = (if errorCallback opts then [ErrorCallback e None] else []) /\
    filter is_complete ev = [] /\
    Forall (fun call => snd call = false) (dispatched ev) /\
    ((exists resp, f = Fetch_response resp /\ ok resp = true) \/
     ev = (if errorCallback opts then [ErrorCallback e None] else [])
          ++ [Reject e]).
Proof.
  intros Hfail. destruct f as [e0|resp]; simpl in Hfail.
  - injection Hfail as ->. simpl.
    destruct (streaming_catch_effect opts e w) as (w' & Hc & Hx).
    exists w'. eexists. split; [exact Hc|].
    destruct Hx as (Hthis & _ & _ & Hlog).
    split; [exact Hthis|]. split; [exact Hlog|].
    destruct (errorCallback opts); simpl; repeat split; auto.
  - simpl. destruct (ok resp) eqn:Hok.
    + rewrite Hfail.
      destruct (readChunk_broken opts (totalSize resp) e (body resp)
                  (mkReading new_decoder [] 0 0) w)
        as (w' & ev & _ & _ & Hrun & Hx & Hs & Hr & Hc & Hnf & _).
      exists w', ev. destruct Hx as (Hthis & _ & _ & Hlog).
      repeat (split; [assumption|]).
      left. exists resp. auto.
    + injection Hfail as <-.
      destruct (streaming_catch_effect opts (HttpError (status resp)) w)
        as (w' & Hc & Hx).
      exists w'. eexists. split; [exact Hc|].
      destruct Hx as (Hthis & _ & _ & Hlog).
      split; [exact Hthis|]. split; [exact Hlog|].
      destruct (errorCallback opts); simpl; repeat split; auto.
Qed.

(** X7.  Nothing is taken back when a stream breaks off: the records
    handed over before a read rejects are those that the stream with the
    same values and a good end hands over before its final flush.  The
    engine keeps the objects of the part that arrived, while the promise is
    rejected. *)
Theorem broken_stream_keeps_records (opts : streaming_options)
    (resp : response) (e : Err) (w : world) :
  ok resp = true ->
  body_error resp = Some e ->
  exists w' ev w_ok ev_ok,
    loadUrlStreaming opts (Fetch_response resp) w = (Normal tt, w') /\
    log w' = log w ++ ev /\
    filter is_settlement ev = [Reject e] /\
    loadUrlStreaming opts (Fetch_response (healthy resp)) w
    = (Normal tt, w_ok) /\
    log w_ok = log w ++ ev_ok /\
    filter is_settlement ev_ok = [Resolve] /\
    dispatched ev_ok
    = dispatched ev
      ++ chunk_calls (handle (this w))
           (let last :=
              buffer (final_reading opts (body resp)
                                    (mkReading new_decoder [] 0 0)) in
            if has_non_whitespace last then [(last, true)] else []).
Proof.
  intros Hok Herr. simpl. rewrite Hok, Herr.
  destruct (readChunk_broken opts (totalSize resp) e (body resp)
              (mkReading new_decoder [] 0 0) w)
    as (w' & ev & w_ok & ev_ok & Hrun & Hx & Hs & _ & _ & _ & Hrun_ok & Hx_ok
        & Hd).
  destruct (readChunk_effect opts (totalSize resp) (body resp)
              (mkReading new_decoder [] 0 0) w)
    as (w2 & ev2 & _ & _ & Hrun2 & Hx2 & _ & _ & _ & Hs2 & _).
  exists w', ev, w_ok, ev_ok.
  destruct Hx as (_ & _ & _ & Hlog). destruct Hx_ok as (_ & _ & _ & Hlog_ok).
  split; [exact Hrun|]. split; [exact Hlog|]. split; [exact Hs|].
  split; [exact Hrun_ok|]. split; [exact Hlog_ok|].
  split; [|exact Hd].
  rewrite Hrun_ok in Hrun2. injection Hrun2 as <-.
  destruct Hx2 as (_ & _ & _ & Hlog2). rewrite Hlog_ok in Hlog2.
  apply app_inv_head in Hlog2. subst ev2. exact Hs2.
Qed.

(** One read reports progress once or not at all. *)
Lemma read_value_progress (opts : streaming_options) (totalSize : option Z)
    (value : list N) (r : reading) (w : world) :
  exists w' ev,
    read_value opts totalSize value r w
    = (Normal (next_reading opts value r), w') /\
    log w' = log w ++ ev /\
    progress_reports ev
    = match totalSize with
      | Some total =>
          if progressCallback opts && negb (total =? 0)
          then [(loadedBytes r + Z.of_nat (List.length value), total)]
          else []
      | None => []
      end.
Proof.
  unfold read_value, next_reading, scanned, trimmed.
  destruct (decode (decoder r) value) as [chunk decoder'] eqn:Hdec. simpl.
  unfold bind at 1.
  destruct (processStreamingBuffer_effect (buffer r ++ chunk) false w)
    as (records & remaining & w1 & ev1 & _ & Hp & _ & Hext1 & Hch & _).
  rewrite Hp. unfold bind at 1.
  destruct Hext1 as (_ & _ & _ & Hlog1).
  destruct totalSize as [total|].
  - unfold Layer.when.
    destruct (progressCallback opts && negb (total =? 0)).
    + unfold bind at 1.
      destruct (getFeatureCount_effect w1) as (n & w2 & Hg & Hext2).
      rewrite Hg. destruct Hext2 as (_ & _ & _ & Hlog2).
      eexists. exists (ev1 ++ [ProgressCallback
                                (loadedBytes r + Z.of_nat (List.length value))
                                total
                                (round_percentage
                                   (loadedBytes r + Z.of_nat (List.length value))
                                   total) n]).
      split; [reflexivity|]. simpl.
      rewrite Hlog2, Hlog1, app_nil_r, app_assoc. split; [reflexivity|].
      rewrite progress_reports_app, (chunk_event_not_progress _ Hch).
      reflexivity.
    + exists w1, ev1. split; [reflexivity|]. split; [exact Hlog1|].
      apply chunk_event_not_progress, Hch.
  - exists w1, ev1. split; [reflexivity|]. split; [exact Hlog1|].
    apply chunk_event_not_progress, Hch.
Qed.

Lemma readChunk_progress (opts : streaming_options) (totalSize : option Z)
    (ending : option Err) :
  forall (values : list (list N)) (r : reading) (w : world),
  exists w' ev,
    readChunk opts totalSize values ending r w = (Normal tt, w') /\
    log w' = log w ++ ev /\
    progress_reports ev
    = match totalSize with
      | Some total =>
          if progressCallback opts && negb (total =? 0)
          then List.map (fun loaded => (loaded, total))
                        (running (loadedBytes r) values)
          else []
      | None => []
      end.
Proof.
  induction values as [|value rest IH]; intros r w.
  - simpl readChunk. destruct ending as [e|].
    + destruct (streaming_catch_effect opts e w) as (w' & Hc & Hx).
      exists w'. eexists. split; [exact Hc|].
      destruct Hx as (_ & _ & _ & Hlog). split; [exact Hlog|].
      destruct (errorCallback opts), totalSize as [total|]; simpl;
        try destruct (progressCallback opts && negb (total =? 0)); reflexivity.
    + unfold try_catch.
      destruct (read_done_effect opts r w) as (w' & n & Hd & Hx).
      rewrite Hd. exists w'. eexists. split; [reflexivity|].
      destruct Hx as (_ & _ & _ & Hlog). split; [exact Hlog|].
      rewrite progress_reports_app,
        (chunk_event_not_progress _ (flush_events_are_chunk_events _ _)).
      destruct (completeCallback opts), totalSize as [total|]; simpl;
        try destruct (progressCallback opts && negb (total =? 0)); reflexivity.
  - simpl readChunk.
    destruct (read_value_progress opts totalSize value r w)
      as (w1 & ev1 & Hv & Hlog1 & Hp1).
    rewrite Hv.
    destruct (IH (next_reading opts value r) w1)
      as (w' & ev2 & Hrun & Hlog2 & Hp2).
    exists w', (ev1 ++ ev2). split; [exact Hrun|].
    split; [rewrite Hlog2, Hlog1, app_assoc; reflexivity|].
    rewrite progress_reports_app, Hp1, Hp2.
    destruct totalSize as [total|]; [|reflexivity].
    destruct (progressCallback opts && negb (total =? 0)); reflexivity.
Qed.

(** X8.  Progress is reported only against a known size: when the response
    has no Content-Length, or a Content-Length of 0, [progressCallback] is
    never called, however much is read; otherwise, on a response that is
    [ok], it is called once per value read, with the number of bytes
    read so far, that value included, and the Content-Length as [total].  This holds for streams that end
    well and for streams that break off. *)
Theorem progress_needs_content_length (opts : streaming_options)
    (resp : response) (w : world) :
  exists w' ev,
    loadUrlStreaming opts (Fetch_response resp) w = (Normal tt, w') /\
    log w' = log w ++ ev /\
    progress_reports ev
    = match totalSize resp with
      | Some total =>
          if ok resp && progressCallback opts && negb (total =? 0)
          then List.map (fun loaded => (loaded, total)) (running 0 (body resp))
          else []
      | None => []
      end.
Proof.
  simpl. destruct (ok resp); simpl.
  - exact (readChunk_progress opts (totalSize resp) (body_error resp)
             (body resp) (mkReading new_decoder [] 0 0) w).
  - destruct (streaming_catch_effect opts (HttpError (status resp)) w)
      as (w' & Hc & Hx).
    exists w'. eexists. split; [exact Hc|].
    destruct Hx as (_ & _ & _ & Hlog). split; [exact Hlog|].
    destruct (errorCallback opts), (totalSize resp); reflexivity.
Qed.

(** While the text fits into twice [chunkSize] the buffer is never
    trimmed: it is all the text read so far. *)
Lemma final_reading_buffer (opts : streaming_options) :
  forall (values : list (list N)) (r : reading),
    length (buffer r ++ decoded (decoder r) values) <= 2 * chunkSize opts ->
    buffer (final_reading opts values r)
    = buffer r ++ decoded (decoder r) values.
Proof.
  induction values as [|value rest IH]; intros r Hfits.
  - simpl. now rewrite app_nil_r.
  - change (final_reading opts (value :: rest) r)
      with (final_reading opts rest (next_reading opts value r)).
    cbn [decoded] in *.
    assert (Hnext : buffer (next_reading opts value r)
                    = buffer r ++ fst (decode (decoder r) value)).
    { change (buffer (next_reading opts value r))
        with (trimmed opts (scanned value r)).
      unfold trimmed, scanned.
      rewrite app_assoc, length_app in Hfits.
      pose proof (length_nonneg (decoded (snd (decode (decoder r) value)) rest)).
      destruct (Z.gtb_spec (length (buffer r ++ fst (decode (decoder r) value)))
                           (chunkSize opts * 2)); [lia | reflexivity]. }
    rewrite IH; rewrite Hnext; simpl; rewrite <- app_assoc; auto.
Qed.

(** X26.  The end of a stream hands the whole body over once more.  When
    the text of the body fits into twice [chunkSize], so that the buffer is
    never trimmed, the chunks handed over by a stream that ends well are
    the records of the reads, none of them final, followed by one final
    chunk that is the entire text of the body (unless that is white space
    only): the buffer is not shortened by what the reads found in it. *)
Theorem final_chunk_is_the_whole_body (opts : streaming_options)
    (resp : response) (w : world) :
  ok resp = true ->
  body_error resp = None ->
  length (decoded new_decoder (Layer.body resp)) <= 2 * chunkSize opts ->
  exists w' ev calls,
    loadUrlStreaming opts (Fetch_response resp) w = (Normal tt, w') /\
    log w' = log w ++ ev /\
    Forall (fun call => snd call = false) calls /\
    dispatched ev
    = calls
      ++ chunk_calls (handle (this w))
           (let text := decoded new_decoder (Layer.body resp) in
            if has_non_whitespace text then [(text, true)] else []).
Proof.
  intros Hok Hend Hfits. simpl. rewrite Hok, Hend.
  destruct (readChunk_broken opts (totalSize resp) TypeError (Layer.body resp)
              (mkReading new_decoder [] 0 0) w)
    as (_ & ev & w_ok & ev_ok & _ & _ & _ & _ & _ & Hnf & Hrun & Hx & Hd).
  exists w_ok, ev_ok, (dispatched ev).
  destruct Hx as (_ & _ & _ & Hlog).
  split; [exact Hrun|]. split; [exact Hlog|]. split; [exact Hnf|].
  rewrite Hd, (final_reading_buffer opts (Layer.body resp)
                 (mkReading new_decoder [] 0 0) Hfits).
  reflexivity.
Qed.

End Streams.

Lemma failed_stream_rejects_once_witness :
  failure_of (Fetch_response broken_response) = Some (SourceError 1) /\
  exists w' ev,
    loadUrlStreaming (D := unit) (all_callbacks MiB)
                     (Fetch_response broken_response) (world_of attached_layer)
    = (Normal tt, w') /\
    this w' = this (world_of attached_layer) /\
    log w' = log (world_of attached_layer) ++ ev /\
    filter is_settlement ev = [Reject (SourceError 1)] /\
    filter is_error_report ev
    = (if errorCallback (all_callbacks MiB)
       then [ErrorCallback (SourceError 1) None] else []) /\
    filter is_complete ev = [] /\
    Forall (fun call => snd call = false) (dispatched ev) /\
    ((exists resp, Fetch_response broken_response = Fetch_response resp /\
                   ok resp = true) \/
     ev = (if errorCallback (all_callbacks MiB)
           then [ErrorCallback (SourceError 1) None] else [])
          ++ [Reject (SourceError 1)]).
Proof.
  split; [reflexivity|].
  apply (failed_stream_rejects_once (D := unit) (all_callbacks MiB)
           (Fetch_response broken_response) (SourceError 1)
           (world_of attached_layer)).
  reflexivity.
Defined.

Lemma broken_stream_keeps_records_witness :
  ok broken_response = true /\
  body_error broken_response = Some (SourceError 1) /\
  exists w' ev w_ok ev_ok,
    loadUrlStreaming (D := unit) (all_callbacks MiB)
                     (Fetch_response broken_response) (world_of attached_layer)
    = (Normal tt, w') /\
    log w' = log (world_of attached_layer) ++ ev /\
    filter is_settlement ev = [Reject (SourceError 1)] /\
    loadUrlStreaming (D := unit) (all_callbacks MiB)
                     (Fetch_response (healthy broken_response))
                     (world_of attached_layer)
    = (Normal tt, w_ok) /\
    log w_ok = log (world_of attached_layer) ++ ev_ok /\
    filter is_settlement ev_ok = [Resolve] /\
    dispatched ev_ok
    = dispatched ev
      ++ chunk_calls (handle (this (world_of attached_layer)))
           (let last :=
              buffer (final_reading (all_callbacks MiB)
                                    (Layer.body broken_response)
                                    (mkReading new_decoder [] 0 0)) in
            if has_non_whitespace last then [(last, true)] else []).
Proof.
  split; [reflexivity|]. split; [reflexivity|].
  apply (broken_stream_keeps_records (D := unit) (all_callbacks MiB)
           broken_response (SourceError 1) (world_of attached_layer));
    reflexivity.
Defined.

Lemma final_chunk_is_the_whole_body_witness :
  ok (mkResponse true 200 None [lit "{'a':1}"; lit "{'b':2}"] None) = true /\
  body_error (mkResponse true 200 None [lit "{'a':1}"; lit "{'b':2}"] None)
  = None /\
  length (decoded (D := unit) new_decoder
            (Layer.body (mkResponse true 200 None
                           [lit "{'a':1}"; lit "{'b':2}"] None)))
  <= 2 * chunkSize (all_callbacks MiB) /\
  exists w' ev calls,
    loadUrlStreaming (D := unit) (all_callbacks MiB)
      (Fetch_response (mkResponse true 200 None [lit "{'a':1}"; lit "{'b':2}"]
                                  None))
      (world_of attached_layer)
    = (Normal tt, w') /\
    log w' = log (world_of attached_layer) ++ ev /\
    Forall (fun call => snd call = false) calls /\
    dispatched ev
    = calls
      ++ chunk_calls (handle (this (world_of attached_layer)))
           (let text :=
              decoded (D := unit) new_decoder
                (Layer.body (mkResponse true 200 None
                               [lit "{'a':1}"; lit "{'b':2}"] None)) in
            if has_non_whitespace text then [(text, true)] else []).
Proof.
  split; [reflexivity|]. split; [reflexivity|].
  split; [vm_compute; discriminate|].
  apply (final_chunk_is_the_whole_body (D := unit) (all_callbacks MiB)
           (mkResponse true 200 None [lit "{'a':1}"; lit "{'b':2}"] None)
           (world_of attached_layer));
    [reflexivity | reflexivity | vm_compute; discriminate].
Defined.

End Faults.

(* ================================================================== *)
(** * The other methods of the layer *)
(* ================================================================== *)

Module LayerFacts.

Import JSFacts Ingestion Growth Deferred Sample SampleRest.

Section Methods.

Context {E Obj : Type} `{Engine E} `{Json Obj} `{ClearingEngine E}.

Local Abbreviation world := (world E Obj).

(** Without a handle the methods that talk to the engine do nothing. *)
Lemma processChunk_idle (chunk : jsstring) (isFinal : bool) (w : world) :
  handle (this w) = None -> processChunk chunk isFinal w = (Normal tt, w).
Proof. intros Hh. unfold processChunk, bind, get. simpl. now rewrite Hh. Qed.

Lemma updateStyle_idle (w : world) :
  handle (this w) = None -> updateStyle w = (Normal tt, w).
Proof. intros Hh. unfold updateStyle, bind, get. simpl. now rewrite Hh. Qed.

Lemma getFeatureCount_idle (w : world) :
  handle (this w) = None -> getFeatureCount w = (Normal 0, w).
Proof. intros Hh. unfold getFeatureCount, bind, get. simpl. now rewrite Hh. Qed.

Lemma addFeature_idle (feature : value Obj) (w : world) :
  handle (this w) = None -> addFeature feature w = (Normal tt, w).
Proof. intros Hh. unfold addFeature, bind, get. simpl. now rewrite Hh. Qed.

Lemma addFeatures_idle (features : list (value Obj)) (w : world) :
  handle (this w) = None -> addFeatures features w = (Normal tt, w).
Proof.
  intros Hh. induction features as [|feature rest IH]; simpl; [reflexivity|].
  unfold bind. now rewrite addFeature_idle.
Qed.

Lemma dispatch_loop_idle (w : world) :
  handle (this w) = None ->
  forall (fuel : nat) (buffer : jsstring) (processed : Z),
    match dispatch_loop fuel buffer processed w with
    | Some (_, w') => w' = w
    | None => True
    end.
Proof.
  intros Hh. induction fuel as [|fuel IH]; intros buffer processed; simpl;
    [exact I|].
  destruct (findCompleteJsonEnd buffer =? -1); [reflexivity|].
  rewrite processChunk_idle by assumption. apply IH.
Qed.

(** One [addFeature]: the text of the feature goes to the engine as a
    chunk that is not final; a feature without a text is a warning. *)
Lemma addFeature_effect (feature : value Obj) (w : world) :
  exists w' ev,
    addFeature feature w = (Normal tt, w') /\
    extends w w' ev /\
    forallb is_chunk_event ev = true /\
    dispatched ev
    = chunk_calls (handle (this w))
        (match feature_text feature with
         | Some s => [(s, false)]
         | None => []
         end).
Proof.
  destruct (handle (this w)) as [idx|] eqn:Hh.
  - unfold addFeature, bind at 1, get. simpl. rewrite Hh.
    unfold try_catch, bind.
    destruct feature as [s|o]; simpl.
    + destruct (processChunk_effect s false w) as (w' & Hp & Hx).
      unfold ret. rewrite Hp. exists w'. eexists.
      split; [reflexivity|]. split; [exact Hx|].
      split; [apply chunk_events_are_chunk_events|].
      rewrite dispatched_chunk_events, Hh. reflexivity.
    + destruct (JSON_stringify o) as [s|].
      * destruct (processChunk_effect s false w) as (w' & Hp & Hx).
        unfold ret. rewrite Hp. exists w'. eexists.
        split; [reflexivity|]. split; [exact Hx|].
        split; [apply chunk_events_are_chunk_events|].
        rewrite dispatched_chunk_events, Hh. reflexivity.
      * unfold throw.
        destruct (emit_extends (Console_warn TypeError) w) as (w' & He & Hx).
        exists w', [Console_warn TypeError]. auto.
  - rewrite addFeature_idle by assumption.
    exists w, []. split; [reflexivity|]. split; [apply extends_refl|].
    auto.
Qed.

(** X9.  [addFeatures] hands every feature to the engine on its own, as a
    chunk that is not final: strings as they are, other values as their
    JSON text, in the order of the array.  Nothing stops it: a feature the
    engine rejects, or one that has no JSON text, leaves a warning and the
    features after it are still handed over; the method returns, and the
    layer (its [geojson] included) is not changed.  On a layer without a
    handle it does nothing at all. *)
Theorem addFeatures_hands_over_each (features : list (value Obj)) (w : world) :
  exists w' ev,
    addFeatures features w = (Normal tt, w') /\
    this w' = this w /\
    log w' = log w ++ ev /\
    forallb is_chunk_event ev = true /\
    dispatched ev
    = chunk_calls (handle (this w))
        (List.map (fun s => (s, false)) (feature_texts features)) /\
    (handle (this w) = None -> w' = w).
Proof.
  revert w. induction features as [|feature rest IH]; intros w.
  - exists w, []. simpl. rewrite app_nil_r.
    destruct (handle (this w)); auto 10.
  - simpl addFeatures. unfold bind.
    destruct (addFeature_effect feature w)
      as (w1 & ev1 & Ha & Hx1 & Hc1 & Hd1).
    rewrite Ha.
    destruct (IH w1) as (w' & ev2 & Hrest & Hthis & Hlog & Hc2 & Hd2 & Hidle).
    destruct Hx1 as (Hthis1 & _ & _ & Hlog1).
    exists w', (ev1 ++ ev2).
    split; [exact Hrest|].
    split; [congruence|].
    split; [rewrite Hlog, Hlog1, app_assoc; reflexivity|].
    split; [rewrite forallb_app, Hc1, Hc2; reflexivity|].
    split.
    + rewrite dispatched_app, Hd1, Hd2, Hthis1, <- chunk_calls_app.
      f_equal. simpl. destruct (feature_text feature); reflexivity.
    + intros Hh. rewrite Hidle by congruence.
      rewrite addFeature_idle in Ha by assumption. congruence.
Qed.


(** X10.  [setStyle] merges the given keys into [this.options] before it
    talks to the engine, and the merged options stay even when the engine
    throws, which [setStyle] lets escape.  The engine gets the merged
    style, once, when the layer has a handle; on a layer without one no
    call is made and the style is only kept. *)
Theorem setStyle_keeps_the_style (p : style_patch) (w : world) :
  exists r w',
    setStyle p w = (r, w') /\
    this w' = with_options (this w) (assign (options (this w)) p) /\
    log w'
    = log w ++ match handle (this w) with
               | Some idx =>
                   [Call_set_geojson_style idx (assign (options (this w)) p)]
               | None => []
               end /\
    r = match handle (this w) with
        | Some idx =>
            fst (set_geojson_style idx (assign (options (this w)) p) (wasm w))
        | None => Normal tt
        end.
Proof.
  destruct w as [en c slot [g o m i d pe t] l].
  unfold setStyle, updateStyle. plumbing. unfold handle. simpl.
  destruct m as [m|]; simpl.
  - destruct i as [idx|]; simpl.
    + destruct (set_geojson_style idx (assign o p) en) as [r en'].
      eexists. eexists. split; [reflexivity|]. simpl. auto.
    + eexists. eexists. split; [reflexivity|]. simpl.
      rewrite app_nil_r. auto.
  - eexists. eexists. split; [reflexivity|]. simpl.
    rewrite app_nil_r. auto.
Qed.

(** X11.  [remove] only forgets the map.  The engine is not told: no call
    is made, the index of the layer and the map's counter stay, and so do
    the data of the layer.  From then on the layer has no handle:
    [processChunk], [updateStyle], [addFeatures] and the scanning of a
    buffer reach the engine no more, and [getFeatureCount] is 0. *)
Theorem remove_only_detaches (w : world) :
  exists w',
    remove w = (Normal tt, w') /\
    this w' = with_map (this w) None /\
    wasm w' = wasm w /\
    _geojsonLayerCount w' = _geojsonLayerCount w /\
    log w' = log w /\
    (forall chunk isFinal, processChunk chunk isFinal w' = (Normal tt, w')) /\
    updateStyle w' = (Normal tt, w') /\
    (forall features, addFeatures features w' = (Normal tt, w')) /\
    getFeatureCount w' = (Normal 0, w') /\
    (forall buffer isFinal, snd (processStreamingBuffer buffer isFinal w') = w').
Proof.
  assert (Hidle : forall w' : world, map (this w') = None ->
    (forall chunk isFinal, processChunk chunk isFinal w' = (Normal tt, w')) /\
    updateStyle w' = (Normal tt, w') /\
    (forall features, addFeatures features w' = (Normal tt, w')) /\
    getFeatureCount w' = (Normal 0, w') /\
    (forall buffer isFinal, snd (processStreamingBuffer buffer isFinal w') = w')).
  { intros w' Hmap. pose proof (no_map_no_handle _ Hmap) as Hh.
    split; [intros; now apply processChunk_idle|].
    split; [now apply updateStyle_idle|].
    split; [intros; now apply addFeatures_idle|].
    split; [now apply getFeatureCount_idle|].
    intros buffer isFinal. unfold processStreamingBuffer.
    pose proof (dispatch_loop_idle w' Hh (S (List.length buffer)) buffer 0)
      as Hloop.
    destruct (dispatch_loop (S (List.length buffer)) buffer 0 w')
      as [[r w2]|]; simpl; auto. }
  unfold remove. plumbing.
  destruct (map (this w)) as [m|] eqn:Hm; simpl.
  - eexists. split; [reflexivity|]. simpl.
    repeat (split; [reflexivity|]). apply Hidle. reflexivity.
  - exists w. split; [reflexivity|].
    split; [destruct w as [en c s [g o m i d p t] l]; simpl in *; now subst|].
    repeat (split; [reflexivity|]). apply Hidle. assumption.
Qed.


(** X12.  [addTo] numbers the layers itself: the engine's
    [add_geojson_layer] is called first and returns no index; the layer
    takes the value of the map's counter as its index (0 when the counter
    is not a number yet) and the counter moves on by one, also when the
    forwarding that follows throws.  What is forwarded to [load_geojson],
    at that index, is the pending text if there is one and else the text of
    [this.geojson]; a layer without data forwards nothing and sends no
    style either.  If [add_geojson_layer] throws, the exception escapes
    with the map already set, and index and counter as they were. *)
Theorem addTo_takes_the_next_index (w : world) :
  exists r w' ev,
    addTo w = (r, w') /\
    log w' = log w ++ Call_add_geojson_layer :: ev /\
    map (this w') = Some theMap /\
    match fst (add_geojson_layer (wasm w)) with
    | Thrown e =>
        r = Thrown e /\ ev = [] /\
        layerIndex (this w') = layerIndex (this w) /\
        _geojsonLayerCount w' = _geojsonLayerCount w
    | Normal _ =>
        layerIndex (this w') = Some (next_index w) /\
        _geojsonLayerCount w' = Some (next_index w + 1) /\
        loads ev
        = match text_to_forward (this w) with
          | Some text => [(next_index w, text)]
          | None => []
          end /\
        (styles_sent ev = [] \/
         styles_sent ev = [(next_index w, options (this w))]) /\
        (loads ev = [] -> ev = [])
    end.
Proof.
  destruct w as [en c slot [g o m i d pe t] l].
  unfold addTo, next_index, text_to_forward, updateStyle, handle. plumbing.
  destruct (add_geojson_layer en) as [[[]|e] en1]; simpl.
  2: { eexists. eexists. exists []. split; [reflexivity|]. simpl. auto 10. }
  assert (Hshape : forall (r : outcome unit) (w' : world) (ev : list event) n
                          (forward : list (Z * jsstring)),
    log w' = l ++ Call_add_geojson_layer :: ev ->
    map (this w') = Some theMap ->
    layerIndex (this w') = Some n ->
    _geojsonLayerCount w' = Some (n + 1) ->
    loads ev = forward ->
    (styles_sent ev = [] \/ styles_sent ev = [(n, o)]) ->
    (loads ev = [] -> ev = []) ->
    exists r0 w0 ev0,
      (r, w') = (r0, w0) /\
      log w0 = l ++ Call_add_geojson_layer :: ev0 /\
      map (this w0) = Some theMap /\
      layerIndex (this w0) = Some n /\
      _geojsonLayerCount w0 = Some (n + 1) /\
      loads ev0 = forward /\
      (styles_sent ev0 = [] \/ styles_sent ev0 = [(n, o)]) /\
      (loads ev0 = [] -> ev0 = [])).
  { intros r w' ev n forward ? ? ? ? ? ? ?. exists r, w', ev. auto 10. }
  assert (Hlog : forall more : list event,
    (l ++ [Call_add_geojson_layer]) ++ more
    = l ++ Call_add_geojson_layer :: more).
  { intros more. rewrite <- app_assoc. reflexivity. }
  assert (Hlog2 : forall a b : event,
    ((l ++ [Call_add_geojson_layer]) ++ [a]) ++ [b]
    = l ++ Call_add_geojson_layer :: [a; b]).
  { intros a b. rewrite <- !app_assoc. reflexivity. }
  destruct c as [n|]; simpl;
    (destruct pe as [[|ch text]|]; simpl;
     [ | | ]).
  all: try (destruct g as [[s|ob]|]; simpl).
  all: repeat match goal with
       | |- context [truthy ?s] => destruct (truthy s) eqn:?; simpl
       | |- context [truthy_obj ?s] => destruct (truthy_obj s) eqn:?; simpl
       | |- context [JSON_stringify ?s] => destruct (JSON_stringify s) eqn:?; simpl
       | |- context [load_geojson ?a ?b ?c] =>
           destruct (load_geojson a b c) as [[[]|?] ?]; simpl
       | |- context [set_geojson_style ?a ?b ?c] =>
           destruct (set_geojson_style a b c) as [[[]|?] ?]; simpl
       | |- context [if ?b then _ else _] => destruct b; simpl
       end.
  all: try (eapply Hshape; simpl; rewrite ?Hlog2, ?Hlog, ?app_nil_r;
            first [reflexivity | discriminate | auto]).
Qed.


(** X13.  At most the first [loadData] of a layer has an effect.  The call
    sets [dataLoaded] before it talks to the engine, so whatever it was
    given and however it ended (the string did not parse, the text was
    empty, [load_geojson] threw and the exception escaped), every later
    [loadData] returns at once and changes nothing.  One call forwards at
    most one text. *)
Theorem loadData_only_once (g g' : value Obj) (w : world) :
  exists r w' ev,
    loadData g w = (r, w') /\
    dataLoaded (this w') = true /\
    log w' = log w ++ ev /\
    (List.length (forwarded ev) <= 1)%nat /\
    loadData g' w' = (Normal tt, w').
Proof.
  destruct (loadData g w) as [r w'] eqn:Hload.
  assert (Hgoal : dataLoaded (this w') = true /\
                  exists ev, log w' = log w ++ ev /\
                             (List.length (forwarded ev) <= 1)%nat).
  { revert Hload.
    destruct w as [en c slot [gj o m i d pe t] l].
    unfold loadData, normalize, updateStyle, handle. plumbing.
    destruct d; simpl.
    { intros Heq. inversion Heq. simpl. split; [reflexivity|].
      exists []. rewrite app_nil_r. auto. }
    destruct g as [s|ob]; simpl.
    all: repeat match goal with
         | |- context [JSON_stringify ?s] =>
             destruct (JSON_stringify s) eqn:?; simpl
         | |- context [truthy ?s] => destruct (truthy s) eqn:?; simpl
         | |- context [match ?m with Some _ => _ | None => _ end] =>
             destruct m; simpl
         | |- context [load_geojson ?a ?b ?c] =>
             destruct (load_geojson a b c) as [[[]|?] ?]; simpl
         | |- context [set_geojson_style ?a ?b ?c] =>
             destruct (set_geojson_style a b c) as [[[]|?] ?]; simpl
         | |- context [if ?b then _ else _] => destruct b; simpl
         end.
    all: intros Heq; inversion Heq; simpl; (split; [reflexivity|]);
      first [ exists []; split; [rewrite app_nil_r; reflexivity | simpl; lia]
            | eexists; split;
              [rewrite <- ?app_assoc; reflexivity | simpl; lia] ]. }
  destruct Hgoal as (Hd & ev & Hlog & Hlen).
  exists r, w', ev. repeat (split; [assumption || reflexivity|]).
  now apply loadData_guard.
Qed.

(** X14.  [clear] forgets the features on the JavaScript side and asks the
    engine to clear the layer when there is a handle; a failure of the
    engine is caught and logged, so [clear] always returns.  It resets
    neither [dataLoaded] nor a pending text: on a layer that took data
    before, [loadData] is still ignored after [clear], and a text that
    waits for [addTo] still waits. *)
Theorem clear_keeps_the_guard (w : world) :
  exists w',
    clear w = (Normal tt, w') /\
    this w' = with_geojson (this w) None /\
    _geojsonLayerCount w' = _geojsonLayerCount w /\
    log w'
    = log w ++ match handle (this w) with
               | Some idx =>
                   match fst (clear_geojson_layer idx (wasm w)) with
                   | Thrown error => [Console_warn error]
                   | Normal _ => []
                   end
               | None => []
               end /\
    (dataLoaded (this w) = true ->
     forall g, loadData g w' = (Normal tt, w')).
Proof.
  assert (Hguard : forall w' : world,
    this w' = with_geojson (this w) None ->
    dataLoaded (this w) = true ->
    forall g, loadData g w' = (Normal tt, w')).
  { intros w' Hthis Hd g. apply loadData_guard. now rewrite Hthis. }
  destruct w as [en c slot [gj o m i d pe t] l].
  unfold clear, silent_call, handle in *. plumbing.
  destruct m as [m|]; simpl.
  - destruct i as [idx|]; simpl.
    + destruct (clear_geojson_layer idx en) as [[[]|e] en1]; simpl;
        eexists; (split; [reflexivity|]); simpl; rewrite ?app_nil_r;
        repeat (split; [reflexivity|]); now apply Hguard.
    + eexists; (split; [reflexivity|]); simpl; rewrite ?app_nil_r;
        repeat (split; [reflexivity|]); now apply Hguard.
  - eexists; (split; [reflexivity|]); simpl; rewrite ?app_nil_r;
      repeat (split; [reflexivity|]); now apply Hguard.
Qed.

(** X15.  A text that waits for [addTo] survives [clear]: on a layer
    without a map that holds a pending text, [clear] followed by [addTo]
    still forwards that text to the engine, although [this.geojson] is
    null by then. *)
Theorem clear_then_addTo_forwards_pending (w : world) (text : jsstring) :
  map (this w) = None ->
  _pendingGeoJSONText (this w) = Some text ->
  truthy text = true ->
  fst (add_geojson_layer (wasm w)) = Normal tt ->
  exists w1 r w2 ev,
    clear w = (Normal tt, w1) /\
    geojson (this w1) = None /\
    addTo w1 = (r, w2) /\
    log w2 = log w ++ ev /\
    forwarded ev = [text] /\
    _pendingGeoJSONText (this w2) = None.
Proof.
  intros Hmap Hpending Htext Hadd.
  assert (Hclear : clear w
    = (Normal tt,
       mkWorld (wasm w) (_geojsonLayerCount w) (rustyleafGeoJSONData w)
               (with_geojson (this w) None) (log w))).
  { unfold clear, handle. plumbing. now rewrite Hmap. }
  set (w1 := mkWorld (wasm w) (_geojsonLayerCount w) (rustyleafGeoJSONData w)
                     (with_geojson (this w) None) (log w)) in *.
  destruct (addTo_flushes w1 text Hpending Htext Hadd)
    as (r & w2 & ev & Hto & Hlog & Hfw & Hp & _ & _).
  exists w1, r, w2, ev. auto 10.
Qed.

(** X16.  [loadUrl] settles exactly once.  A fetch that rejects, a
    response that is not [ok] and a body that is not JSON reject the
    promise with that error and leave layer and engine untouched.  With
    data the promise resolves exactly when [loadData] returns, and is
    rejected with what [loadData] threw otherwise; on a layer that took
    data before it resolves although nothing was loaded. *)
Theorem loadUrl_settles_once (f : json_fetched Obj) (w : world) :
  exists w' ev s,
    loadUrl f w = (Normal tt, w') /\
    log w' = log w ++ ev /\
    filter is_settlement ev = [s] /\
    s = match json_payload f with
        | Some data =>
            match fst (loadData data w) with
            | Normal _ => Resolve
            | Thrown e => Reject e
            end
        | None =>
            match json_failure f with
            | Some e => Reject e
            | None => Resolve
            end
        end /\
    (json_payload f = None -> exists e, json_failure f = Some e) /\
    (s = Resolve <->
     exists data, json_payload f = Some data /\
                  fst (loadData data w) = Normal tt) /\
    (json_payload f = None ->
     ev = [s] /\ this w' = this w /\ wasm w' = wasm w) /\
    (dataLoaded (this w) = true -> json_payload f <> None ->
     ev = [Resolve] /\ this w' = this w /\ wasm w' = wasm w).
Proof.
  assert (Hfail : forall e : Err,
    json_payload f = None -> json_failure f = Some e ->
    loadUrl f w = emit (Reject e) w ->
    exists w' ev s,
      loadUrl f w = (Normal tt, w') /\
      log w' = log w ++ ev /\
      filter is_settlement ev = [s] /\
      s = match json_payload f with
          | Some data =>
              match fst (loadData data w) with
              | Normal _ => Resolve
              | Thrown e => Reject e
              end
          | None =>
              match json_failure f with
              | Some e => Reject e
              | None => Resolve
              end
          end /\
      (json_payload f = None -> exists e, json_failure f = Some e) /\
      (s = Resolve <->
       exists data, json_payload f = Some data /\
                    fst (loadData data w) = Normal tt) /\
      (json_payload f = None ->
       ev = [s] /\ this w' = this w /\ wasm w' = wasm w) /\
      (dataLoaded (this w) = true -> json_payload f <> None ->
       ev = [Resolve] /\ this w' = this w /\ wasm w' = wasm w)).
  { intros e Hnone Herr Heq. rewrite Heq, Hnone, Herr.
    eexists. exists [Reject e], (Reject e).
    split; [reflexivity|]. split; [reflexivity|]. split; [reflexivity|].
    split; [reflexivity|]. split; [intros _; now exists e|].
    split; [split; [discriminate | intros (data & Hd & _); discriminate]|].
    split; [auto | intros _ Hcontra; now contradiction Hcontra]. }
  destruct f as [e|[|] status [data|e]];
    try (eapply Hfail; reflexivity).
  simpl. unfold try_catch, bind.
  destruct (grows_loadData data w) as (ev & Hlog & Hcalls).
  destruct (engine_calls_complete_nothing _ Hcalls) as [_ Hsettle].
  destruct (loadData data w) as [[[]|e] w1] eqn:Hload; simpl in *.
  - eexists. exists (ev ++ [Resolve]), Resolve. split; [reflexivity|]. simpl.
    split; [rewrite Hlog, app_assoc; reflexivity|].
    split; [rewrite filter_app, Hsettle; reflexivity|].
    split; [reflexivity|].
    split; [intros Hc; discriminate|].
    split; [split; [intros _; exists data; rewrite Hload; auto
                   | reflexivity]|].
    split; [intros Hc; discriminate|].
    intros Hd _. rewrite loadData_guard in Hload by assumption.
    inversion Hload; subst w1. rewrite <- (app_nil_r (log w)) in Hlog at 1.
    apply app_inv_head in Hlog. subst ev. auto.
  - eexists. exists (ev ++ [Reject e]), (Reject e). split; [reflexivity|].
    simpl. split; [rewrite Hlog, app_assoc; reflexivity|].
    split; [rewrite filter_app, Hsettle; reflexivity|].
    split; [reflexivity|].
    split; [intros Hc; discriminate|].
    split.
    { split; [discriminate|]. intros (data' & Hd & Hn).
      inversion Hd; subst data'. rewrite Hload in Hn. discriminate. }
    split; [intros Hc; discriminate|].
    intros Hd _. rewrite loadData_guard in Hload by assumption. discriminate.
Qed.

End Methods.

Lemma clear_then_addTo_forwards_pending_witness :
  map (this (world_of waiting_layer)) = None /\
  _pendingGeoJSONText (this (world_of waiting_layer)) = Some (lit "{'a':1}") /\
  truthy (lit "{'a':1}") = true /\
  fst (add_geojson_layer (wasm (world_of waiting_layer))) = Normal tt /\
  exists w1 r w2 ev,
    clear (world_of waiting_layer) = (Normal tt, w1) /\
    geojson (this w1) = None /\
    addTo w1 = (r, w2) /\
    log w2 = log (world_of waiting_layer) ++ ev /\
    forwarded ev = [lit "{'a':1}"] /\
    _pendingGeoJSONText (this w2) = None.
Proof.
  repeat (split; [reflexivity|]).
  apply (clear_then_addTo_forwards_pending (world_of waiting_layer)
           (lit "{'a':1}"));
    reflexivity.
Defined.

End LayerFacts.

(* ================================================================== *)
(** * [loadFromUrl]: what both paths together never do *)
(* ================================================================== *)

Module Delivery.

Import Ingestion Growth Deferred Sample.

Lemma quiet_nil : quiet [].
Proof. repeat split. Qed.

Lemma quiet_single (ev : list event) : quiet ev -> single ev.
Proof.
  intros (Hf & Hr & Hc). unfold single. rewrite Hf, Hr, Hc. simpl. auto.
Qed.

Lemma quiet_single_app (a b : list event) :
  quiet a -> single b -> single (a ++ b).
Proof.
  intros (Ha1 & Ha2 & Ha3) Hb. unfold single.
  rewrite forwarded_app, !filter_app, Ha1, Ha2, Ha3. exact Hb.
Qed.

Lemma single_quiet_app (a b : list event) :
  single a -> quiet b -> single (a ++ b).
Proof.
  intros Ha (Hb1 & Hb2 & Hb3). unfold single.
  rewrite forwarded_app, !filter_app, Hb1, Hb2, Hb3, !app_nil_r. exact Ha.
Qed.

Lemma engine_calls_resolve_nothing (ev : list event) :
  forallb is_engine_call ev = true ->
  filter is_resolve ev = [] /\ filter is_complete ev = [].
Proof.
  induction ev as [|e ev IH]; simpl; [auto|].
  intros Hc. apply andb_prop in Hc. destruct Hc as [He Hev].
  destruct e; simpl in *; try discriminate; auto.
Qed.

Section Loader.

Context {E Obj : Type} `{Engine E} `{Json Obj}.

Local Abbreviation world := (world E Obj).

(** One [loadData]: [dataLoaded] is set, only the engine is talked to,
    and at most one text is forwarded. *)
Lemma loadData_effect (g : value Obj) (w : world) :
  exists ev,
    dataLoaded (this (snd (loadData g w))) = true /\
    log (snd (loadData g w)) = log w ++ ev /\
    forallb is_engine_call ev = true /\
    (List.length (forwarded ev) <= 1)%nat.
Proof.
  destruct w as [en c slot [gj o m i d pe t] l].
  unfold loadData, normalize, updateStyle, handle. plumbing.
  destruct d; simpl.
  { exists []. rewrite app_nil_r. auto. }
  destruct g as [s|ob]; simpl.
  all: repeat match goal with
       | |- context [JSON_stringify ?s] =>
           destruct (JSON_stringify s) eqn:?; simpl
       | |- context [truthy ?s] => destruct (truthy s) eqn:?; simpl
       | |- context [match ?m with Some _ => _ | None => _ end] =>
           destruct m; simpl
       | |- context [load_geojson ?a ?b ?c] =>
           destruct (load_geojson a b c) as [[[]|?] ?]; simpl
       | |- context [set_geojson_style ?a ?b ?c] =>
           destruct (set_geojson_style a b c) as [[[]|?] ?]; simpl
       | |- context [if ?b then _ else _] => destruct b; simpl
       end.
  all: first [ exists []; split; [reflexivity|]; split;
               [rewrite app_nil_r; reflexivity | simpl; auto]
             | eexists; split; [reflexivity|]; split;
               [rewrite <- ?app_assoc; reflexivity | simpl; auto] ].
Qed.

Lemma loadData_single (ev : list event) :
  forallb is_engine_call ev = true ->
  (List.length (forwarded ev) <= 1)%nat ->
  single ev /\ filter is_resolve ev = [] /\ filter is_complete ev = [].
Proof.
  intros Hcalls Hone. destruct (engine_calls_resolve_nothing _ Hcalls) as [Hr Hc].
  unfold single. rewrite Hr, Hc. simpl. auto.
Qed.

(** The end of a path that won: the completion callback if there is one,
    and the resolution. *)
Lemma finish_effect (opts : loading_options) (dataLength : Z) (ld' : loader)
    (w : world) :
  exists w' ev,
    bind (Layer.when (on_complete opts)
            (bind getFeatureCount (fun n =>
               emit (CompleteCallback n dataLength None))))
         (fun _ => bind (emit Resolve) (fun _ => ret ld')) w
    = (Normal ld', w') /\
    log w' = log w ++ ev /\
    forwarded ev = [] /\
    filter is_resolve ev = [Resolve] /\
    (List.length (filter is_complete ev) <= 1)%nat.
Proof.
  unfold Layer.when. destruct (on_complete opts).
  - unfold bind at 1. unfold bind at 1.
    destruct (getFeatureCount_effect w) as (n & w1 & Hg & Hext).
    rewrite Hg. destruct Hext as (_ & _ & _ & Hlog).
    rewrite app_nil_r in Hlog.
    eexists. eexists. split; [reflexivity|]. simpl.
    rewrite Hlog, <- app_assoc. split; [reflexivity|]. simpl. auto.
  - eexists. eexists. split; [reflexivity|]. simpl.
    split; [reflexivity|]. simpl. auto.
Qed.

(** One turn: a delivery happens at most once, only while [state.done] is
    clear, and it sets the flag. *)
Lemma run_turn_delivers (opts : loading_options) (t : turn) (ld : loader)
    (w : world) :
  exists ld' w' ev,
    run_turn opts t ld w = (Normal ld', w') /\
    log w' = log w ++ ev /\
    single ev /\
    (done ld = true -> quiet ev /\ done ld' = true) /\
    (quiet ev \/ done ld' = true).
Proof.
  assert (Hquiet : forall ld0 (w0 : world) ev,
            log w0 = log w ++ ev -> quiet ev ->
            (done ld = true -> done ld0 = true) ->
            exists ld' w' ev,
              (Normal ld0, w0) = (Normal ld', w') /\
              log w' = log w ++ ev /\
              single ev /\
              (done ld = true -> quiet ev /\ done ld' = true) /\
              (quiet ev \/ done ld' = true)).
  { intros ld0 w0 ev Hlog Hev Hdone. exists ld0, w0, ev.
    pose proof (quiet_single _ Hev). intuition. }
  assert (Hset : forall ld0 (w0 : world) ev,
            log w0 = log w ++ ev -> single ev ->
            done ld = false -> done ld0 = true ->
            exists ld' w' ev,
              (Normal ld0, w0) = (Normal ld', w') /\
              log w' = log w ++ ev /\
              single ev /\
              (done ld = true -> quiet ev /\ done ld' = true) /\
              (quiet ev \/ done ld' = true)).
  { intros ld0 w0 ev Hlog Hev Hd Hd0. exists ld0, w0, ev.
    intuition congruence. }
  assert (Hq1 : forall e : event,
            is_complete e = false -> is_resolve e = false ->
            forwarded [e] = [] -> quiet [e]).
  { intros e Hc Hr Hf. unfold quiet. simpl in *. now rewrite Hc, Hr. }
  destruct t as [now | data | f]; simpl.
  - destruct (checkForData_scheduled ld);
      [|apply (Hquiet ld w []); rewrite ?app_nil_r; auto using quiet_nil].
    unfold checkForData.
    destruct (now - startTime ld >? TIMEOUT_MS).
    + plumbing. destruct (done ld) eqn:Hd; simpl.
      * apply (Hquiet _ _ []); simpl; rewrite ?app_nil_r; auto using quiet_nil.
      * apply (Hquiet _ _ [Reject TimeoutError]); simpl; auto;
          try discriminate; repeat split.
    + unfold bind at 1, get.
      destruct (rustyleafGeoJSONData w) as [[|c data]|];
        try (apply (Hquiet ld w []); rewrite ?app_nil_r;
             now auto using quiet_nil).
      destruct (done ld) eqn:Hd;
        [apply (Hquiet _ w []); rewrite ?app_nil_r; now auto using quiet_nil|].
      unfold try_catch. unfold bind at 1.
      destruct (loadData_effect (VString (c :: data)) w)
        as (ev1 & _ & Hl1 & Hp1 & Hone).
      destruct (loadData_single _ Hp1 Hone) as (Hs1 & Hr1 & Hc1).
      destruct (loadData (VString (c :: data)) w) as [[[]|e] w1]; simpl in Hl1.
      * unfold bind at 1. simpl.
        match goal with
        | |- context [bind _ _ ?w2] =>
            destruct (finish_effect opts (length (c :: data))
                        (unscheduled (settled ld)) w2)
              as (w3 & ev3 & Hf & Hl3 & Hf3 & Hr3 & Hc3)
        end.
        rewrite Hf. simpl in Hl3.
        apply (Hset _ _ (ev1 ++ ev3)); auto.
        -- rewrite Hl3, Hl1, app_assoc. reflexivity.
        -- unfold single. rewrite forwarded_app, !filter_app, Hf3, Hr1, Hc1, Hr3,
             app_nil_r. simpl. auto.
      * plumbing.
        destruct (on_error opts); simpl;
          eapply Hset; simpl; rewrite ?Hl1, <- ?app_assoc;
          try reflexivity; apply single_quiet_app; auto;
          repeat split.
  - plumbing. apply (Hquiet _ _ []); simpl; rewrite ?app_nil_r;
      auto using quiet_nil.
  - destruct (fetch_pending ld);
      [|apply (Hquiet ld w []); rewrite ?app_nil_r; auto using quiet_nil].
    destruct f as [e | [|] status text].
    + unfold fetch_catch. plumbing.
      destruct (on_error opts); simpl.
      * apply (Hquiet _ _ [ErrorCallback e (Some Fetch_fallback_failed)]);
          auto; repeat split.
      * apply (Hquiet _ _ []); simpl; rewrite ?app_nil_r; auto using quiet_nil.
    + unfold fetch_then.
      destruct (done ld) eqn:Hd;
        [plumbing; apply (Hquiet _ w []); rewrite ?app_nil_r;
         now auto using quiet_nil|].
      unfold bind at 1, try_catch. unfold bind at 1.
      destruct (loadData_effect (VString text) w)
        as (ev1 & _ & Hl1 & Hp1 & Hone).
      destruct (loadData_single _ Hp1 Hone) as (Hs1 & Hr1 & Hc1).
      destruct (loadData (VString text) w) as [[[]|e] w1]; simpl in Hl1.
      * destruct (finish_effect opts (length text) (settled ld) w1)
          as (w3 & ev3 & Hf & Hl3 & Hf3 & Hr3 & Hc3).
        rewrite Hf. simpl.
        apply (Hset _ _ (ev1 ++ ev3)); auto.
        -- rewrite Hl3, Hl1, app_assoc. reflexivity.
        -- unfold single. rewrite forwarded_app, !filter_app, Hf3, Hr1, Hc1, Hr3,
             app_nil_r. simpl. auto.
      * unfold fetch_catch. plumbing.
        destruct (on_error opts); simpl.
        -- apply (Hset _ _ (ev1 ++ [ErrorCallback e (Some Fetch_fallback_failed)]));
             simpl; auto.
           ++ rewrite Hl1, <- app_assoc. reflexivity.
           ++ apply single_quiet_app; auto; repeat split.
        -- apply (Hset _ _ ev1); simpl; auto.
    + unfold fetch_catch. plumbing.
      destruct (on_error opts); simpl.
      * apply (Hquiet _ _ [ErrorCallback (HttpError status)
                                         (Some Fetch_fallback_failed)]);
          auto; repeat split.
      * apply (Hquiet _ _ []); simpl; rewrite ?app_nil_r; auto using quiet_nil.
Qed.

(** X17.  However the turns of the two paths fall, one operation delivers
    at most once: at most one text is forwarded to [load_geojson], the
    promise is resolved at most once, and [completeCallback] is called at
    most once.  Once [state.done] is set nothing of this happens again. *)
Theorem delivers_at_most_once (opts : loading_options) :
  forall (ts : list turn) (ld : loader) (w : world),
  exists ld' w' ev,
    run_turns opts ts ld w = (ld', w') /\
    log w' = log w ++ ev /\
    (List.length (forwarded ev) <= 1)%nat /\
    (List.length (filter is_resolve ev) <= 1)%nat /\
    (List.length (filter is_complete ev) <= 1)%nat /\
    (done ld = true ->
     forwarded ev = [] /\ filter is_resolve ev = [] /\
     filter is_complete ev = [] /\ done ld' = true).
Proof.
  induction ts as [|t ts IH]; intros ld w.
  - exists ld, w, []. simpl. rewrite app_nil_r. auto 10.
  - destruct (run_turn_delivers opts t ld w)
      as (ld1 & w1 & ev1 & Hrun & Hl1 & Hs1 & Hd1 & Hq1).
    destruct (IH ld1 w1) as (ld' & w' & ev & Hruns & Hl & Hf & Hr & Hc & Hd).
    exists ld', w', (ev1 ++ ev). simpl. rewrite Hrun.
    split; [exact Hruns|].
    split; [rewrite Hl, Hl1, app_assoc; reflexivity|].
    assert (Hrest : single ev) by (repeat split; assumption).
    assert (Hall : single (ev1 ++ ev)).
    { destruct Hq1 as [Hq|Hdone1].
      - now apply quiet_single_app.
      - apply single_quiet_app; [assumption|].
        destruct (Hd Hdone1) as (? & ? & ? & _). repeat split; assumption. }
    destruct Hall as (Hf' & Hr' & Hc').
    repeat (split; [assumption|]).
    intros Hdone. destruct (Hd1 Hdone) as [(Hqf & Hqr & Hqc) Hdone1].
    destruct (Hd Hdone1) as (Hf0 & Hr0 & Hc0 & Hdone').
    rewrite forwarded_app, !filter_app, Hqf, Hqr, Hqc, Hf0, Hr0, Hc0. auto.
Qed.

(** X18.  [loadFromUrl] never throws; what goes wrong before the two paths
    are started rejects the promise.  On a layer that is on no map the
    access to [this.map.wasmMap] fails: the promise is rejected with a
    TypeError, [errorCallback] receives it with the message
    'Failed to load GeoJSON from URL', the engine is not called and
    neither polling nor the fetch fallback is started.  The same, after the
    call, when the engine's [load_geojson_from_url] throws.  Otherwise the
    engine is called with the layer's index as it is (undefined on a layer
    that has a map but no index) and both paths are started. *)
Theorem loadFromUrl_start (opts : loading_options) (u : url) (now : Z)
    (w : world) :
  exists started w' ev,
    loadFromUrl opts u now w = (Normal started, w') /\
    this w' = this w /\
    log w' = log w ++ ev /\
    match map (this w) with
    | None =>
        started = None /\ wasm w' = wasm w /\
        ev = (if on_error opts
              then [ErrorCallback TypeError (Some Failed_to_load_from_url)]
              else []) ++ [Reject TypeError]
    | Some _ =>
        match fst (load_geojson_from_url (layerIndex (this w)) u (wasm w)) with
        | Normal _ =>
            started = Some (mkLoader now false true true) /\
            ev = [Call_load_geojson_from_url (layerIndex (this w)) u]
        | Thrown e =>
            started = None /\
            ev = Call_load_geojson_from_url (layerIndex (this w)) u ::
                 (if on_error opts
                  then [ErrorCallback e (Some Failed_to_load_from_url)]
                  else []) ++ [Reject e]
        end
    end.
Proof.
  unfold loadFromUrl. plumbing.
  destruct (map (this w)); simpl.
  - destruct (load_geojson_from_url (layerIndex (this w)) u (wasm w))
      as [[[]|e] en]; simpl.
    + eexists. eexists. eexists. split; [reflexivity|]. simpl. auto.
    + destruct (on_error opts); simpl;
        (eexists; eexists; eexists; split; [reflexivity|]; simpl;
         rewrite <- ?app_assoc; auto).
  - destruct (on_error opts); simpl;
      (eexists; eexists; eexists; split; [reflexivity|]; simpl;
       rewrite <- ?app_assoc; auto).
Qed.

End Loader.

End Delivery.

(* ================================================================== *)
(** * [loadFile] *)
(* ================================================================== *)

Module FileFacts.

Import JSFacts Ingestion Faults Sample SampleRest.

Lemma only_last_final_cons (flags : list bool) :
  only_last_final flags = true -> only_last_final (false :: flags) = true.
Proof. destruct flags as [|flag rest]; simpl; [discriminate | auto]. Qed.

(** A slice that lies in the file. *)
Lemma blob_slice_inside (pre rest : list N) (n : nat) :
  blob_slice (pre ++ rest) (Z.of_nat (List.length pre))
             (Z.of_nat (List.length pre) + Z.of_nat n)
  = firstn n rest.
Proof.
  unfold blob_slice. rewrite List.length_app, Nat2Z.inj_add.
  set (a := Z.of_nat (List.length pre)). set (b := Z.of_nat (List.length rest)).
  assert (Ha : 0 <= a) by (unfold a; lia).
  assert (Hb : 0 <= b) by (unfold b; lia).
  destruct (Z.ltb_spec a 0) as [?|_]; [lia|].
  destruct (Z.ltb_spec (a + Z.of_nat n) 0) as [?|_]; [lia|].
  replace (Z.min a (a + b)) with a by lia.
  replace (Z.to_nat a) with (List.length pre) by (unfold a; lia).
  rewrite skipn_app, skipn_all, Nat.sub_diag. simpl.
  destruct (Z_le_gt_dec (Z.of_nat n) b) as [Hle|Hgt].
  - replace (Z.max (Z.min (a + Z.of_nat n) (a + b) - a) 0) with (Z.of_nat n)
      by lia.
    now rewrite Nat2Z.id.
  - replace (Z.max (Z.min (a + Z.of_nat n) (a + b) - a) 0) with b by lia.
    unfold b. rewrite Nat2Z.id, firstn_all.
    symmetry. apply firstn_all2. unfold b in Hgt. lia.
Qed.

(** A slice is never longer than the distance of its ends, and for a
    [chunkSize] that is not positive it ends before the end of the file. *)
Lemma blob_slice_backwards (file : list N) (offset chunkSize : Z) :
  0 <= offset < Z.of_nat (List.length file) ->
  chunkSize <= 0 ->
  offset + Z.of_nat (List.length (blob_slice file offset (offset + chunkSize)))
  < Z.of_nat (List.length file).
Proof.
  intros Hoff Hcs. unfold blob_slice.
  set (size := Z.of_nat (List.length file)) in *.
  rewrite List.length_firstn.
  destruct (Z.ltb_spec offset 0) as [?|_]; [lia|].
  destruct (Z.ltb_spec (offset + chunkSize) 0) as [Hneg|Hpos]; lia.
Qed.

Section Reads.

Context {E Obj D : Type} `{Engine E} `{Json Obj} `{TextDecoder D}
        `{FileReader}.

Local Abbreviation world := (world E Obj).

Lemma file_onload_effect (opts : streaming_options) (size : Z)
    (chunk : jsstring) (offset : Z) (w : world) :
  exists w' ev,
    file_onload opts size chunk offset w
    = (Normal (offset + length chunk), w') /\
    extends w w' ev /\
    dispatched ev
    = chunk_calls (handle (this w))
        [(chunk, size <=? offset + length chunk)] /\
    existsb is_failure ev = false /\
    filter is_complete ev = [] /\
    filter is_settlement ev = [].
Proof.
  unfold file_onload. unfold bind at 1.
  destruct (processChunk_effect chunk (size <=? offset + length chunk) w)
    as (w1 & Hp & Hx1).
  rewrite Hp. unfold bind at 1, Layer.when.
  match type of Hx1 with extends _ _ ?ev0 => set (ev1 := ev0) in * end.
  assert (Hch : forallb is_chunk_event ev1 = true)
    by apply chunk_events_are_chunk_events.
  assert (Hd1 : dispatched ev1
                = chunk_calls (handle (this w))
                    [(chunk, size <=? offset + length chunk)])
    by apply dispatched_chunk_events.
  destruct (progressCallback opts).
  - unfold bind at 1.
    destruct (getFeatureCount_effect w1) as (n & w2 & Hg & Hx2).
    rewrite Hg.
    match goal with
    | |- context [emit ?e w2] =>
        destruct (emit_extends e w2) as (w3 & He & Hx3); rewrite He
    end.
    exists w3. eexists. split; [reflexivity|].
    split; [exact (extends_trans _ _ _ _ _ Hx1
                     (extends_trans _ _ _ _ _ Hx2 Hx3))|].
    rewrite dispatched_app, existsb_app, !filter_app, Hd1,
      (chunk_event_not_failure _ Hch), (chunk_event_not_complete _ Hch),
      (chunk_event_not_settlement _ Hch).
    simpl. rewrite app_nil_r. auto.
  - exists w1, ev1. split; [reflexivity|]. split; [exact Hx1|].
    rewrite (chunk_event_not_failure _ Hch), (chunk_event_not_complete _ Hch),
      (chunk_event_not_settlement _ Hch). auto.
Qed.

Lemma file_done_effect (opts : streaming_options) (size offset : Z)
    (w : world) :
  exists w' n,
    file_done opts size offset w = (Normal tt, w') /\
    extends w w'
      ((if completeCallback opts
        then [CompleteCallback n size (Some offset)] else []) ++ [Resolve]).
Proof.
  unfold file_done, Layer.when. unfold bind at 1.
  destruct (completeCallback opts).
  - unfold bind at 1.
    destruct (getFeatureCount_effect w) as (n & w1 & Hg & Hx1).
    rewrite Hg.
    destruct (emit_extends (CompleteCallback n size (Some offset)) w1)
      as (w2 & He & Hx2).
    rewrite He.
    destruct (emit_extends Resolve w2) as (w3 & Hr & Hx3).
    exists w3, n. split; [exact Hr|].
    exact (extends_trans _ _ _ _ _ Hx1 (extends_trans _ _ _ _ _ Hx2 Hx3)).
  - destruct (emit_extends Resolve w) as (w3 & Hr & Hx3).
    exists w3, 0. split; [exact Hr|]. exact Hx3.
Qed.

Lemma file_error_effect (opts : streaming_options) (w : world) :
  exists w',
    file_error opts w = (Normal tt, w') /\
    extends w w'
      ((if errorCallback opts
        then [ErrorCallback Failed_to_read_file None] else [])
       ++ [Reject Failed_to_read_file]).
Proof.
  unfold file_error, Layer.when. simpl. unfold bind.
  destruct (errorCallback opts).
  - destruct (emit_extends (ErrorCallback Failed_to_read_file None) w)
      as (w1 & H1' & Hx1).
    rewrite H1'.
    destruct (emit_extends (Reject Failed_to_read_file) w1) as (w2 & H2' & Hx2).
    exists w2. split; [exact H2'|].
    exact (extends_trans _ _ _ _ _ Hx1 Hx2).
  - simpl. apply emit_extends.
Qed.

Lemma file_reads_end (opts : streaming_options) (file : list N) :
  forall (fuel : nat) (offset : Z) (w : world) r w',
    file_reads fuel opts file offset w = Some (r, w') ->
    r = Normal tt /\
    exists ev calls,
      extends w w' ev /\
      dispatched ev = chunk_calls (handle (this w)) calls /\
      ended opts ev calls.
Proof.
  induction fuel as [|fuel IH]; intros offset w r w'; simpl; [discriminate|].
  destruct (readAsText (blob_slice file offset (offset + chunkSize opts)))
    as [chunk|].
  - destruct (file_onload_effect opts (Z.of_nat (List.length file)) chunk
                offset w)
      as (w1 & ev1 & Ho & Hx1 & Hd1 & Hf1 & Hc1 & Hs1).
    rewrite Ho.
    destruct (Z.ltb_spec (offset + length chunk) (Z.of_nat (List.length file)))
      as [Hlt|Hge].
    + intros Hrun. destruct (IH _ _ _ _ Hrun) as (-> & ev2 & calls & Hx2 & Hd2 & He).
      split; [reflexivity|].
      exists (ev1 ++ ev2),
        ((chunk, Z.of_nat (List.length file) <=? offset + length chunk) :: calls).
      split; [exact (extends_trans _ _ _ _ _ Hx1 Hx2)|].
      assert (Hthis : this w1 = this w) by apply Hx1.
      split.
      { rewrite dispatched_app, Hd1, Hd2, Hthis.
        destruct (handle (this w)); reflexivity. }
      replace (Z.of_nat (List.length file) <=? offset + length chunk)
        with false by (symmetry; apply Z.leb_gt; lia).
      destruct He as [(Hs & Hf & Hc & Hlast)|(Hs & Hr & Hc & Hnf)];
        [left|right]; rewrite ?existsb_app, !filter_app, ?Hs1, ?Hc1, ?Hf1,
          ?(no_failure_no_report _ Hf1); simpl.
      * repeat (split; [assumption|]). now apply only_last_final_cons.
      * repeat (split; [assumption|]). constructor; auto.
    + destruct (file_done_effect opts (Z.of_nat (List.length file))
                  (offset + length chunk) w1) as (w2 & n & Hdone & Hx2).
      rewrite Hdone. intros Heq. inversion Heq; subst r w'.
      split; [reflexivity|].
      eexists. exists [(chunk, true)].
      split; [exact (extends_trans _ _ _ _ _ Hx1 Hx2)|].
      split.
      { rewrite dispatched_app, Hd1.
        replace (Z.of_nat (List.length file) <=? offset + length chunk)
          with true by (symmetry; apply Z.leb_le; lia).
        destruct (completeCallback opts); simpl; rewrite app_nil_r;
          reflexivity. }
      left. rewrite existsb_app, !filter_app, Hs1, Hc1, Hf1.
      destruct (completeCallback opts); simpl; auto.
  - destruct (file_error_effect opts w) as (w1 & He & Hx).
    rewrite He. intros Heq. inversion Heq; subst r w'.
    split; [reflexivity|].
    eexists. exists []. split; [exact Hx|].
    split.
    { destruct (errorCallback opts), (handle (this w)); reflexivity. }
    right. destruct (errorCallback opts); simpl; auto.
Qed.


(** X19.  However [loadFile] ends, it ends once.  If the reads end, the
    promise is settled exactly once: resolved after a read that reached the
    end of the file, with no error reported, one call of
    [completeCallback] (if given), and [isFinal = true] on the chunk of
    the last read and on no other; or rejected with 'Failed to read file'
    after a read that failed, with one call of [errorCallback] (if given),
    no call of [completeCallback], and no chunk handed over as the final
    one: the chunks of the reads before the failure stay with the
    engine. *)
Theorem loadFile_settles_once (opts : streaming_options) (file : list N)
    (fuel : nat) (w : world) r w' :
  loadFile fuel opts file w = Some (r, w') ->
  r = Normal tt /\
  this w' = this w /\
  exists ev calls,
    log w' = log w ++ ev /\
    dispatched ev = chunk_calls (handle (this w)) calls /\
    ((filter is_settlement ev = [Resolve] /\
      existsb is_failure ev = false /\
      (List.length (filter is_complete ev)
       = if completeCallback opts then 1 else 0)%nat /\
      only_last_final (List.map snd calls) = true)
     \/
     (filter is_settlement ev = [Reject Failed_to_read_file] /\
      filter is_error_report ev
      = (if errorCallback opts
         then [ErrorCallback Failed_to_read_file None] else []) /\
      filter is_complete ev = [] /\
      Forall (fun call => snd call = false) calls)).
Proof.
  intros Hrun. destruct (file_reads_end opts file _ _ _ _ _ Hrun)
    as (-> & ev & calls & Hx & Hd & He).
  split; [reflexivity|]. destruct Hx as (Hthis & _ & _ & Hlog).
  split; [exact Hthis|]. exists ev, calls. auto.
Qed.

(** ** A reader of single-byte text *)

Lemma slices_concat (n : nat) :
  forall (fuel : nat) (rest : list N),
    (List.length rest < fuel)%nat ->
    List.concat (slices fuel n rest) = rest /\
    Forall (fun slice => (List.length slice <= S n)%nat) (slices fuel n rest).
Proof.
  induction fuel as [|fuel IH]; intros rest Hfuel; [lia|].
  cbn [slices].
  destruct (skipn (S n) rest) as [|c more] eqn:Hskip.
  - cbn [List.concat]. rewrite app_nil_r. split; [reflexivity|].
    constructor; [|constructor].
    apply skipn_all_iff in Hskip. exact Hskip.
  - assert (Hpos : (0 < List.length (skipn (S n) rest))%nat)
      by (rewrite Hskip; simpl; lia).
    rewrite List.length_skipn in Hpos.
    rewrite <- Hskip.
    assert (Hlen : (List.length (skipn (S n) rest) < fuel)%nat).
    { rewrite List.length_skipn. lia. }
    destruct (IH _ Hlen) as [Hcat Hall].
    cbn [List.concat]. rewrite Hcat. split; [apply firstn_skipn|].
    constructor; [|exact Hall].
    rewrite List.length_firstn. lia.
Qed.

Lemma file_reads_all (opts : streaming_options) (n : nat) :
  chunkSize opts = Z.of_nat (S n) ->
  (forall bytes, exists text,
      readAsText bytes = Some text /\ List.length text = List.length bytes) ->
  forall (fuel : nat) (pre rest : list N) (w : world),
    (List.length rest < fuel)%nat ->
    exists w' ev count texts calls,
      file_reads fuel opts (pre ++ rest) (Z.of_nat (List.length pre)) w
      = Some (Normal tt, w') /\
      extends w w' ev /\
      filter is_settlement ev = [Resolve] /\
      existsb is_failure ev = false /\
      filter is_complete ev
      = (if completeCallback opts
         then [CompleteCallback count (Z.of_nat (List.length (pre ++ rest)))
                                (Some (Z.of_nat (List.length (pre ++ rest))))]
         else []) /\
      Forall2 (fun slice text => readAsText slice = Some text)
              (slices fuel n rest) texts /\
      List.map fst calls = texts /\
      only_last_final (List.map snd calls) = true /\
      dispatched ev = chunk_calls (handle (this w)) calls.
Proof.
  intros Hcs Hreader.
  induction fuel as [|fuel IH]; intros pre rest w Hfuel; [lia|].
  cbn [file_reads slices].
  rewrite Hcs, blob_slice_inside.
  destruct (Hreader (firstn (S n) rest)) as (chunk & Hread & Hlen).
  rewrite Hread.
  destruct (file_onload_effect opts (Z.of_nat (List.length (pre ++ rest))) chunk
              (Z.of_nat (List.length pre)) w)
    as (w1 & ev1 & Ho & Hx1 & Hd1 & Hf1 & Hc1 & Hs1).
  rewrite Ho.
  assert (Hthis : this w1 = this w) by apply Hx1.
  assert (Hchunk : length chunk = Z.of_nat (List.length (firstn (S n) rest)))
    by (unfold length; now rewrite Hlen).
  destruct (skipn (S n) rest) as [|c more] eqn:Hskip.
  - apply skipn_all_iff in Hskip.
    rewrite firstn_all2 in * by exact Hskip.
    assert (Hend : Z.of_nat (List.length pre) + length chunk
                   = Z.of_nat (List.length (pre ++ rest)))
      by (rewrite Hchunk, List.length_app; lia).
    rewrite Hend in *. rewrite Z.ltb_irrefl.
    destruct (file_done_effect opts (Z.of_nat (List.length (pre ++ rest)))
                (Z.of_nat (List.length (pre ++ rest))) w1)
      as (w2 & count & Hdone & Hx2).
    rewrite Hdone.
    exists w2. eexists. exists count, [chunk], [(chunk, true)].
    split; [reflexivity|].
    split; [exact (extends_trans _ _ _ _ _ Hx1 Hx2)|].
    rewrite existsb_app, !filter_app, dispatched_app, Hs1, Hc1, Hf1, Hd1,
      Z.leb_refl.
    destruct (completeCallback opts); simpl; rewrite ?app_nil_r;
      repeat (split; [reflexivity || (constructor; [assumption|constructor])|]);
      reflexivity.
  - assert (Hpos : (0 < List.length (skipn (S n) rest))%nat)
      by (rewrite Hskip; simpl; lia).
    rewrite List.length_skipn in Hpos.
    rewrite <- Hskip in *.
    assert (Hmore : (List.length (skipn (S n) rest) < fuel)%nat).
    { rewrite List.length_skipn. lia. }
    assert (Hfirst : List.length (firstn (S n) rest) = S n).
    { rewrite List.length_firstn. lia. }
    assert (Hoff : Z.of_nat (List.length pre) + length chunk
                   = Z.of_nat (List.length (pre ++ firstn (S n) rest)))
      by (rewrite Hchunk, List.length_app; lia).
    rewrite Hoff in *.
    assert (Hfile : pre ++ rest
                    = (pre ++ firstn (S n) rest) ++ skipn (S n) rest).
    { rewrite <- app_assoc, firstn_skipn. reflexivity. }
    assert (Hlt : Z.of_nat (List.length (pre ++ firstn (S n) rest))
                  < Z.of_nat (List.length (pre ++ rest))).
    { rewrite !List.length_app, Hfirst. lia. }
    destruct (Z.ltb_spec (Z.of_nat (List.length (pre ++ firstn (S n) rest)))
                         (Z.of_nat (List.length (pre ++ rest))))
      as [_|?]; [|lia].
    destruct (IH (pre ++ firstn (S n) rest) (skipn (S n) rest) w1 Hmore)
      as (w2 & ev2 & count & texts & calls & Hrun & Hx2 & Hs2 & Hf2 & Hc2
          & Hall & Htexts & Hlast & Hd2).
    rewrite <- Hfile in Hrun, Hc2. rewrite Hrun.
    exists w2, (ev1 ++ ev2), count, (chunk :: texts),
      ((chunk, false) :: calls).
    split; [reflexivity|].
    split; [exact (extends_trans _ _ _ _ _ Hx1 Hx2)|].
    rewrite existsb_app, !filter_app, dispatched_app, Hs1, Hc1, Hf1, Hd1, Hs2,
      Hc2, Hf2, Hd2, Hthis.
    replace (Z.of_nat (List.length (pre ++ rest))
             <=? Z.of_nat (List.length (pre ++ firstn (S n) rest)))
      with false by (symmetry; apply Z.leb_gt; lia).
    repeat (split; [reflexivity|]).
    split; [constructor; assumption|].
    split; [simpl; now rewrite Htexts|].
    split; [now apply only_last_final_cons|].
    destruct (handle (this w)); reflexivity.
Qed.

(** X20.  With a [chunkSize] of at least one byte and a reader that never
    fails and returns one character per byte (single-byte text),
    [loadFile] reads the file once from start to end: the reads end (one
    more than the file has bytes is a bound on their number), the slices
    read are consecutive, of [chunkSize] bytes each but for the last, and
    together the file; the text of each slice is handed over as one chunk,
    in order, the last one alone with [isFinal = true]; then
    [completeCallback] (if given) is called once with [totalBytes] and
    [loadedBytes] both the size of the file, and the promise is resolved.
    An empty file is one read, and one final chunk that is empty. *)
Theorem loadFile_reads_the_file_once (opts : streaming_options) (n : nat)
    (file : list N) (w : world) :
  chunkSize opts = Z.of_nat (S n) ->
  (forall bytes, exists text,
      readAsText bytes = Some text /\ List.length text = List.length bytes) ->
  exists w' ev count texts calls,
    loadFile (S (List.length file)) opts file w = Some (Normal tt, w') /\
    this w' = this w /\
    log w' = log w ++ ev /\
    filter is_settlement ev = [Resolve] /\
    existsb is_failure ev = false /\
    filter is_complete ev
    = (if completeCallback opts
       then [CompleteCallback count (Z.of_nat (List.length file))
                              (Some (Z.of_nat (List.length file)))]
       else []) /\
    List.concat (slices (S (List.length file)) n file) = file /\
    Forall (fun slice => (List.length slice <= S n)%nat)
           (slices (S (List.length file)) n file) /\
    Forall2 (fun slice text => readAsText slice = Some text)
            (slices (S (List.length file)) n file) texts /\
    List.map fst calls = texts /\
    only_last_final (List.map snd calls) = true /\
    dispatched ev = chunk_calls (handle (this w)) calls.
Proof.
  intros Hcs Hreader.
  destruct (file_reads_all opts n Hcs Hreader (S (List.length file)) [] file w
              (Nat.lt_succ_diag_r _))
    as (w' & ev & count & texts & calls & Hrun & Hx & Hs & Hf & Hc & Hall
        & Htexts & Hlast & Hd).
  destruct (slices_concat n (S (List.length file)) file (Nat.lt_succ_diag_r _))
    as [Hcat Hlen].
  exists w', ev, count, texts, calls.
  destruct Hx as (Hthis & _ & _ & Hlog).
  simpl in Hrun, Hc. unfold loadFile.
  repeat (split; [assumption|]). assumption.
Qed.

(** X21.  A [chunkSize] of zero or less never finishes a file that is not
    empty: with a reader that does not fail and returns no more characters
    than it was given bytes, every slice ends before the end of the file
    (from some read on the slices are empty), so [offset] stays below the
    size of the file and the next read is always started.  No bound on the
    number of reads is enough; the promise is never settled. *)
Theorem loadFile_never_ends (opts : streaming_options) (file : list N)
    (w : world) :
  chunkSize opts <= 0 ->
  file <> [] ->
  (forall bytes, exists text,
      readAsText bytes = Some text /\
      (List.length text <= List.length bytes)%nat) ->
  forall fuel, loadFile fuel opts file w = None.
Proof.
  intros Hcs Hfile Hreader fuel. unfold loadFile.
  assert (Hsize : 0 < Z.of_nat (List.length file)).
  { destruct file; [contradiction|simpl; lia]. }
  assert (Hloop : forall fuel offset (w0 : world),
            0 <= offset < Z.of_nat (List.length file) ->
            file_reads fuel opts file offset w0 = None).
  { clear fuel. induction fuel as [|fuel IH]; intros offset w0 Hoff;
      [reflexivity|].
    cbn [file_reads].
    pose proof (blob_slice_backwards file offset (chunkSize opts) Hoff Hcs)
      as Hback.
    destruct (Hreader (blob_slice file offset (offset + chunkSize opts)))
      as (chunk & Hread & Hlen).
    rewrite Hread.
    destruct (file_onload_effect opts (Z.of_nat (List.length file)) chunk
                offset w0) as (w1 & ev1 & Ho & _).
    rewrite Ho.
    assert (Hnext : 0 <= offset + length chunk < Z.of_nat (List.length file))
      by (unfold length; lia).
    destruct (Z.ltb_spec (offset + length chunk) (Z.of_nat (List.length file)))
      as [_|?]; [|lia].
    now apply IH. }
  apply Hloop. lia.
Qed.

End Reads.

Lemma loadFile_settles_once_witness :
  exists r w',
    loadFile (D := unit) 3 (all_callbacks 4) sample_file
             (world_of attached_layer)
    = Some (r, w') /\
    r = Normal tt /\
    this w' = this (world_of attached_layer) /\
    exists ev calls,
      log w' = log (world_of attached_layer) ++ ev /\
      dispatched ev
      = chunk_calls (handle (this (world_of attached_layer))) calls /\
      ((filter is_settlement ev = [Resolve] /\
        existsb is_failure ev = false /\
        (List.length (filter is_complete ev)
         = if completeCallback (all_callbacks 4) then 1 else 0)%nat /\
        only_last_final (List.map snd calls) = true)
       \/
       (filter is_settlement ev = [Reject Failed_to_read_file] /\
        filter is_error_report ev
        = (if errorCallback (all_callbacks 4)
           then [ErrorCallback Failed_to_read_file None] else []) /\
        filter is_complete ev = [] /\
        Forall (fun call => snd call = false) calls)).
Proof.
  eexists. eexists. split; [vm_compute; reflexivity|].
  eapply (loadFile_settles_once (D := unit) (all_callbacks 4) sample_file 3
            (world_of attached_layer)).
  vm_compute. reflexivity.
Defined.

Lemma loadFile_reads_the_file_once_witness :
  chunkSize (all_callbacks 4) = Z.of_nat 4 /\
  (forall bytes, exists text,
      readAsText bytes = Some text /\ List.length text = List.length bytes) /\
  exists w' ev count texts calls,
    loadFile (D := unit) (S (List.length sample_file)) (all_callbacks 4)
             sample_file (world_of attached_layer)
    = Some (Normal tt, w') /\
    this w' = this (world_of attached_layer) /\
    log w' = log (world_of attached_layer) ++ ev /\
    filter is_settlement ev = [Resolve] /\
    existsb is_failure ev = false /\
    filter is_complete ev
    = (if completeCallback (all_callbacks 4)
       then [CompleteCallback count (Z.of_nat (List.length sample_file))
                              (Some (Z.of_nat (List.length sample_file)))]
       else []) /\
    List.concat (slices (S (List.length sample_file)) 3 sample_file)
    = sample_file /\
    Forall (fun slice => (List.length slice <= 4)%nat)
           (slices (S (List.length sample_file)) 3 sample_file) /\
    Forall2 (fun slice text => readAsText slice = Some text)
            (slices (S (List.length sample_file)) 3 sample_file) texts /\
    List.map fst calls = texts /\
    only_last_final (List.map snd calls) = true /\
    dispatched ev
    = chunk_calls (handle (this (world_of attached_layer))) calls.
Proof.
  assert (Hreader : forall bytes, exists text,
             readAsText bytes = Some text /\
             List.length text = List.length bytes).
  { intros bytes. exists bytes. split; reflexivity. }
  split; [reflexivity|]. split; [exact Hreader|].
  apply (loadFile_reads_the_file_once (D := unit) (all_callbacks 4) 3
           sample_file (world_of attached_layer));
    [reflexivity | exact Hreader].
Defined.

Lemma loadFile_never_ends_witness :
  chunkSize (all_callbacks 0) <= 0 /\
  sample_file <> [] /\
  (forall bytes, exists text,
      readAsText bytes = Some text /\
      (List.length text <= List.length bytes)%nat) /\
  forall fuel,
    loadFile (D := unit) fuel (all_callbacks 0) sample_file
             (world_of attached_layer)
    = None.
Proof.
  assert (Hreader : forall bytes, exists text,
             readAsText bytes = Some text /\
             (List.length text <= List.length bytes)%nat).
  { intros bytes. exists bytes. split; [reflexivity | apply Nat.le_refl]. }
  split; [simpl; lia|]. split; [discriminate|]. split; [exact Hreader|].
  apply (loadFile_never_ends (D := unit) (all_callbacks 0) sample_file
           (world_of attached_layer));
    [simpl; lia | discriminate | exact Hreader].
Defined.

End FileFacts.

(* ================================================================== *)
(** * [getBounds] *)
(* ================================================================== *)

Module BoundsFacts.

Import Bounds SampleRest.

















(** A collection is visited feature by feature until one has no
    geometry. *)
Lemma forEach_feature_run (features : list (option geometry)) :
  forall x : extent,
    (In None features /\ forEach_feature x features = Thrown TypeError) \/
    (~ In None features /\
     forEach_feature x features
     = Normal (fold_left visit (positions_of (FeatureCollection features)) x)).
Proof.
  induction features as [|[g|] rest IH]; intros x; simpl.
  - right. split; [tauto | reflexivity].
  - destruct (IH (fold_left visit (extractCoordinates g) x))
      as [[Hin Hrun]|[Hout Hrun]].
    + left. auto.
    + right. split; [intros [Heq|Hin]; [discriminate | tauto]|].
      rewrite Hrun. unfold flat. simpl. now rewrite fold_left_app.
  - left. auto.
Qed.

(** What [getBounds] does with a document. *)
Lemma bounds_of_run (doc : geojson_document) :
  (exists features, doc = FeatureCollection features /\ In None features /\
                    bounds_of doc = Thrown TypeError) \/
  ((forall features, doc = FeatureCollection features -> ~ In None features) /\
   bounds_of doc
   = Normal (answer (fold_left visit (positions_of doc) nothing_yet))).
Proof.
  destruct doc as [features|[g|]|g|]; simpl.
  - destruct (forEach_feature_run features nothing_yet)
      as [[Hin Hrun]|[Hout Hrun]].
    + left. exists features. rewrite Hrun. auto.
    + right. split; [intros ? Heq; inversion Heq; now subst|].
      now rewrite Hrun.
  - right. split; [discriminate | reflexivity].
  - right. split; [discriminate | reflexivity].
  - right. split; [discriminate | reflexivity].
  - right. split; [discriminate | reflexivity].
Qed.

Section OfLayer.

Context {Obj : Type} `{Json Obj} `{Located Obj}.

Lemma getBounds_located (l : layer Obj) :
  getBounds l = match located l with
                | Some doc => bounds_of doc
                | None => Normal None
                end.
Proof.
  unfold getBounds, located.
  destruct (geojson l) as [[s|o]|]; [| |reflexivity].
  - destruct (truthy s); reflexivity.
  - destruct (truthy_obj o); reflexivity.
Qed.



(** X24.  On documents whose coordinates are nested as their type calls
    for, [getBounds] throws in one case only: the document is a
    FeatureCollection and one of its features has no geometry; reading
    [geometry.type] then fails with a TypeError, wherever in the array the
    feature stands and whatever the other features hold.  A single Feature
    without geometry does not throw: the test [this.geojson.geometry]
    guards it, and the result is null. *)
Theorem getBounds_throws (l : layer Obj) (e : Err) :
  getBounds l = Thrown e <->
  e = TypeError /\
  exists features,
    located l = Some (FeatureCollection features) /\ In None features.
Proof.
  rewrite getBounds_located. destruct (located l) as [doc|].
  - destruct (bounds_of_run doc) as [(features & Hdoc & Hin & Hrun)|[Hok Hrun]];
      rewrite Hrun.
    + split.
      * intros Heq. inversion Heq. split; [reflexivity|].
        exists features. subst doc. auto.
      * intros [-> _]. reflexivity.
    + split; [discriminate|].
      intros (_ & features & Heq & Hin). inversion Heq; subst doc.
      exfalso. exact (Hok features eq_refl Hin).
  - split; [discriminate|]. intros (_ & features & Heq & _). discriminate.
Qed.

End OfLayer.


End BoundsFacts.
